(** * Keyframe-cycle expansion and expression stripping of the Lottie blocks

    Shallow embedding of [expandTmCycles] (blocks/lottie-animation-v8 and the
    plain lottie-animation block) and of [stripRemainingExpressions]
    (lottie-animation-v8 only), with the properties of the transform.

    [expandTmCycles] runs on the document returned by [res.json()]: a tree of
    freshly decoded values without shared nodes, and the copies it inserts
    are themselves fresh ([JSON.parse(JSON.stringify(kf))]).  Its in-place
    mutation is therefore embedded as a functional update of the tree,
    together with the way the call completes (normally or by an exception).

    [stripRemainingExpressions] is written to tolerate shared and cyclic
    references; it is embedded over an explicit store of objects indexed by
    identity (module [Strip]).

    Numbers are IEEE 754 doubles with the arithmetic of ECMA-262: every
    operation returns the double nearest to the exact result, ties to the
    even significand, with overflow to the infinities and with [NaN].  The two
    zeros are one value, as they are for [===] and for [JSON.stringify].

    Arrays hold at most [2^32 - 1] elements: [push] on a full array throws a
    [RangeError].  Memory is otherwise as large as the language takes it to
    be; an engine that runs out of it ends the call no later than that. *)

From Stdlib Require Import ZArith Lia Sorted Ascii.
From stdpp Require Import base tactics option list strings gmap.

Open Scope string_scope.
Open Scope list_scope.

(** ** JavaScript values *)

Module JS.

(** *** Numbers *)

(** Every finite double is an integer multiple of [2^-1074], the least
    positive double.  [Fin n] is the number [n * 2^-1074]; it is a double when
    [is_double n] holds. *)
Inductive num :=
| NaN
| Inf (negative : bool)
| Fin (n : Z).

(** The number 1, and [2^1024], in units of [2^-1074]. *)
Definition scale : Z := Z.shiftl 1 1074.

Definition overflow : Z := Z.shiftl 1 2098.

(** The integer [z] as a number. *)
Definition Int (z : Z) : num := Fin (z * scale).

(** Distance between neighbouring doubles around a number of magnitude
    [m >= 0] (in units): 53 significant bits from [2^53] units on, one unit
    below (the subnormal numbers and the first binade of normal ones). *)
Definition spacing (m : Z) : Z := Z.shiftl 1 (Z.max 0 (Z.log2 m - 52)).

(** The integer nearest to [a / b], for [b > 0]; the even one of two
    equally near. *)
Definition round_half_even (a b : Z) : Z :=
  let q := (a / b)%Z in
  match (2 * (a mod b) ?= b)%Z with
  | Lt => q
  | Gt => (q + 1)%Z
  | Eq => if Z.even q then q else (q + 1)%Z
  end.

(** "The Number value for [x]" of ECMA-262, for the rational [x = a / b]
    units with [b > 0]: the double nearest to [x], the one with the even
    significand of two equally near, an infinity from [2^1024] on. *)
Definition number_value (a b : Z) : num :=
  let s := spacing (Z.abs a / b) in
  let n := (round_half_even a (b * s) * s)%Z in
  if (overflow <=? Z.abs n)%Z then Inf (n <? 0)%Z else Fin n.

Definition is_double (n : Z) : bool :=
  (Z.abs n <? overflow)%Z && (n mod spacing (Z.abs n) =? 0)%Z.

(** [- a]. *)
Definition num_neg (a : num) : num :=
  match a with
  | NaN => NaN
  | Inf s => Inf (negb s)
  | Fin n => Fin (- n)
  end.

(** [Number::add]. *)
Definition num_add (a b : num) : num :=
  match a, b with
  | NaN, _ | _, NaN => NaN
  | Inf s, Inf s' => if Bool.eqb s s' then Inf s else NaN
  | Inf s, Fin _ | Fin _, Inf s => Inf s
  | Fin x, Fin y => number_value (x + y) 1
  end.

(** [Number::subtract]: [a + (- b)]. *)
Definition num_sub (a b : num) : num := num_add a (num_neg b).

(** [Number::multiply]. *)
Definition num_mul (a b : num) : num :=
  match a, b with
  | NaN, _ | _, NaN => NaN
  | Inf s, Inf s' => Inf (xorb s s')
  | Inf s, Fin y | Fin y, Inf s => if (y =? 0)%Z then NaN else Inf (xorb s (y <? 0)%Z)
  | Fin x, Fin y => number_value (x * y) scale
  end.

(** [Number::divide].  The sign of an infinite quotient by zero is that of
    the dividend, the zero being taken as positive; the program divides only
    by a [cycleDur] that passed the test [cycleDur <= 0]. *)
Definition num_div (a b : num) : num :=
  match a, b with
  | NaN, _ | _, NaN => NaN
  | Inf _, Inf _ => NaN
  | Inf s, Fin y => Inf (xorb s (y <? 0)%Z)
  | Fin _, Inf _ => Fin 0
  | Fin x, Fin y =>
      if (y =? 0)%Z then (if (x =? 0)%Z then NaN else Inf (x <? 0)%Z)
      else number_value (Z.sgn y * x * scale) (Z.abs y)
  end.

(** The least integer not below [a / b], for [b > 0]. *)
Definition ceil_div (a b : Z) : Z := (- ((- a) / b))%Z.

(** [Math.ceil]. *)
Definition num_ceil (a : num) : num :=
  match a with
  | Fin n => Fin (ceil_div n scale * scale)
  | _ => a
  end.

(** [a <= b] and [a < b]: false when an operand is [NaN]. *)
Definition num_leb (a b : num) : bool :=
  match a, b with
  | NaN, _ | _, NaN => false
  | Inf s, Inf s' => implb s' s
  | Inf s, Fin _ => s
  | Fin _, Inf s => negb s
  | Fin x, Fin y => (x <=? y)%Z
  end.

Definition num_ltb (a b : num) : bool :=
  match a, b with
  | NaN, _ | _, NaN => false
  | Inf s, Inf s' => s && negb s'
  | Inf s, Fin _ => s
  | Fin _, Inf s => negb s
  | Fin x, Fin y => (x <? y)%Z
  end.

Arguments scale : simpl never.
Arguments overflow : simpl never.
Arguments spacing : simpl never.
Arguments Int : simpl never.
Arguments number_value : simpl never.
Arguments num_add : simpl never.
Arguments num_sub : simpl never.
Arguments num_mul : simpl never.
Arguments num_div : simpl never.
Arguments num_ceil : simpl never.
Arguments num_leb : simpl never.
Arguments num_ltb : simpl never.

(** *** Values *)

(** A value of the decoded document or of an intermediate expression.
    [VArr items props]: an array with its indexed elements and its named
    own properties.  Arrays decoded from JSON have no named properties; the
    program adds one only through [copy.t = ...] on the copy of a keyframe
    that happens to be an array.  [VObj fields]: a plain object, its own
    properties in property order. *)
#[warnings="-register-all"]
Inductive value :=
| VUndef
| VNull
| VBool (b : bool)
| VNum (n : num)
| VStr (s : string)
| VArr (items : list value) (props : list (string * value))
| VObj (fields : list (string * value)).

Inductive error :=
| TypeError
| SyntaxError
| RangeError.

(** Result of evaluating an expression that may throw. *)
Inductive result (A : Type) :=
| Ok (a : A)
| Err (e : error).
Arguments Ok {A} a.
Arguments Err {A} e.

#[export] Instance result_ret : MRet result := fun A a => Ok a.
#[export] Instance result_bind : MBind result := fun A B f m =>
  match m with
  | Ok a => f a
  | Err e => Err e
  end.

(** How a call that mutates its argument completes. *)
Inductive completion :=
| Normal
| Thrown (e : error).

#[export] Instance num_eq_dec : EqDecision num.
Proof. solve_decision. Defined.

#[export] Instance error_eq_dec : EqDecision error.
Proof. solve_decision. Defined.

(** *** Own properties, as an association list in property order *)

Fixpoint lookup_prop (key : string) (fields : list (string * value)) : option value :=
  match fields with
  | [] => None
  | (k, v) :: rest => if String.eqb k key then Some v else lookup_prop key rest
  end.

(** [o.key = v] on own properties: an existing property keeps its place, a
    new one is added last. *)
Fixpoint assign_prop (key : string) (v : value) (fields : list (string * value))
  : list (string * value) :=
  match fields with
  | [] => [(key, v)]
  | (k, w) :: rest =>
      if String.eqb k key then (k, v) :: rest else (k, w) :: assign_prop key v rest
  end.

(** [delete o.key]. *)
Definition delete_prop (key : string) (fields : list (string * value))
  : list (string * value) :=
  filter (fun kv => negb (String.eqb (fst kv) key)) fields.

(** The object stored under [key] has been mutated in place and is now [v]:
    the property keeps its place; nothing happens when there is none. *)
Fixpoint replace_prop (key : string) (v : value) (fields : list (string * value))
  : list (string * value) :=
  match fields with
  | [] => []
  | (k, w) :: rest =>
      if String.eqb k key then (k, v) :: rest else (k, w) :: replace_prop key v rest
  end.

(** [v.key], for the property names this program reads ([layers], [assets],
    [tm], [x], [k], [t], [op], [ip]), none of which is a built-in property of
    arrays, strings, numbers or booleans.  Reading a property of [null] or
    [undefined] throws. *)
Definition get (v : value) (key : string) : result value :=
  match v with
  | VUndef | VNull => Err TypeError
  | VObj fields => Ok (default VUndef (lookup_prop key fields))
  | VArr _ props => Ok (default VUndef (lookup_prop key props))
  | VBool _ | VNum _ | VStr _ => Ok VUndef
  end.

(** [v.key = w] in strict mode (both source files are ES modules): throws on
    [null], [undefined] and on primitives. *)
Definition set (v : value) (key : string) (w : value) : result value :=
  match v with
  | VObj fields => Ok (VObj (assign_prop key w fields))
  | VArr items props => Ok (VArr items (assign_prop key w props))
  | _ => Err TypeError
  end.

(** [delete v.key] on an object. *)
Definition delete (v : value) (key : string) : value :=
  match v with
  | VObj fields => VObj (delete_prop key fields)
  | VArr items props => VArr items (delete_prop key props)
  | _ => v
  end.

(** The object held by property [key] of [v] is now [w] (mutation of a
    nested object seen from its parent). *)
Definition store_back (v : value) (key : string) (w : value) : value :=
  match v with
  | VObj fields => VObj (replace_prop key w fields)
  | VArr items props => VArr items (replace_prop key w props)
  | _ => v
  end.

(** *** Truthiness, [Array.isArray], [includes] *)

Definition truthy (v : value) : bool :=
  match v with
  | VUndef | VNull => false
  | VBool b => b
  | VNum NaN => false
  | VNum (Inf _) => true
  | VNum (Fin n) => negb (Z.eqb n 0)
  | VStr s => negb (String.eqb s "")
  | VArr _ _ | VObj _ => true
  end.

(** [a || b]. *)
Definition or_else (a b : value) : value := if truthy a then a else b.

Fixpoint is_prefix (p s : string) : bool :=
  match p, s with
  | EmptyString, _ => true
  | String a p', String b s' => Ascii.eqb a b && is_prefix p' s'
  | String _ _, EmptyString => false
  end.

(** [String.prototype.includes]: [sub] occurs in [s]. *)
Fixpoint str_includes (sub s : string) : bool :=
  is_prefix sub s ||
  match s with
  | EmptyString => false
  | String _ s' => str_includes sub s'
  end.

Definition is_str (s : string) (v : value) : bool :=
  match v with
  | VStr s' => String.eqb s' s
  | _ => false
  end.

(** [x.includes(s)] for a truthy [x]: the substring test on a string, the
    membership test on an array; no other value has an [includes] method
    (an own property of a decoded object is never a function). *)
Definition includes (x : value) (s : string) : result bool :=
  match x with
  | VStr s' => Ok (str_includes s s')
  | VArr items _ => Ok (existsb (is_str s) items)
  | _ => Err TypeError
  end.

(** *** [JSON.parse(JSON.stringify(v))] *)

(** The value read back from the serialisation of [v]: [undefined], [NaN]
    and the infinities are written as [null] inside arrays, properties
    holding [undefined] are left out, named properties of arrays are not
    serialised.  A finite double is written with the digits that read back
    as the same double. *)
Fixpoint json_copy (v : value) : value :=
  match v with
  | VUndef => VNull
  | VNum NaN => VNull
  | VNum (Inf _) => VNull
  | VArr items _ => VArr (map json_copy items) []
  | VObj fields =>
      VObj ((fix copy_fields (fs : list (string * value)) : list (string * value) :=
               match fs with
               | [] => []
               | (k, VUndef) :: rest => copy_fields rest
               | (k, w) :: rest => (k, json_copy w) :: copy_fields rest
               end) fields)
  | _ => v
  end.

(** [JSON.stringify(undefined)] is [undefined], which [JSON.parse] rejects. *)
Definition json_clone (v : value) : result value :=
  match v with
  | VUndef => Err SyntaxError
  | _ => Ok (json_copy v)
  end.

(** Values as [JSON.parse] produces them. *)
Fixpoint is_json (v : value) : bool :=
  match v with
  | VUndef => false
  | VNum NaN => false
  | VNum (Inf _) => false
  | VNum (Fin n) => is_double n
  | VArr items props =>
      forallb is_json items &&
      match props with
      | [] => true
      | _ => false
      end
  | VObj fields =>
      (fix all_fields (fs : list (string * value)) : bool :=
         match fs with
         | [] => true
         | (_, w) :: rest => is_json w && all_fields rest
         end) fields
  | _ => true
  end.

(** *** Conversions *)

(** Conversions of the language that the embedding takes as given:
    [StringToNumber] and [NumberToString] are the abstract operations of
    ECMAScript; [ObjectToString] is the conversion of an array or a plain
    object to a primitive, which yields a string or throws. *)
Class Builtins := {
  StringToNumber : string -> num;
  NumberToString : num -> string;
  ObjectToString : value -> result string
}.

Section Coercions.
Context `{Builtins}.

Definition ToNumber (v : value) : result num :=
  match v with
  | VUndef => Ok NaN
  | VNull => Ok (Int 0)
  | VBool b => Ok (Int (if b then 1 else 0))
  | VNum n => Ok n
  | VStr s => Ok (StringToNumber s)
  | VArr _ _ | VObj _ => s ← ObjectToString v; Ok (StringToNumber s)
  end.

(** [a - b]. *)
Definition js_sub (a b : value) : result num :=
  x ← ToNumber a; y ← ToNumber b; Ok (num_sub x y).

(** [a + off] for a number [off]: concatenation when [a] converts to a
    string, numeric addition otherwise. *)
Definition js_add (a : value) (off : num) : result value :=
  match a with
  | VStr s => Ok (VStr (s ++ NumberToString off))
  | VArr _ _ | VObj _ => s ← ObjectToString a; Ok (VStr (s ++ NumberToString off))
  | _ => x ← ToNumber a; Ok (VNum (num_add x off))
  end.

End Coercions.

(** *** Arrays *)

(** The greatest length of an array. *)
Definition max_length : Z := 4294967295.

(** [expanded.push(x)]: on an array of [2^32 - 1] elements the new length is
    not a valid one and [push] throws. *)
Definition push (expanded : list value) (x : value) : result (list value) :=
  if (Z.of_nat (length expanded) <? max_length)%Z then Ok (expanded ++ [x])
  else Err RangeError.

(** [Array.prototype.forEach] with a callback that mutates the element. *)
Fixpoint forEach (f : value -> value * completion) (items : list value)
  : list value * completion :=
  match items with
  | [] => ([], Normal)
  | x :: rest =>
      match f x with
      | (x', Normal) => let (rest', c) := forEach f rest in (x' :: rest', c)
      | (x', Thrown e) => (x' :: rest, Thrown e)
      end
  end.

End JS.

Import JS.

(** ** [expandTmCycles] of blocks/lottie-animation-v8/lottie-animation-v8.js *)

Module V8.
Section Expand.
Context `{Builtins}.

(** Body of [kfs.forEach((kf) => { ... })] up to the [push]: the copy made
    for [kf]. *)
Definition copy_keyframe (off : num) (kf : value) : result value :=
  copy ← json_clone kf;
  t ← get kf "t";
  t' ← js_add t off;
  set copy "t" t'.

(** [kfs.forEach] pushing one copy per keyframe onto [expanded]. *)
Fixpoint push_copies (off : num) (kfs expanded : list value) : result (list value) :=
  match kfs with
  | [] => Ok expanded
  | kf :: rest =>
      copy ← copy_keyframe off kf;
      expanded' ← push expanded copy;
      push_copies off rest expanded'
  end.

(** The number of values [c = 0, 1, 2, ...] with [c < cycles], as far as it
    matters: a turn of the loop pushes at least one element, so that no more
    than [max_length] turns complete. *)
Definition turn_count (cycles : num) : Z :=
  match cycles with
  | NaN => 0
  | Inf true => 0
  | Inf false => max_length + 1
  | Fin n => Z.max 0 (Z.min (ceil_div n scale) (max_length + 1))
  end.

Definition turns (cycles : num) : nat := Z.to_nat (turn_count cycles).

(** [for (let c = 0; c < cycles; c += 1) { ... }] from the counter [c] on,
    the counter being a number like any other.  [fuel] bounds the number of
    turns; with [turns cycles] of it and a non-empty [kfs] the loop ends by
    its test or by an exception before the bound is reached (lemma
    [cycle_loop_runs]). *)
Fixpoint cycle_loop (fuel : nat) (c cycles cycleDur : num) (kfs expanded : list value)
  : result (list value) :=
  if num_ltb c cycles then
    match fuel with
    | O => Err RangeError
    | S fuel' =>
        let off := num_mul c cycleDur in
        expanded' ← push_copies off kfs expanded;
        cycle_loop fuel' (num_add c (Int 1)) cycles cycleDur kfs expanded'
    end
  else Ok expanded.

(** The callback of [layers.forEach] up to the loop: [None] for an early
    [return], otherwise [tm], [kfs], [cycleDur] and [cycles]. *)
Definition cycle_plan (layer : value)
  : result (option (value * list value * num * num)) :=
  tm ← get layer "tm";
  if negb (truthy tm) then Ok None else
  x ← get tm "x";
  if negb (truthy x) then Ok None else
  marked ← includes x "loopOut";
  if negb marked then Ok None else
  kfs ← get tm "k";
  match kfs with
  | VArr items _ =>
      if (length items <? 2)%nat then Ok None else
      last_t ← get (nth (length items - 1) items VUndef) "t";
      first_t ← get (nth 0 items VUndef) "t";
      cycleDur ← js_sub last_t first_t;
      if num_leb cycleDur (Int 0) then Ok None else
      op ← get layer "op";
      ip ← get layer "ip";
      dur ← js_sub (or_else op (VNum (Int 900))) (or_else ip (VNum (Int 0)));
      let cycles := num_add (num_ceil (num_div dur cycleDur)) (Int 1) in
      Ok (Some (tm, items, cycleDur, cycles))
  | _ => Ok None
  end.

(** The callback up to its two final assignments: [None] for an early
    [return], [Some tm'] for the time-remap object as the assignments
    [tm.k = expanded; delete tm.x] leave it.  Every exception of the callback
    is raised before these assignments. *)
Definition expanded_tm (layer : value) : result (option value) :=
  plan ← cycle_plan layer;
  match plan with
  | None => Ok None
  | Some (tm, kfs, cycleDur, cycles) =>
      expanded ← cycle_loop (turns cycles) (Int 0) cycles cycleDur kfs [];
      tm' ← set tm "k" (VArr expanded []);
      Ok (Some (delete tm' "x"))
  end.

(** The callback of [layers.forEach]: the layer after the call and how the
    call completed. *)
Definition walk_layer (layer : value) : value * completion :=
  match expanded_tm layer with
  | Err e => (layer, Thrown e)
  | Ok None => (layer, Normal)
  | Ok (Some tm') => (store_back layer "tm" tm', Normal)
  end.

Definition walk (layers : value) : value * completion :=
  match layers with
  | VArr items props =>
      let (items', c) := forEach walk_layer items in (VArr items' props, c)
  | _ => (layers, Normal)
  end.

(** The callback of [data.assets.forEach]: [(a) => walk(a.layers)]. *)
Definition walk_asset (a : value) : value * completion :=
  match get a "layers" with
  | Err e => (a, Thrown e)
  | Ok layers =>
      let (layers', c) := walk layers in (store_back a "layers" layers', c)
  end.

(** The document after the call and how the call completed. *)
Definition expandTmCycles (data : value) : value * completion :=
  match get data "layers" with
  | Err e => (data, Thrown e)
  | Ok layers =>
      match walk layers with
      | (layers', Thrown e) => (store_back data "layers" layers', Thrown e)
      | (layers', Normal) =>
          let data' := store_back data "layers" layers' in
          match get data' "assets" with
          | Ok (VArr assets props) =>
              let (assets', c) := forEach walk_asset assets in
              (store_back data' "assets" (VArr assets' props), c)
          | Ok _ => (data', Normal)
          | Err e => (data', Thrown e)
          end
      end
  end.

End Expand.

Arguments turn_count : simpl never.
Arguments turns : simpl never.

End V8.

(** ** [expandTmCycles] of the lottie-animation block (second source file) *)

Module Block.
Section Expand.
Context `{Builtins}.

Definition copy_keyframe (off : num) (kf : value) : result value :=
  copy ← json_clone kf;
  t ← get kf "t";
  t' ← js_add t off;
  set copy "t" t'.

Fixpoint push_copies (off : num) (kfs expanded : list value) : result (list value) :=
  match kfs with
  | [] => Ok expanded
  | kf :: rest =>
      copy ← copy_keyframe off kf;
      expanded' ← push expanded copy;
      push_copies off rest expanded'
  end.

Definition turn_count (cycles : num) : Z :=
  match cycles with
  | NaN => 0
  | Inf true => 0
  | Inf false => max_length + 1
  | Fin n => Z.max 0 (Z.min (ceil_div n scale) (max_length + 1))
  end.

Definition turns (cycles : num) : nat := Z.to_nat (turn_count cycles).

Fixpoint cycle_loop (fuel : nat) (c cycles cycleDur : num) (kfs expanded : list value)
  : result (list value) :=
  if num_ltb c cycles then
    match fuel with
    | O => Err RangeError
    | S fuel' =>
        let off := num_mul c cycleDur in
        expanded' ← push_copies off kfs expanded;
        cycle_loop fuel' (num_add c (Int 1)) cycles cycleDur kfs expanded'
    end
  else Ok expanded.

Definition cycle_plan (layer : value)
  : result (option (value * list value * num * num)) :=
  tm ← get layer "tm";
  if negb (truthy tm) then Ok None else
  x ← get tm "x";
  if negb (truthy x) then Ok None else
  marked ← includes x "loopOut";
  if negb marked then Ok None else
  kfs ← get tm "k";
  match kfs with
  | VArr items _ =>
      if (length items <? 2)%nat then Ok None else
      last_t ← get (nth (length items - 1) items VUndef) "t";
      first_t ← get (nth 0 items VUndef) "t";
      cycleDur ← js_sub last_t first_t;
      if num_leb cycleDur (Int 0) then Ok None else
      op ← get layer "op";
      ip ← get layer "ip";
      dur ← js_sub (or_else op (VNum (Int 900))) (or_else ip (VNum (Int 0)));
      let cycles := num_add (num_ceil (num_div dur cycleDur)) (Int 1) in
      Ok (Some (tm, items, cycleDur, cycles))
  | _ => Ok None
  end.

Definition expanded_tm (layer : value) : result (option value) :=
  plan ← cycle_plan layer;
  match plan with
  | None => Ok None
  | Some (tm, kfs, cycleDur, cycles) =>
      expanded ← cycle_loop (turns cycles) (Int 0) cycles cycleDur kfs [];
      tm' ← set tm "k" (VArr expanded []);
      Ok (Some (delete tm' "x"))
  end.

Definition walk_layer (layer : value) : value * completion :=
  match expanded_tm layer with
  | Err e => (layer, Thrown e)
  | Ok None => (layer, Normal)
  | Ok (Some tm') => (store_back layer "tm" tm', Normal)
  end.

Definition walk (layers : value) : value * completion :=
  match layers with
  | VArr items props =>
      let (items', c) := forEach walk_layer items in (VArr items' props, c)
  | _ => (layers, Normal)
  end.

Definition walk_asset (a : value) : value * completion :=
  match get a "layers" with
  | Err e => (a, Thrown e)
  | Ok layers =>
      let (layers', c) := walk layers in (store_back a "layers" layers', c)
  end.

Definition expandTmCycles (data : value) : value * completion :=
  match get data "layers" with
  | Err e => (data, Thrown e)
  | Ok layers =>
      match walk layers with
      | (layers', Thrown e) => (store_back data "layers" layers', Thrown e)
      | (layers', Normal) =>
          let data' := store_back data "layers" layers' in
          match get data' "assets" with
          | Ok (VArr assets props) =>
              let (assets', c) := forEach walk_asset assets in
              (store_back data' "assets" (VArr assets' props), c)
          | Ok _ => (data', Normal)
          | Err e => (data', Thrown e)
          end
      end
  end.

End Expand.

Arguments turn_count : simpl never.
Arguments turns : simpl never.

End Block.

(** ** [stripRemainingExpressions] of lottie-animation-v8.js *)

Module Strip.

(** Identity of an object of the document graph. *)
Definition loc := positive.

(** A value: a primitive or a reference to an object of the store.  Two
    structurally equal objects at different locations are different
    objects. *)
Inductive value :=
| Undef
| Null
| Bool (b : bool)
| Num (n : num)
| Str (s : string)
| Ref (l : loc).

Inductive object :=
| Arr (items : list value)
| Obj (fields : list (string * value)).

#[export] Instance value_eq_dec : EqDecision value.
Proof. solve_decision. Defined.

(** The objects of the graph and the [Set] passed as [seen]. *)
Record state := State {
  heap : gmap loc object;
  seen : gset loc
}.

Fixpoint lookup_field (key : string) (fields : list (string * value)) : option value :=
  match fields with
  | [] => None
  | (k, v) :: rest => if String.eqb k key then Some v else lookup_field key rest
  end.

Definition delete_field (key : string) (fields : list (string * value))
  : list (string * value) :=
  filter (fun kv => negb (String.eqb (fst kv) key)) fields.

(** [if ('x' in obj && typeof obj.x === 'string') delete obj.x;] *)
Definition delete_x (fields : list (string * value)) : list (string * value) :=
  match lookup_field "x" fields with
  | Some (Str _) => delete_field "x" fields
  | _ => fields
  end.

(** [Object.values(obj)]. *)
Definition values (fields : list (string * value)) : list value := map snd fields.

(** The object after
    [if (!Array.isArray(obj) && 'x' in obj && typeof obj.x === 'string') delete obj.x;],
    the statement run on an object already in [seen]. *)
Definition strip_x (o : object) : object :=
  match o with
  | Arr items => Arr items
  | Obj fields => Obj (delete_x fields)
  end.

Definition write (l : loc) (o : object) (st : state) : state :=
  State (<[l := o]> (heap st)) (seen st).

(** [seen.add(obj)]. *)
Definition add_seen (l : loc) (st : state) : state :=
  State (heap st) ({[l]} ∪ seen st).

(** [xs.forEach((v) => f(v, seen))]; [None] when a call runs out of fuel. *)
Fixpoint forEach (f : value -> state -> option state) (xs : list value) (st : state)
  : option state :=
  match xs with
  | [] => Some st
  | v :: rest =>
      match f v st with
      | Some st' => forEach f rest st'
      | None => None
      end
  end.

(** [stripRemainingExpressions(obj, seen)] with a bound [fuel] on the depth
    of the recursion; [None] only when the bound is reached.  Neither an
    array nor the list of values of an object changes while it is being
    traversed: the function writes to objects only by deleting a
    string-valued [x].  A reference to no object of the store does not occur
    in a JavaScript heap; the call then returns at once. *)
Fixpoint stripRemainingExpressions (fuel : nat) (obj : value) (st : state)
  : option state :=
  match fuel with
  | O => None
  | S fuel' =>
      match obj with
      | Ref l =>
          match heap st !! l with
          | None => Some st
          | Some o =>
              if decide (l ∈ seen st) then Some (write l (strip_x o) st)
              else
                let st1 := add_seen l st in
                match o with
                | Arr items =>
                    forEach (stripRemainingExpressions fuel') items st1
                | Obj fields =>
                    let fields' := delete_x fields in
                    forEach (stripRemainingExpressions fuel') (values fields')
                      (write l (Obj fields') st1)
                end
          end
      | _ => Some st
      end
  end.

(** The call [stripRemainingExpressions(animationData)]: [seen] starts as a
    new empty [Set]. *)
Definition initial (h : gmap loc object) : state := State h ∅.

(** *** Vocabulary of the properties *)

Definition children (o : object) : list value :=
  match o with
  | Arr items => items
  | Obj fields => values fields
  end.

(** [l] is an object of the graph reachable from the value [v]. *)
Inductive reachable (h : gmap loc object) : value -> loc -> Prop :=
| reach_root l o : h !! l = Some o -> reachable h (Ref l) l
| reach_child l o v l' :
    h !! l = Some o -> v ∈ children o -> reachable h v l' ->
    reachable h (Ref l) l'.

(** The object holds no expression: no string-valued [x]. *)
Definition expression_free (o : object) : Prop :=
  match o with
  | Arr _ => True
  | Obj fields => forall s, lookup_field "x" fields <> Some (Str s)
  end.

(** Property names of an object are pairwise distinct. *)
Definition keys_unique (o : object) : Prop :=
  match o with
  | Arr _ => True
  | Obj fields => NoDup (map fst fields)
  end.

Definition well_formed (h : gmap loc object) : Prop :=
  map_Forall (fun _ o => keys_unique o) h.

(** Objects not yet in [seen]: the measure of the recursion. *)
Definition unseen (st : state) : nat := size (dom (heap st) ∖ seen st).

(** The only change to the store is the deletion of string-valued [x]
    properties. *)
Definition frame (h h' : gmap loc object) : Prop :=
  forall l, h' !! l = h !! l \/ h' !! l = strip_x <$> h !! l.

Definition extends (st st' : state) : Prop :=
  frame (heap st) (heap st') /\ seen st ⊆ seen st'.

(** Every object in [seen] has been stripped. *)
Definition seen_stripped (st : state) : Prop :=
  forall l o, l ∈ seen st -> heap st !! l = Some o -> strip_x o = o.

(** Every object in [seen], except those of [G] whose traversal is still
    going on, has all the objects it refers to in [seen]. *)
Definition closed_except (G : gset loc) (st : state) : Prop :=
  forall l o l',
    l ∈ seen st -> l ∉ G -> heap st !! l = Some o ->
    Ref l' ∈ children o -> is_Some (heap st !! l') -> l' ∈ seen st.

(** What a call on the values [vs] guarantees. *)
Definition visited (vs : list value) (st st' : state) : Prop :=
  extends st st' /\
  (forall G, seen_stripped st -> closed_except G st ->
             seen_stripped st' /\ closed_except G st') /\
  (forall l, Ref l ∈ vs -> is_Some (heap st !! l) -> l ∈ seen st').

(** An object outside [seen] afterwards has not been written to. *)
Definition untouched (st st' : state) : Prop :=
  extends st st' /\
  forall l, l ∉ seen st' -> heap st' !! l = heap st !! l.

(** *** Sample graphs *)

(** Two objects referring to each other, the second one reachable along two
    properties of the first, and an array leading back to the root. *)
Definition cyclic_graph : gmap loc object :=
  <[1%positive := Obj [("x", Str "time"); ("a", Ref 2%positive); ("b", Ref 2%positive)]]>
  (<[2%positive := Obj [("x", Str "wiggle(1, 2)"); ("back", Ref 1%positive);
                        ("arr", Ref 3%positive)]]>
  (<[3%positive := Arr [Ref 1%positive; Num (Int 4)]]> ∅)).

(** A property with an expression, holding an easing handle whose [x] is an
    array, and a number-valued [x]. *)
Definition easing_graph : gmap loc object :=
  <[1%positive := Obj [("a", Num (Int 1)); ("x", Str "loopOut()"); ("i", Ref 2%positive)]]>
  (<[2%positive := Obj [("x", Ref 3%positive); ("y", Ref 3%positive)]]>
  (<[3%positive := Arr [Num (Int 1)]]>
  (<[4%positive := Obj [("x", Num (Int 7))]]> ∅))).

(** [easing_graph] after the call on its first object. *)
Definition easing_result : state :=
  State
    (<[1%positive := Obj [("a", Num (Int 1)); ("i", Ref 2%positive)]]> easing_graph)
    ({[1%positive; 2%positive; 3%positive]}).

End Strip.

(** ** Vocabulary of the properties *)

(** [v.key] where reading cannot throw. *)
Definition field (v : value) (key : string) : value :=
  match get v key with
  | Ok w => w
  | Err _ => VUndef
  end.

(** The number held by [kf.t]. *)
Definition time_of (kf : value) : option num :=
  match field kf "t" with
  | VNum t => Some t
  | _ => None
  end.

(** A keyframe of the data model: a decoded object whose [t] is a number. *)
Definition is_keyframe (kf : value) : bool :=
  match kf with
  | VObj _ => is_json kf && bool_decide (is_Some (time_of kf))
  | _ => false
  end.

(** [kf] with [t] replaced by [kf.t + d] and nothing else changed. *)
Definition shifted (d : num) (kf : value) : value :=
  match kf, time_of kf with
  | VObj fields, Some t => VObj (assign_prop "t" (VNum (num_add t d)) fields)
  | _, _ => kf
  end.

(** Keyframes in non-decreasing order of [t]. *)
Definition time_le (a b : value) : Prop :=
  match time_of a, time_of b with
  | Some x, Some y => num_leb x y = true
  | _, _ => False
  end.

Definition ascending (kfs : list value) : Prop := Sorted time_le kfs.

(** [n] copies of the keyframes, copy number [c + j] shifted by
    [(c + j) * cycleDur]: cycle index outermost, keyframe order within. *)
Fixpoint unrolled (n : nat) (c : Z) (cycleDur : num) (kfs : list value) : list value :=
  match n with
  | O => []
  | S n' =>
      map (shifted (num_mul (Int c) cycleDur)) kfs ++ unrolled n' (c + 1) cycleDur kfs
  end.

(** The number of [layer.op] or [layer.ip], [dflt] when the field is absent
    or falsy. *)
Definition frame_or (dflt : Z) (v : value) : option num :=
  if truthy v then
    match v with
    | VNum n => Some n
    | _ => None
    end
  else Some (Int dflt).

(** A layer with a valid cyclic-loop time-remap [tm]: the expression holds
    the marker, there are at least two keyframes [kfs], all of the data
    model, the cycle duration [cycleDur = k[last].t - k[first].t] is
    positive; [dur] is [op - ip] with the defaults. *)
Record eligible (layer tm : value) (kfs : list value) (cycleDur dur : num) : Prop := {
  el_tm : get layer "tm" = Ok tm;
  el_marker : exists s, get tm "x" = Ok (VStr s) /\ str_includes "loopOut" s = true;
  el_k : exists props, get tm "k" = Ok (VArr kfs props);
  el_len : 2 <= length kfs;
  el_kfs : Forall (fun kf => is_keyframe kf = true) kfs;
  el_cycle : exists t0 tn,
    head kfs ≫= time_of = Some t0 /\ last kfs ≫= time_of = Some tn /\
    cycleDur = num_sub tn t0 /\ num_ltb (Int 0) cycleDur = true;
  el_dur : exists op ip,
    frame_or 900 (field layer "op") = Some op /\
    frame_or 0 (field layer "ip") = Some ip /\ dur = num_sub op ip
}.

(** The integers that doubles count exactly: magnitude below [2^53]. *)
Definition safe (z : Z) : Prop := (- 9007199254740992 < z < 9007199254740992)%Z.

(** The frame numbers of the layer are integers: those of the keyframes,
    from [t0] to [tn], and [op] and [ip] (or their defaults), [dur] apart.
    Every number the expansion computes is a safe integer: the duration, the
    offsets up to [cycles * (tn - t0)] and the emitted frame numbers, from
    [t0] up to [tn + cycles * (tn - t0)]; and the [cycles] copies of the
    keyframes fit an array. *)
Record integral (layer : value) (kfs : list value) (t0 tn dur : Z) : Prop := {
  in_times : Forall (fun kf => exists t, time_of kf = Some (Int t)) kfs;
  in_first : head kfs ≫= time_of = Some (Int t0);
  in_last : last kfs ≫= time_of = Some (Int tn);
  in_dur : exists op ip,
    frame_or 900 (field layer "op") = Some (Int op) /\
    frame_or 0 (field layer "ip") = Some (Int ip) /\ dur = (op - ip)%Z;
  in_safe :
    safe dur /\ safe t0 /\ safe ((ceil_div dur (tn - t0) + 1) * (tn - t0)) /\
    safe (tn + (ceil_div dur (tn - t0) + 1) * (tn - t0));
  in_fits :
    ((ceil_div dur (tn - t0) + 1) * Z.of_nat (length kfs) <= max_length)%Z
}.

(** [out] is [cycles] copies of [kfs] in a row, non-decreasing in [t],
    starting at the first original frame number, copy [c] being the original
    keyframes with [c * cycleDur] added to [t]. *)
Definition expansion_of (kfs out : list value) (cycleDur cycles : Z) : Prop :=
  Z.of_nat (length out) = (cycles * Z.of_nat (length kfs))%Z /\
  ascending out /\
  (exists kf0 kf0',
     head kfs = Some kf0 /\ head out = Some kf0' /\ time_of kf0' = time_of kf0) /\
  (forall c i kf,
     (0 <= c < cycles)%Z -> kfs !! i = Some kf ->
     out !! (Z.to_nat c * length kfs + i) = Some (shifted (Int (c * cycleDur)) kf) /\
     forall t, time_of kf = Some (Int t) ->
               time_of (shifted (Int (c * cycleDur)) kf) = Some (Int (t + c * cycleDur))).

(** The layer holds an expanded time-remap: no [x], and [k] the expansion
    of [kfs]. *)
Definition expanded_layer (layer' : value) (kfs : list value) (cycleDur cycles : Z)
  : Prop :=
  exists tm' out,
    get layer' "tm" = Ok tm' /\ get tm' "x" = Ok VUndef /\
    get tm' "k" = Ok (VArr out []) /\ expansion_of kfs out cycleDur cycles.

(** The layer's [tm.k] consists of [n] cycle copies of [kfs], and its [tm.x]
    is gone. *)
Definition emits_copies (layer' : value) (kfs : list value) (cycleDur : num) (n : nat)
  : Prop :=
  exists tm', get layer' "tm" = Ok tm' /\ get tm' "x" = Ok VUndef /\
              get tm' "k" = Ok (VArr (unrolled n 0 cycleDur kfs) []).

(** A guard of the callback is hit: [tm] is absent (or falsy); [tm.x] is
    absent (or falsy) or a string without the marker; [tm.k] is not an array
    of at least two entries; the cycle duration is not positive. *)
Definition guard_hit (layer : value) : Prop :=
  let tm := field layer "tm" in
  truthy tm = false \/
  truthy (field tm "x") = false \/
  (exists s, field tm "x" = VStr s /\ str_includes "loopOut" s = false) \/
  (forall items props, field tm "k" = VArr items props -> length items < 2) \/
  (exists items props t0 tn,
     field tm "k" = VArr items props /\
     head items ≫= time_of = Some t0 /\ last items ≫= time_of = Some tn /\
     num_leb (num_sub tn t0) (Int 0) = true).

(** What the callback may change of a layer: nothing but [tm], and of [tm]
    nothing but [k] and [x]. *)
Definition layer_frame (layer layer' : value) : Prop :=
  (forall key, key <> "tm" -> get layer' key = get layer key) /\
  (layer' = layer \/
   exists tm tm',
     get layer "tm" = Ok tm /\ get layer' "tm" = Ok tm' /\
     forall key, key <> "k" -> key <> "x" -> get tm' key = get tm key).

(** The same of a [layers] array: entry by entry. *)
Definition layers_frame (layers layers' : list value) : Prop :=
  length layers' = length layers /\
  forall j layer layer',
    layers !! j = Some layer -> layers' !! j = Some layer' -> layer_frame layer layer'.

(** *** The [for] loop as the language defines it *)

(** The statement [for (...; c < cycles; c += 1) { ... }] run from the
    counter [c] and the array [expanded]: it ends when the test fails, or
    with the exception of a turn. *)
Inductive loop_runs `{Builtins} (cycles cycleDur : num) (kfs : list value)
  : num -> list value -> result (list value) -> Prop :=
| loop_exit c expanded :
    num_ltb c cycles = false ->
    loop_runs cycles cycleDur kfs c expanded (Ok expanded)
| loop_throw c expanded e :
    num_ltb c cycles = true ->
    V8.push_copies (num_mul c cycleDur) kfs expanded = Err e ->
    loop_runs cycles cycleDur kfs c expanded (Err e)
| loop_turn c expanded expanded' r :
    num_ltb c cycles = true ->
    V8.push_copies (num_mul c cycleDur) kfs expanded = Ok expanded' ->
    loop_runs cycles cycleDur kfs (num_add c (Int 1)) expanded' r ->
    loop_runs cycles cycleDur kfs c expanded r.

(** *** Documents of the expected types, with any part possibly missing *)

Definition nullish (v : value) : bool :=
  match v with
  | VUndef | VNull => true
  | _ => false
  end.

Definition primitive (v : value) : bool :=
  match v with
  | VArr _ _ | VObj _ => false
  | _ => true
  end.

Definition is_array (v : value) : bool :=
  match v with
  | VArr _ _ => true
  | _ => false
  end.

(** An object whose [t], if any, is a primitive value. *)
Definition keyframe_shaped (kf : value) : bool :=
  match kf with
  | VObj _ => primitive (field kf "t")
  | _ => false
  end.

(** A string, or a falsy value such as an absent field. *)
Definition expression_shaped (x : value) : bool :=
  match x with
  | VStr _ => true
  | _ => negb (truthy x)
  end.

Definition layer_shaped (layer : value) : bool :=
  negb (nullish layer) &&
  expression_shaped (field (field layer "tm") "x") &&
  match field (field layer "tm") "k" with
  | VArr items _ => forallb keyframe_shaped items
  | _ => true
  end &&
  primitive (field layer "op") && primitive (field layer "ip").

Definition layers_shaped (layers : value) : bool :=
  match layers with
  | VArr items _ => forallb layer_shaped items
  | _ => true
  end.

Definition asset_shaped (a : value) : bool :=
  negb (nullish a) && layers_shaped (field a "layers").

Definition document_shaped (data : value) : bool :=
  negb (nullish data) &&
  layers_shaped (field data "layers") &&
  match field data "assets" with
  | VArr assets _ => forallb asset_shaped assets
  | _ => true
  end.

(** *** Expansions that fit an array *)

Section Fits.
Context `{Builtins}.

(** The number of keyframes the callback sets out to emit for [layer]: the
    turns of its loop times the length of [tm.k]; 0 when it returns or
    throws before the loop. *)
Definition requested (layer : value) : Z :=
  match V8.cycle_plan layer with
  | Ok (Some (_, kfs, _, cycles)) => (V8.turn_count cycles * Z.of_nat (length kfs))%Z
  | _ => 0%Z
  end.

Definition fits (layer : value) : bool := (requested layer <=? max_length)%Z.

Definition layers_fit (layers : value) : bool :=
  match layers with
  | VArr items _ => forallb fits items
  | _ => true
  end.

(** No layer of the document, at top level or in an asset, asks for more
    keyframes than an array holds. *)
Definition document_fits (data : value) : bool :=
  layers_fit (field data "layers") &&
  match field data "assets" with
  | VArr assets _ => forallb (fun a => layers_fit (field a "layers")) assets
  | _ => true
  end.

End Fits.

(** ** Sample documents *)

Module Samples.

(** An instance for evaluating the embedding on documents whose arithmetic
    involves numbers only; the conversions are never reached there.  Every
    theorem is proved for all instances. *)
Definition sample_builtins : Builtins := {|
  StringToNumber := fun _ => NaN;
  NumberToString := fun _ => "";
  ObjectToString := fun _ => Err TypeError
|}.

Definition keyframe (t v : Z) : value :=
  VObj [("t", VNum (Int t)); ("v", VNum (Int v))].

Definition cycle_tm : value :=
  VObj [("x", VStr "loopOut('cycle')"); ("k", VArr [keyframe 0 0; keyframe 25 1] [])].

Definition layer_with (ip op : Z) : value :=
  VObj [("ip", VNum (Int ip)); ("op", VNum (Int op)); ("tm", cycle_tm)].

(** The document of the end-to-end scenario. *)
Definition scenario_document : value :=
  VObj [("layers", VArr [layer_with 0 100] [])].

Definition scenario_expanded : value :=
  VObj [("layers", VArr [
    VObj [("ip", VNum (Int 0)); ("op", VNum (Int 100));
          ("tm", VObj [("k", VArr [
             keyframe 0 0; keyframe 25 1; keyframe 25 0; keyframe 50 1;
             keyframe 50 0; keyframe 75 1; keyframe 75 0; keyframe 100 1;
             keyframe 100 0; keyframe 125 1] [])])]] [])].

(** A layer whose out-point lies before its in-point. *)
Definition late_layer : value := layer_with 100 50.

Definition later_layer : value := layer_with 100 10.

(** A layer with [op = 0] and no [ip]. *)
Definition default_layer : value :=
  VObj [("op", VNum (Int 0)); ("tm", cycle_tm)].

(** Documents on which the call throws. *)
Definition null_layer_document : value :=
  VObj [("layers", VArr [VNull] [])].

Definition numeric_expression_document : value :=
  VObj [("layers", VArr [VObj [("tm", VObj [("x", VNum (Int 1))])]] [])].

Definition null_keyframe_document : value :=
  VObj [("layers", VArr [
    VObj [("tm", VObj [("x", VStr "loopOut('cycle')"); ("k", VArr [VNull; VNull] [])])]] [])].

Definition null_asset_document : value :=
  VObj [("assets", VArr [VNull] [])].

(** A layer with the marker whose keyframes have no [t]. *)
Definition untimed_document : value :=
  VObj [("layers", VArr [
    VObj [("tm", VObj [("x", VStr "loopOut('cycle')");
                       ("k", VArr [VObj [("v", VNum (Int 0))];
                                   VObj [("v", VNum (Int 1))]] [])])]] [])].

(** A document of the expected types with parts missing. *)
Definition sparse_document : value :=
  VObj [("layers", VArr [
          VObj [("ty", VNum (Int 4))];
          VObj [("tm", VObj [("k", VArr [keyframe 0 0; keyframe 25 1] [])])];
          VObj [("tm", VObj [("x", VStr "loopOut('cycle')");
                             ("k", VArr [VObj [("v", VNum (Int 0))];
                                         VObj [("v", VNum (Int 1))]] [])])]] []);
        ("assets", VStr "none")].

(** A layer whose two keyframes have the same [t]. *)
Definition flat_layer : value :=
  VObj [("tm", VObj [("x", VStr "loopOut('cycle')");
                     ("k", VArr [keyframe 5 0; keyframe 5 1] [])])].

(** The scenario layer inside a pre-composition only. *)
Definition asset_document : value :=
  VObj [("assets", VArr [VObj [("id", VStr "comp_0");
                               ("layers", VArr [layer_with 0 100] [])]] [])].

(** The same behind a [null] entry of the top-level layers. *)
Definition blocked_asset_document : value :=
  VObj [("layers", VArr [VNull] []);
        ("assets", VArr [VObj [("id", VStr "comp_0");
                               ("layers", VArr [layer_with 0 100] [])]] [])].

(** The double [m * 2^e], for [e >= -1074]. *)
Definition dyadic (m e : Z) : num := Fin (Z.shiftl m (e + 1074)).

(** A layer with keyframes at [t = 0.2] and [t = 0.9], and [op = 2]. *)
Definition fractional_keyframes : list value :=
  [VObj [("t", VNum (dyadic 3602879701896397 (-54)))];
   VObj [("t", VNum (dyadic 8106479329266893 (-53)))]].

Definition fractional_tm : value :=
  VObj [("x", VStr "loopOut('cycle')"); ("k", VArr fractional_keyframes [])].

Definition fractional_layer : value :=
  VObj [("op", VNum (Int 2)); ("tm", fractional_tm)].

(** What the expansion makes of these keyframes: [0.2], [0.9],
    [0.8999999999999999], [1.6], [1.5999999999999999], [2.3], [2.3],
    [2.9999999999999996]. *)
Definition fractional_expanded : list value :=
  [VObj [("t", VNum (dyadic 3602879701896397 (-54)))];
   VObj [("t", VNum (dyadic 8106479329266893 (-53)))];
   VObj [("t", VNum (dyadic 8106479329266892 (-53)))];
   VObj [("t", VNum (dyadic 7205759403792794 (-52)))];
   VObj [("t", VNum (dyadic 7205759403792793 (-52)))];
   VObj [("t", VNum (dyadic 5179139571476070 (-51)))];
   VObj [("t", VNum (dyadic 5179139571476070 (-51)))];
   VObj [("t", VNum (dyadic 6755399441055743 (-51)))]].

(** A layer whose out-point asks for more cycles than an array holds
    keyframes. *)
Definition endless_layer : value := layer_with 0 1099511627776.

Definition endless_document : value :=
  VObj [("layers", VArr [endless_layer] [])].

End Samples.

(** ** Vocabulary of the further properties *)

(** A layer that is not [null] or [undefined] and holds no loop expression:
    [tm] is falsy, or [tm.x] is falsy or a string without the marker. *)
Definition unmarked (layer : value) : bool :=
  negb (nullish layer) &&
  (negb (truthy (field layer "tm")) ||
   match field (field layer "tm") "x" with
   | VStr s => negb (str_includes "loopOut" s)
   | x => negb (truthy x)
   end).

Definition unmarked_layers (layers : value) : bool :=
  match layers with
  | VArr items _ => forallb unmarked items
  | _ => true
  end.

Definition unmarked_asset (a : value) : bool :=
  negb (nullish a) && unmarked_layers (field a "layers").

Definition unmarked_document (data : value) : bool :=
  negb (nullish data) &&
  unmarked_layers (field data "layers") &&
  match field data "assets" with
  | VArr assets _ => forallb unmarked_asset assets
  | _ => true
  end.

(** Sample inputs of the further properties. *)
Module Cases.

(** A document without any loop expression. *)
Definition static_document : value :=
  VObj [("v", VStr "5.7.4"); ("op", VNum (Int 60));
        ("layers", VArr [
           VObj [("ty", VNum (Int 4)); ("ks", VObj [("o", VObj [("x", VStr "time")])])];
           VObj [("tm", VObj [("x", VStr "wiggle(2, 10)");
                              ("k", VArr [Samples.keyframe 0 0; Samples.keyframe 25 1] [])])]]
           []);
        ("assets", VArr [VObj [("id", VStr "comp_0");
                               ("layers", VArr [VObj [("ty", VNum (Int 0))]] [])]] [])].

(** A [null] entry between two layers with a loop expression. *)
Definition interrupted_document : value :=
  VObj [("layers", VArr [Samples.layer_with 0 100; VNull; Samples.layer_with 0 100] []);
        ("assets", VArr [VObj [("layers", VArr [Samples.layer_with 0 100] [])]] [])].

(** A layer with the marker whose last keyframe has no [t]. *)
Definition untimed_layer : value :=
  VObj [("tm", VObj [("x", VStr "loopOut('cycle')");
                     ("k", VArr [Samples.keyframe 0 0; VObj [("v", VNum (Int 1))]] [])])].

End Cases.

(** ** Loading a container at most once (both source files) *)

Module Loader.

(** What the functions read and write of the container element: the
    attribute [data-jsonsrc], [dataset.lottieLoaded], [dataset.lottieStatus],
    and the number of times [loadLottieIntoContainer] went past its guards
    and started the load sequence. *)
Record container := Container {
  jsonsrc : option string;
  lottieLoaded : option string;
  lottieStatus : option string;
  started : nat
}.

(** [jsonUrl] is truthy: the attribute is there and not empty. *)
Definition has_source (c : container) : bool :=
  match jsonsrc c with
  | Some s => negb (String.eqb s "")
  | None => false
  end.

(** The guards and the two assignments at the head of
    [loadLottieIntoContainer]; what follows them is the load sequence. *)
Definition loadLottieIntoContainer (c : container) : container :=
  if negb (has_source c) then c
  else if bool_decide (lottieLoaded c = Some "true") then c
  else Container (jsonsrc c) (Some "true") (Some "loading") (S (started c)).

(** The closure of [initLottieWhenVisible]: its variable [loaded] and the
    container it was called on. *)
Record watcher := Watcher {
  loaded : bool;
  target : container
}.

(** [run]. *)
Definition run (w : watcher) : watcher :=
  if loaded w then w
  else Watcher true (loadLottieIntoContainer (target w)).

(** The callbacks registered by [initLottieWhenVisible]: the observer's,
    called with the [isIntersecting] flags of its entries, and the timer's. *)
Inductive event :=
| Intersection (entries : list bool)
| Timeout.

Definition on_intersection (entries : list bool) (w : watcher) : watcher :=
  fold_left (fun w (isIntersecting : bool) => if isIntersecting then run w else w)
    entries w.

Definition on_timeout (w : watcher) : watcher :=
  if bool_decide (lottieLoaded (target w) = Some "true") then w else run w.

Definition on_event (w : watcher) (e : event) : watcher :=
  match e with
  | Intersection entries => on_intersection entries w
  | Timeout => on_timeout w
  end.

(** [initLottieWhenVisible]: nothing is registered without a [jsonUrl]. *)
Definition initLottieWhenVisible (c : container) : option watcher :=
  if negb (has_source c) then None else Some (Watcher false c).

(** An event that calls [run] unless the container is marked as loaded. *)
Definition triggers (e : event) : bool :=
  match e with
  | Intersection entries => existsb id entries
  | Timeout => true
  end.

(** The states a watcher of [c] can be in. *)
Definition watching (c : container) (w : watcher) : Prop :=
  (target w = c /\ (loaded w = true -> lottieLoaded c = Some "true")) \/
  (lottieLoaded c <> Some "true" /\
   target w = Container (jsonsrc c) (Some "true") (Some "loading") (S (started c))).

(** A container as [decorate] creates it. *)
Definition fresh_container (jsonUrl : string) : container :=
  Container (Some jsonUrl) None None 0.

End Loader.

(** ** [toAbsoluteJsonUrl] (both source files) *)

Module Url.

(** Strings are read as sequences of characters of which the function
    inspects only [/], [:] and the letters of [http] and [https]. *)

(** What the embedding takes as given: [String.prototype.trim], and the
    [href] of [new URL(path, base)], which throws for an invalid URL. *)
Class UrlBuiltins := {
  trim : string -> string;
  URL_href : string -> string -> result string
}.

(** [window], where defined: [window.hlx?.codeBasePath] ([None] when [hlx] or
    the property is absent) and [window.location.origin]. *)
Record window := Window {
  codeBasePath : option string;
  origin : string
}.

Definition is_slash (a : Ascii.ascii) : bool := Ascii.eqb a "/"%char.

(** The lower-case form of an ASCII letter. *)
Definition lower (a : Ascii.ascii) : Ascii.ascii :=
  let n := Ascii.nat_of_ascii a in
  if ((65 <=? n) && (n <=? 90))%nat then Ascii.ascii_of_nat (n + 32) else a.

(** [s] starts with the lower-case [p], letter case ignored. *)
Fixpoint starts_with_ci (p s : string) : bool :=
  match p, s with
  | EmptyString, _ => true
  | String a p', String b s' => Ascii.eqb a (lower b) && starts_with_ci p' s'
  | String _ _, EmptyString => false
  end.

(** [/^https?:\/\//i.test(s)]. *)
Definition is_absolute (s : string) : bool :=
  starts_with_ci "http://" s || starts_with_ci "https://" s.

(** [s.startsWith('/')]. *)
Definition starts_with_slash (s : string) : bool :=
  match s with
  | String a _ => is_slash a
  | EmptyString => false
  end.

(** [s.replace(/^\//, '')]. *)
Definition strip_leading_slash (s : string) : string :=
  match s with
  | String a rest => if is_slash a then rest else s
  | EmptyString => s
  end.

(** [s.replace(/\/$/, '')]. *)
Fixpoint strip_trailing_slash (s : string) : string :=
  match s with
  | EmptyString => EmptyString
  | String a EmptyString => if is_slash a then EmptyString else s
  | String a rest => String a (strip_trailing_slash rest)
  end.

(** [s.replace(/\/+/g, '/')]: of every run of slashes one is kept. *)
Fixpoint collapse_slashes (s : string) : string :=
  match s with
  | EmptyString => EmptyString
  | String a rest =>
      if is_slash a && starts_with_slash rest then collapse_slashes rest
      else String a (collapse_slashes rest)
  end.

(** [base]. *)
Definition base_of (w : option window) : string :=
  match w with
  | Some (Window (Some p) _) =>
      if String.eqb p "" then "" else strip_trailing_slash p
  | _ => ""
  end.

(** [path]. *)
Definition path_of (w : option window) (trimmed : string) : string :=
  let base := base_of w in
  if starts_with_slash trimmed then trimmed
  else
    collapse_slashes
      ((if String.eqb base "" then "" else "/" ++ base)
       ++ "/" ++ strip_leading_slash trimmed)%string.

Section WithBuiltins.
Context `{UrlBuiltins}.

Definition toAbsoluteJsonUrl (w : option window) (url : value) : value :=
  match url with
  | VStr s =>
      if String.eqb s "" then url
      else
        let trimmed := trim s in
        if is_absolute trimmed then VStr trimmed
        else
          match URL_href (path_of w trimmed)
                  (match w with Some win => origin win | None => "" end) with
          | Ok href => VStr href
          | Err _ => VStr trimmed
          end
  | _ => url
  end.

End WithBuiltins.

(** Two slashes in a row somewhere in [s]. *)
Fixpoint has_double_slash (s : string) : bool :=
  match s with
  | EmptyString => false
  | String a rest => (is_slash a && starts_with_slash rest) || has_double_slash rest
  end.

End Url.

(** ** [waitForLottie] (v8 block) *)

Module Wait.

(** What one run of [check] sees: whether [window.lottie.loadAnimation] is a
    function, and the value of [Date.now()]. *)
Record poll := Poll {
  ready : bool;
  now : Z
}.

(** How the promise is settled. *)
Inductive outcome :=
| Resolved
| Rejected.

(** [check], run on the successive polls: the one made at once and those the
    50 ms timer brings. [None]: the next run is still scheduled. *)
Fixpoint check (deadline : Z) (polls : list poll) : option outcome :=
  match polls with
  | [] => None
  | p :: rest =>
      if ready p then Some Resolved
      else if (deadline <? now p)%Z then Some Rejected
      else check deadline rest
  end.

(** [waitForLottie(maxMs)], called when the library is ready or not
    ([ready0]) at the time [now0]. *)
Definition waitForLottie (maxMs : Z) (ready0 : bool) (now0 : Z) (polls : list poll)
  : option outcome :=
  if ready0 then Some Resolved
  else check (now0 + maxMs) polls.

(** The timer keeps its delay: the first poll is not before [t], and each
    later one is at least 50 ms after the one before. *)
Fixpoint spaced (t : Z) (polls : list poll) : Prop :=
  match polls with
  | [] => True
  | p :: rest => (t <= now p)%Z /\ spaced (now p + 50) rest
  end.

(** No poll of the list settles the promise. *)
Definition waiting (deadline : Z) (polls : list poll) : Prop :=
  Forall (fun p => ready p = false /\ (now p <= deadline)%Z) polls.

End Wait.

(** ** Properties of own-property lists *)

Lemma lookup_replace_prop_eq key v fields :
  lookup_prop key (replace_prop key v fields) = (fun _ => v) <$> lookup_prop key fields.
Proof.
  induction fields as [|[k w] rest IH]; simpl; [done|].
  destruct (String.eqb k key) eqn:E; simpl; rewrite E; done.
Qed.

Lemma lookup_replace_prop_ne key key' v fields :
  key <> key' ->
  lookup_prop key' (replace_prop key v fields) = lookup_prop key' fields.
Proof.
  intros Hne. induction fields as [|[k w] rest IH]; simpl; [done|].
  destruct (String.eqb k key) eqn:E; simpl.
  - apply String.eqb_eq in E. subst k.
    destruct (String.eqb key key') eqn:E'; [|done].
    apply String.eqb_eq in E'. contradiction.
  - destruct (String.eqb k key'); [done|apply IH].
Qed.

Lemma replace_prop_replace key v w fields :
  replace_prop key v (replace_prop key w fields) = replace_prop key v fields.
Proof.
  induction fields as [|[k u] rest IH]; simpl; [done|].
  destruct (String.eqb k key) eqn:E; simpl; rewrite E; [done|by rewrite IH].
Qed.

Lemma replace_prop_same key fields :
  replace_prop key (default VUndef (lookup_prop key fields)) fields = fields.
Proof.
  induction fields as [|[k u] rest IH]; simpl; [done|].
  destruct (String.eqb k key) eqn:E; simpl; [done|by rewrite IH].
Qed.

Lemma lookup_delete_prop_eq key fields :
  lookup_prop key (delete_prop key fields) = None.
Proof.
  induction fields as [|[k u] rest IH]; simpl; [done|].
  unfold delete_prop in *. rewrite filter_cons. simpl.
  destruct (String.eqb k key) eqn:E; simpl; [done|].
  rewrite E. apply IH.
Qed.

Lemma lookup_delete_prop_ne key key' fields :
  key <> key' ->
  lookup_prop key' (delete_prop key fields) = lookup_prop key' fields.
Proof.
  intros Hne. induction fields as [|[k u] rest IH]; simpl; [done|].
  unfold delete_prop in *. rewrite filter_cons. simpl.
  destruct (String.eqb k key) eqn:E; simpl.
  - apply String.eqb_eq in E. subst k.
    destruct (String.eqb key key') eqn:E'; [|done].
    apply String.eqb_eq in E'. contradiction.
  - destruct (String.eqb k key'); [done|apply IH].
Qed.

Lemma lookup_assign_prop_eq key v fields :
  lookup_prop key (assign_prop key v fields) = Some v.
Proof.
  induction fields as [|[k u] rest IH]; simpl.
  - by rewrite String.eqb_refl.
  - destruct (String.eqb k key) eqn:E; simpl; rewrite E; done.
Qed.

Lemma lookup_assign_prop_ne key key' v fields :
  key <> key' ->
  lookup_prop key' (assign_prop key v fields) = lookup_prop key' fields.
Proof.
  intros Hne. induction fields as [|[k u] rest IH]; simpl.
  - destruct (String.eqb key key') eqn:E'; [|done].
    apply String.eqb_eq in E'. contradiction.
  - destruct (String.eqb k key) eqn:E; simpl.
    + apply String.eqb_eq in E. subst k.
      destruct (String.eqb key key') eqn:E'; [|done].
      apply String.eqb_eq in E'. contradiction.
    + destruct (String.eqb k key'); [done|apply IH].
Qed.


(** ** Decoded values are copied unchanged *)

Lemma value_nested_ind (P : value -> Prop) :
  P VUndef -> P VNull -> (forall b, P (VBool b)) -> (forall n, P (VNum n)) ->
  (forall s, P (VStr s)) ->
  (forall items props,
     Forall P items -> Forall (fun kv => P (snd kv)) props -> P (VArr items props)) ->
  (forall fields, Forall (fun kv => P (snd kv)) fields -> P (VObj fields)) ->
  forall v, P v.
Proof.
  intros Hu Hn Hb Hnum Hs Ha Ho.
  fix IH 1.
  intros [| |b|n|s|items props|fields];
    [apply Hu|apply Hn|apply Hb|apply Hnum|apply Hs| |].
  - apply Ha.
    + induction items as [|x rest IHl]; constructor; [apply IH|apply IHl].
    + induction props as [|[k x] rest IHl]; constructor; [apply IH|apply IHl].
  - apply Ho.
    induction fields as [|[k x] rest IHl]; constructor; [apply IH|apply IHl].
Qed.

Lemma json_copy_id v : is_json v = true -> json_copy v = v.
Proof.
  induction v as [| |b|n|s|items props IHi IHp|fields IHf] using value_nested_ind;
    simpl; intros Hj; try done.
  - by destruct n as [|s|n].
  - apply andb_prop in Hj as [Hi Hp]. destruct props; [|done]. f_equal.
    induction items as [|x rest IHl]; simpl; [done|].
    simpl in Hi. apply andb_prop in Hi as [Hx Hr].
    inversion IHi; subst. f_equal; auto.
  - f_equal. induction fields as [|[k x] rest IHl]; simpl; [done|].
    apply andb_prop in Hj as [Hx Hr]. inversion IHf; subst. simpl in *.
    rewrite IHl by done.
    destruct x; try done; by rewrite H1.
Qed.

(** ** Doubles *)

Lemma scale_pow : scale = (2 ^ 1074)%Z.
Proof. apply Z.shiftl_1_l. Qed.

Lemma scale_pos : (0 < scale)%Z.
Proof. rewrite scale_pow. by apply Z.pow_pos_nonneg. Qed.

Lemma overflow_scale : overflow = (2 ^ 1024 * scale)%Z.
Proof.
  unfold overflow. rewrite Z.shiftl_1_l, scale_pow, <- Z.pow_add_r by lia.
  by f_equal.
Qed.

Lemma spacing_pow m : spacing m = (2 ^ Z.max 0 (Z.log2 m - 52))%Z.
Proof. apply Z.shiftl_1_l. Qed.

Lemma spacing_pos m : (0 < spacing m)%Z.
Proof. rewrite spacing_pow. apply Z.pow_pos_nonneg; lia. Qed.

Lemma round_half_even_multiple a b : (0 < b)%Z -> round_half_even (a * b) b = a.
Proof.
  intros Hb. unfold round_half_even.
  rewrite Z.div_mul, Z.mod_mul by lia.
  assert ((2 * 0 ?= b)%Z = Lt) as -> by (by apply Z.compare_lt_iff).
  done.
Qed.

Lemma round_half_even_cancel a b c :
  (0 < b)%Z -> (0 < c)%Z -> round_half_even (a * c) (b * c) = round_half_even a b.
Proof.
  intros Hb Hc. unfold round_half_even.
  rewrite Z.div_mul_cancel_r, Z.mul_mod_distr_r by lia.
  rewrite Z.mul_assoc, <- Zmult_compare_compat_r by lia. done.
Qed.

(** The Number value depends on the rational only. *)
Lemma number_value_cancel a b c :
  (0 < b)%Z -> (0 < c)%Z -> number_value (a * c) (b * c) = number_value a b.
Proof.
  intros Hb Hc. unfold number_value.
  rewrite (Z.abs_mul a c), (Z.abs_eq c), Z.div_mul_cancel_r by lia.
  pose proof (spacing_pos (Z.abs a / b)) as Hs.
  replace (b * c * spacing (Z.abs a / b))%Z with (b * spacing (Z.abs a / b) * c)%Z by ring.
  rewrite round_half_even_cancel by (try apply Z.mul_pos_pos; done). done.
Qed.

(** A double is its own Number value. *)
Lemma number_value_double n : is_double n = true -> number_value n 1 = Fin n.
Proof.
  unfold is_double. intros [Hlt%Z.ltb_lt Hmod%Z.eqb_eq]%andb_prop.
  unfold number_value. rewrite Z.div_1_r, Z.mul_1_l.
  set (s := spacing (Z.abs n)) in *.
  assert (0 < s)%Z as Hs by apply spacing_pos.
  assert (n = n / s * s)%Z as Hn.
  { pose proof (Z.div_mod n s ltac:(lia)). lia. }
  assert (round_half_even n s = n / s)%Z as ->.
  { rewrite Hn at 1. by apply round_half_even_multiple. }
  rewrite <- Hn.
  assert ((overflow <=? Z.abs n)%Z = false) as -> by (apply Z.leb_gt; lia).
  done.
Qed.

Lemma is_double_Int z : safe z -> is_double (z * scale) = true.
Proof.
  intros Hz. unfold safe in Hz. pose proof scale_pos as Hsc.
  unfold is_double. apply andb_true_intro.
  rewrite (Z.abs_mul z scale), (Z.abs_eq scale) by lia. split.
  - apply Z.ltb_lt. rewrite overflow_scale.
    apply Z.mul_lt_mono_pos_r; [done|].
    apply Z.lt_le_trans with (2 ^ 53)%Z; [change (2 ^ 53)%Z with 9007199254740992%Z; lia|].
    apply Z.pow_le_mono_r; lia.
  - apply Z.eqb_eq. destruct (Z.eq_dec z 0%Z) as [->|Hne].
    { rewrite Z.mul_0_l. apply Zmod_0_l. }
    rewrite spacing_pow, scale_pow.
    rewrite Z.log2_mul_pow2 by lia.
    assert (0 <= Z.log2 (Z.abs z) <= 52)%Z as HL.
    { split; [apply Z.log2_nonneg|].
      assert (Z.log2 (Z.abs z) < 53)%Z; [|lia].
      apply Z.log2_lt_pow2; [lia|].
      change (2 ^ 53)%Z with 9007199254740992%Z. lia. }
    set (L := Z.log2 (Z.abs z)) in *.
    rewrite Z.max_r by lia.
    assert (2 ^ 1074 = 2 ^ (52 - L) * 2 ^ (1074 + L - 52))%Z as ->.
    { rewrite <- Z.pow_add_r by lia. f_equal. lia. }
    rewrite Z.mul_assoc. apply Z.mod_mul.
    assert (0 < 2 ^ (1074 + L - 52))%Z by (apply Z.pow_pos_nonneg; lia). lia.
Qed.

Lemma number_value_Int z : safe z -> number_value (z * scale) 1 = Int z.
Proof. intros Hz. by apply number_value_double, is_double_Int. Qed.

Lemma num_add_Int x y : safe (x + y) -> num_add (Int x) (Int y) = Int (x + y).
Proof.
  intros Hs. unfold num_add, Int.
  rewrite <- Z.mul_add_distr_r. by apply number_value_Int.
Qed.

Lemma num_sub_Int x y : safe (x - y) -> num_sub (Int x) (Int y) = Int (x - y).
Proof.
  intros Hs. unfold num_sub, num_add, Int, num_neg.
  rewrite <- Z.mul_opp_l, <- Z.mul_add_distr_r. by apply number_value_Int.
Qed.

Lemma num_mul_Int x y : safe (x * y) -> num_mul (Int x) (Int y) = Int (x * y).
Proof.
  intros Hs. unfold num_mul, Int. pose proof scale_pos.
  replace (x * scale * (y * scale))%Z with (x * y * scale * scale)%Z by ring.
  rewrite <- (Z.mul_1_l scale) at 3.
  rewrite number_value_cancel by lia. by apply number_value_Int.
Qed.

Lemma num_leb_Int x y : num_leb (Int x) (Int y) = (x <=? y)%Z.
Proof.
  unfold num_leb, Int. pose proof scale_pos.
  destruct (Z.leb_spec x y), (Z.leb_spec (x * scale) (y * scale)); try done; nia.
Qed.

Lemma num_ltb_Int x y : num_ltb (Int x) (Int y) = (x <? y)%Z.
Proof.
  unfold num_ltb, Int. pose proof scale_pos.
  destruct (Z.ltb_spec x y), (Z.ltb_spec (x * scale) (y * scale)); try done; nia.
Qed.

Lemma num_leb_ltb a : num_ltb (Int 0) a = true -> num_leb a (Int 0) = false.
Proof.
  unfold num_ltb, num_leb, Int. destruct a as [|s|n]; try done.
  - by destruct s.
  - intros Hlt%Z.ltb_lt. apply Z.leb_gt. lia.
Qed.

Lemma truthy_Int z : truthy (VNum (Int z)) = negb (z =? 0)%Z.
Proof.
  unfold Int. simpl. pose proof scale_pos. f_equal.
  destruct (Z.eqb_spec z 0), (Z.eqb_spec (z * scale) 0); try done; nia.
Qed.

Lemma ceil_div_spec a b :
  (0 < b)%Z -> ((ceil_div a b - 1) * b < a <= ceil_div a b * b)%Z.
Proof.
  intros Hb. unfold ceil_div.
  pose proof (Z.div_mod (- a) b) as Hdm.
  pose proof (Z.mod_pos_bound (- a) b Hb) as Hm. nia.
Qed.

Lemma ceil_div_unique a b c :
  (0 < b)%Z -> ((c - 1) * b < a <= c * b)%Z -> ceil_div a b = c.
Proof.
  intros Hb Hc. unfold ceil_div.
  assert (- a / b = - c)%Z as ->; [|lia].
  symmetry. apply (Z.div_unique (- a) b (- c) (c * b - a)); lia.
Qed.

Lemma ceil_div_multiple a b : (0 < b)%Z -> ceil_div (a * b) b = a.
Proof. intros Hb. apply ceil_div_unique; [done|lia]. Qed.

Lemma num_ceil_Int z : num_ceil (Int z) = Int z.
Proof.
  unfold num_ceil, Int. by rewrite ceil_div_multiple by apply scale_pos.
Qed.

(** The quotient of two safe integers, as a double, lies between the
    integers around the exact quotient and is not the lower one unless the
    division is exact. *)
Lemma div_value x y :
  safe x -> (0 < y)%Z -> safe y ->
  exists n,
    number_value (x * scale) y = Fin n /\
    ((ceil_div x y - 1) * scale < n <= ceil_div x y * scale)%Z.
Proof.
  intros Hx Hy Hys. unfold safe in *. pose proof scale_pos as Hsc.
  pose proof (Z.div_mod x y ltac:(lia)) as Hdm.
  pose proof (Z.mod_pos_bound x y Hy) as Hr.
  set (q := (x / y)%Z) in *. set (r := (x mod y)%Z) in *.
  assert (- 9007199254740992 <= q < 9007199254740992)%Z as Hq by nia.
  destruct (Z.eq_dec r 0%Z) as [Hr0|Hr0].
  - assert (ceil_div x y = q) as -> by (apply ceil_div_unique; [done|lia]).
    exists (q * scale)%Z. split; [|lia].
    replace (x * scale)%Z with (q * scale * y)%Z by (rewrite Hdm, Hr0; ring).
    rewrite <- (Z.mul_1_l y) at 2.
    rewrite number_value_cancel by lia.
    apply number_value_Int. unfold safe.
    split; [|lia]. destruct (Z.eq_dec q (- 9007199254740992)%Z); [|lia]. nia.
  - assert (ceil_div x y = q + 1)%Z as -> by (apply ceil_div_unique; [done|lia]).
    replace (q + 1 - 1)%Z with q by lia.
    unfold number_value.
    set (m := (Z.abs (x * scale) / y)%Z).
    assert (0 <= m < 2 ^ 53 * scale)%Z as Hm.
    { unfold m. split; [apply Z.div_pos; lia|].
      apply Z.div_lt_upper_bound; [done|].
      rewrite (Z.abs_mul x scale), (Z.abs_eq scale) by lia.
      change (2 ^ 53)%Z with 9007199254740992%Z. nia. }
    assert (exists e, (0 <= e <= 1074)%Z /\ spacing m = (2 ^ e)%Z /\
                      (e = 0 \/ 2 ^ e * 2 ^ 52 <= m)%Z) as (e & He & Hs & Hem).
    { exists (Z.max 0 (Z.log2 m - 52)). rewrite spacing_pow.
      assert (Z.log2 m < 1127)%Z as Hlog.
      { destruct (Z.eq_dec m 0%Z) as [->|Hm0]; [done|].
        apply Z.log2_lt_pow2; [lia|].
        replace 1127%Z with (53 + 1074)%Z by done.
        rewrite Z.pow_add_r, <- scale_pow by lia. lia. }
      pose proof (Z.log2_nonneg m).
      split; [lia|]. split; [done|].
      destruct (Z.le_gt_cases (Z.log2 m) 52%Z) as [Hle|Hgt]; [left; lia|right].
      rewrite Z.max_r by lia. rewrite <- Z.pow_add_r by lia.
      replace (Z.log2 m - 52 + 52)%Z with (Z.log2 m) by lia.
      apply Z.log2_spec. destruct (Z.eq_dec m 0%Z) as [Hm0|Hm0]; [|lia].
      rewrite Hm0 in Hgt. done. }
    rewrite Hs. set (s := (2 ^ e)%Z) in *.
    assert (0 < s)%Z as Hspos by (apply Z.pow_pos_nonneg; lia).
    set (M := (2 ^ (1074 - e))%Z).
    assert (0 < M)%Z as HMpos by (apply Z.pow_pos_nonneg; lia).
    assert (scale = M * s)%Z as Hscale.
    { rewrite scale_pow. unfold M, s. rewrite <- Z.pow_add_r by lia. f_equal. lia. }
    assert (y < 2 * M)%Z as HyM.
    { destruct Hem as [->|Hem].
      - unfold M. replace (1074 - 0)%Z with 1074%Z by lia. rewrite <- scale_pow.
        assert (2 ^ 53 <= scale)%Z; [|change (2 ^ 53)%Z with 9007199254740992%Z in *; lia].
        rewrite scale_pow. apply Z.pow_le_mono_r; lia.
      - assert (s * 2 ^ 52 * y <= Z.abs (x * scale))%Z as Hle.
        { transitivity (m * y)%Z; [nia|].
          unfold m. rewrite Z.mul_comm. apply Z.mul_div_le. done. }
        rewrite (Z.abs_mul x scale), (Z.abs_eq scale), Hscale in Hle by lia.
        change (2 ^ 52)%Z with 4503599627370496%Z in Hle.
        assert (Z.abs x < 9007199254740992)%Z by lia. nia. }
    assert (round_half_even (x * scale) (y * s) = round_half_even (x * M) y) as ->.
    { rewrite Hscale, Z.mul_assoc. by apply round_half_even_cancel. }
    assert (q * M < round_half_even (x * M) y <= (q + 1) * M)%Z as Hk.
    { unfold round_half_even.
      assert (x * M = q * M * y + r * M)%Z as -> by (rewrite Hdm; ring).
      rewrite Z.div_add_l by lia.
      rewrite (Z.add_comm (q * M * y)), Z.mod_add by lia.
      pose proof (Z.div_mod (r * M) y ltac:(lia)) as Hdm'.
      pose proof (Z.mod_pos_bound (r * M) y Hy) as Hr'.
      set (f := (r * M / y)%Z) in *. set (rho := (r * M mod y)%Z) in *.
      assert (0 <= f < M)%Z as Hf by nia.
      destruct (Z.compare_spec (2 * rho)%Z y) as [Heq|Hlt|Hgt].
      - assert (1 <= f)%Z by nia. destruct (Z.even (q * M + f)); lia.
      - assert (1 <= f)%Z by nia. lia.
      - lia. }
    set (k := round_half_even (x * M) y) in *.
    exists (k * s)%Z.
    assert (q * scale < k * s <= (q + 1) * scale)%Z as Hn by (rewrite Hscale; nia).
    split; [|done].
    assert ((overflow <=? Z.abs (k * s))%Z = false) as ->; [|done].
    apply Z.leb_gt. rewrite overflow_scale.
    assert (9007199254740992 * scale <= 2 ^ 1024 * scale)%Z.
    { apply Z.mul_le_mono_nonneg_r; [lia|].
      change 9007199254740992%Z with (2 ^ 53)%Z. apply Z.pow_le_mono_r; lia. }
    apply Z.abs_lt. nia.
Qed.

Lemma num_ceil_div_Int x y :
  safe x -> (0 < y)%Z -> safe y ->
  num_ceil (num_div (Int x) (Int y)) = Int (ceil_div x y).
Proof.
  intros Hx Hy Hys. pose proof scale_pos as Hsc.
  unfold num_div, Int.
  assert ((y * scale =? 0)%Z = false) as -> by (apply Z.eqb_neq; nia).
  rewrite Z.sgn_pos, Z.abs_eq, Z.mul_1_l by nia.
  rewrite number_value_cancel by lia.
  destruct (div_value x y Hx Hy Hys) as (n & -> & Hn).
  unfold num_ceil. do 2 f_equal. by apply ceil_div_unique.
Qed.

(** The turns of the loop, for a counter that has not passed the greatest
    array length. *)
Lemma turn_count_nonneg cycles : (0 <= V8.turn_count cycles <= max_length + 1)%Z.
Proof.
  unfold V8.turn_count, max_length. destruct cycles as [|[|]|n]; lia.
Qed.

Lemma ltb_turn_count k cycles :
  (0 <= k <= max_length)%Z ->
  num_ltb (Int k) cycles = (k <? V8.turn_count cycles)%Z.
Proof.
  intros Hk. unfold max_length in Hk. pose proof scale_pos as Hsc.
  unfold num_ltb, V8.turn_count, Int, max_length.
  destruct cycles as [|[|]|n]; simpl.
  - symmetry. apply Z.ltb_ge. lia.
  - symmetry. apply Z.ltb_ge. lia.
  - symmetry. apply Z.ltb_lt. lia.
  - pose proof (ceil_div_spec n scale Hsc) as Hc.
    destruct (Z.ltb_spec (k * scale) n), (Z.ltb_spec k (Z.max 0 (Z.min (ceil_div n scale) (4294967295 + 1))));
      try done; nia.
Qed.

Lemma turn_count_Int c :
  (0 <= c <= max_length + 1)%Z -> V8.turn_count (Int c) = c.
Proof.
  intros Hc. unfold V8.turn_count, Int.
  rewrite ceil_div_multiple by apply scale_pos. lia.
Qed.

Lemma counter_step k : (0 <= k <= max_length)%Z -> num_add (Int k) (Int 1) = Int (k + 1).
Proof. intros Hk. apply num_add_Int. unfold safe, max_length in *. lia. Qed.

Lemma Int_inj x y : Int x = Int y -> x = y.
Proof. unfold Int. intros [= Heq]. pose proof scale_pos. nia. Qed.

Lemma num_leb_trans a b c :
  num_leb a b = true -> num_leb b c = true -> num_leb a c = true.
Proof.
  unfold num_leb.
  destruct a as [|[|]|x], b as [|[|]|y], c as [|[|]|z]; simpl; try done.
  rewrite !Z.leb_le. lia.
Qed.

Lemma num_sub_NaN a b : a = NaN \/ b = NaN -> num_sub a b = NaN.
Proof. intros [-> | ->]; [done|]. by destruct a. Qed.

Lemma cycles_NaN dur : num_add (num_ceil (num_div dur NaN)) (Int 1) = NaN.
Proof. by destruct dur. Qed.

(** ** The loops of the expansion on keyframes of the data model *)

Lemma is_keyframe_inv kf :
  is_keyframe kf = true ->
  exists fields t,
    kf = VObj fields /\ lookup_prop "t" fields = Some (VNum t) /\
    is_json kf = true /\ time_of kf = Some t.
Proof.
  destruct kf as [| |b|n|s|items props|fields]; try done.
  unfold is_keyframe. intros [Hj Ht]%andb_prop.
  apply bool_decide_eq_true in Ht as [t Ht].
  exists fields, t. repeat split; try done.
  unfold time_of, field in Ht. simpl in Ht.
  destruct (lookup_prop "t" fields) as [[| |b|n|s|i p|f]|]; simpl in Ht; try done.
  by inversion Ht.
Qed.

Lemma time_of_shifted d kf t :
  time_of kf = Some t -> is_keyframe kf = true ->
  time_of (shifted d kf) = Some (num_add t d).
Proof.
  intros Ht (fields & t' & -> & Hl & _ & Ht')%is_keyframe_inv.
  unfold shifted. rewrite Ht. unfold time_of, field. simpl.
  by rewrite lookup_assign_prop_eq.
Qed.

Lemma push_length E x E' :
  push E x = Ok E' -> E' = E ++ [x] /\ (Z.of_nat (length E') <= max_length)%Z.
Proof.
  unfold push. destruct (Z.ltb_spec (Z.of_nat (length E)) max_length); [|done].
  intros [= <-]. split; [done|]. rewrite length_app. simpl. lia.
Qed.

Section ExpandLoops.
Context {B : Builtins}.

Lemma copy_keyframe_shifted off kf :
  is_keyframe kf = true -> V8.copy_keyframe off kf = Ok (shifted off kf).
Proof.
  intros (fields & t & -> & Hl & Hj & Ht)%is_keyframe_inv.
  unfold V8.copy_keyframe, json_clone. rewrite (json_copy_id _ Hj).
  unfold shifted. rewrite Ht. simpl. rewrite Hl. done.
Qed.

Lemma copies_shifted off kfs :
  Forall (fun kf => is_keyframe kf = true) kfs ->
  Forall2 (fun kf c => V8.copy_keyframe off kf = Ok c) kfs (map (shifted off) kfs).
Proof.
  induction 1 as [|kf rest Hkf _ IH]; simpl; constructor; [|done].
  by apply copy_keyframe_shifted.
Qed.

(** One turn of the loop: the copies are appended when they fit. *)
Lemma push_copies_spec off kfs copies E :
  Forall2 (fun kf c => V8.copy_keyframe off kf = Ok c) kfs copies ->
  (Z.of_nat (length E) <= max_length)%Z ->
  V8.push_copies off kfs E
  = if (Z.of_nat (length E + length kfs) <=? max_length)%Z then Ok (E ++ copies)
    else Err RangeError.
Proof.
  intros Hc. revert E.
  induction Hc as [|kf c rest copies Hkf _ IH]; intros E HE; simpl.
  - rewrite Nat.add_0_r, app_nil_r.
    by destruct (Z.leb_spec (Z.of_nat (length E)) max_length); [|lia].
  - rewrite Hkf. simpl. unfold push.
    destruct (Z.ltb_spec (Z.of_nat (length E)) max_length) as [Hlt|Hge]; simpl.
    + rewrite IH by (rewrite length_app; simpl; lia).
      rewrite length_app, <- app_assoc. simpl.
      by replace (length E + 1 + length rest) with (length E + S (length rest)) by lia.
    + by destruct (Z.leb_spec (Z.of_nat (length E + S (length rest))) max_length); [lia|].
Qed.

Lemma push_copies_length off kfs E E' :
  V8.push_copies off kfs E = Ok E' ->
  length E' = length E + length kfs /\
  (kfs <> [] -> (Z.of_nat (length E') <= max_length)%Z).
Proof.
  revert E. induction kfs as [|kf rest IH]; intros E; simpl.
  - intros [= <-]. split; [lia|done].
  - destruct (V8.copy_keyframe off kf) as [c|]; simpl; [|done].
    destruct (push E c) as [E1|] eqn:Hp; simpl; [|done].
    apply push_length in Hp as [-> Hmax]. intros Hrun.
    destruct (IH _ Hrun) as [Hlen Hb]. rewrite length_app in Hlen. simpl in Hlen.
    split; [lia|]. intros _. destruct rest as [|kf' rest'].
    + simpl in Hrun. by injection Hrun as <-.
    + by apply Hb.
Qed.

(** The loop on keyframes of the data model: [turns] copies of the
    keyframes when they fit an array, a [RangeError] when they do not. *)
Lemma cycle_loop_unrolled cycles cd kfs fuel k E :
  Forall (fun kf => is_keyframe kf = true) kfs -> kfs <> [] ->
  (0 <= k)%Z -> (Z.of_nat fuel + k = V8.turn_count cycles)%Z ->
  Z.of_nat (length E) = (k * Z.of_nat (length kfs))%Z ->
  (Z.of_nat (length E) <= max_length)%Z ->
  V8.cycle_loop fuel (Int k) cycles cd kfs E
  = if (V8.turn_count cycles * Z.of_nat (length kfs) <=? max_length)%Z
    then Ok (E ++ unrolled fuel k cd kfs) else Err RangeError.
Proof.
  intros Hk Hne.
  assert (1 <= Z.of_nat (length kfs))%Z as Hlen by (destruct kfs; simpl; [done|lia]).
  revert k E. induction fuel as [|fuel IH]; intros k E Hk0 HT HE Hmax;
    assert (k <= max_length)%Z as Hkm by nia;
    cbn [V8.cycle_loop]; rewrite ltb_turn_count by lia.
  - assert ((k <? V8.turn_count cycles)%Z = false) as -> by (apply Z.ltb_ge; lia).
    simpl. rewrite app_nil_r.
    by destruct (Z.leb_spec (V8.turn_count cycles * Z.of_nat (length kfs)) max_length);
      [|nia].
  - assert ((k <? V8.turn_count cycles)%Z = true) as -> by (apply Z.ltb_lt; lia).
    rewrite (push_copies_spec _ _ _ _ (copies_shifted _ _ Hk) Hmax).
    destruct (Z.leb_spec (Z.of_nat (length E + length kfs)) max_length) as [Hfit|Hover];
      simpl.
    + rewrite counter_step by lia.
      rewrite IH; [|lia|lia|rewrite length_app, length_map; lia
                   |rewrite length_app, length_map; lia].
      by rewrite <- app_assoc.
    + by destruct (Z.leb_spec (V8.turn_count cycles * Z.of_nat (length kfs)) max_length);
        [nia|].
Qed.

(** [cycle_loop] with [turns cycles] of fuel computes the result of the
    [for] statement: the loop ends by its test or by an exception before the
    fuel is used up. *)
Lemma cycle_loop_runs cycles cd kfs fuel k E :
  kfs <> [] ->
  (0 <= k <= Z.of_nat (length E))%Z -> (Z.of_nat (length E) <= max_length)%Z ->
  (V8.turn_count cycles <= Z.of_nat fuel + k)%Z ->
  loop_runs cycles cd kfs (Int k) E (V8.cycle_loop fuel (Int k) cycles cd kfs E).
Proof.
  intros Hne. revert k E. induction fuel as [|fuel IH]; intros k E Hk Hmax HT;
    cbn [V8.cycle_loop];
    destruct (num_ltb (Int k) cycles) eqn:Hlt; try (by apply loop_exit).
  - rewrite ltb_turn_count in Hlt by lia. apply Z.ltb_lt in Hlt.
    pose proof (turn_count_nonneg cycles). lia.
  - destruct (V8.push_copies (num_mul (Int k) cd) kfs E) as [E'|e] eqn:Hp; simpl.
    + destruct (push_copies_length _ _ _ _ Hp) as [Hlen Hb]. specialize (Hb Hne).
      assert (1 <= length kfs) by (destruct kfs; simpl; [done|lia]).
      eapply loop_turn; [done|done|].
      rewrite counter_step by lia. apply IH; lia.
    + by apply loop_throw.
Qed.

Lemma loop_runs_det cycles cd kfs c E r r' :
  loop_runs cycles cd kfs c E r -> loop_runs cycles cd kfs c E r' -> r = r'.
Proof.
  intros Hr. revert r'.
  induction Hr as [c E Hc|c E e Hc Hp|c E E' r Hc Hp _ IH]; intros r' Hr';
    inversion Hr'; subst; try congruence.
  apply IH. congruence.
Qed.

End ExpandLoops.

(** ** The unrolled sequence *)

Lemma length_unrolled n c cycleDur kfs :
  length (unrolled n c cycleDur kfs) = n * length kfs.
Proof.
  revert c. induction n as [|n IH]; intros c; simpl; [done|].
  rewrite length_app, length_map, IH. done.
Qed.

Lemma lookup_unrolled n c cycleDur kfs j i kf :
  j < n -> kfs !! i = Some kf ->
  unrolled n c cycleDur kfs !! (j * length kfs + i)
  = Some (shifted (num_mul (Int (c + Z.of_nat j)) cycleDur) kf).
Proof.
  revert c j. induction n as [|n IH]; intros c j Hj Hi; [lia|].
  simpl. destruct j as [|j].
  - simpl. rewrite lookup_app_l.
    + rewrite list_lookup_fmap, Hi. simpl.
      by replace (c + Z.of_nat 0)%Z with c by lia.
    + rewrite length_map. by apply lookup_lt_Some in Hi.
  - rewrite lookup_app_r; rewrite length_map; [|lia].
    replace (S j * length kfs + i - length kfs) with (j * length kfs + i) by lia.
    rewrite (IH (c + 1)%Z j) by (done || lia).
    by replace (c + 1 + Z.of_nat j)%Z with (c + Z.of_nat (S j))%Z by lia.
Qed.

Lemma Sorted_app {A} (R : A -> A -> Prop) (l1 l2 : list A) :
  Sorted R l1 -> Sorted R l2 ->
  (forall a b, last l1 = Some a -> head l2 = Some b -> R a b) ->
  Sorted R (l1 ++ l2).
Proof.
  intros H1 H2 Hb. induction l1 as [|x l1 IH]; simpl; [done|].
  inversion H1 as [|? ? Hs Hh]; subst. constructor.
  - apply IH; [done|]. intros a b Ha. apply Hb.
    rewrite last_cons, Ha. done.
  - destruct l1 as [|y l1]; simpl.
    + destruct l2 as [|z l2]; constructor. by apply Hb.
    + inversion Hh; subst. by constructor.
Qed.

Lemma head_unrolled n c cycleDur kfs :
  kfs <> [] ->
  head (unrolled (S n) c cycleDur kfs)
  = shifted (num_mul (Int c) cycleDur) <$> head kfs.
Proof. intros Hne. simpl. by destruct kfs. Qed.

Lemma last_unrolled n c cycleDur kfs :
  kfs <> [] ->
  last (unrolled (S n) c cycleDur kfs)
  = shifted (num_mul (Int (c + Z.of_nat n)) cycleDur) <$> last kfs.
Proof.
  intros Hne. revert c. induction n as [|n IH]; intros c.
  - simpl. rewrite app_nil_r.
    change (map ?f ?l) with (f <$> l). rewrite fmap_last.
    by replace (c + Z.of_nat 0)%Z with c by lia.
  - change (unrolled (S (S n)) c cycleDur kfs)
      with (map (shifted (num_mul (Int c) cycleDur)) kfs
            ++ unrolled (S n) (c + 1) cycleDur kfs).
    rewrite last_app, IH.
    destruct (last kfs) as [kfn|] eqn:El.
    + simpl. by replace (c + 1 + Z.of_nat n)%Z with (c + Z.of_nat (S n))%Z by lia.
    + by apply last_None in El.
Qed.

Lemma elem_of_unrolled n c cycleDur kfs kf' :
  kf' ∈ unrolled n c cycleDur kfs ->
  exists j kf, j < n /\ kf ∈ kfs /\
               kf' = shifted (num_mul (Int (c + Z.of_nat j)) cycleDur) kf.
Proof.
  revert c. induction n as [|n IH]; intros c Hin; simpl in Hin.
  - by apply elem_of_nil in Hin.
  - apply elem_of_app in Hin as [Hin|Hin].
    + change (map ?f ?l) with (f <$> l) in Hin.
      apply list_elem_of_fmap in Hin as (kf & -> & Hkf).
      exists 0, kf. split; [lia|]. split; [done|].
      by replace (c + Z.of_nat 0)%Z with c by lia.
    + destruct (IH _ Hin) as (j & kf & Hj & Hkf & ->).
      exists (S j), kf. split; [lia|]. split; [done|].
      by replace (c + 1 + Z.of_nat j)%Z with (c + Z.of_nat (S j))%Z by lia.
Qed.

(** ** Integer frame numbers *)

Lemma time_le_trans a b c : time_le a b -> time_le b c -> time_le a c.
Proof.
  unfold time_le.
  destruct (time_of a), (time_of b), (time_of c); try done. apply num_leb_trans.
Qed.

Lemma ascending_bounds kfs t0 tn :
  Forall (fun kf => exists t, time_of kf = Some (Int t)) kfs ->
  ascending kfs ->
  head kfs ≫= time_of = Some (Int t0) -> last kfs ≫= time_of = Some (Int tn) ->
  forall kf, kf ∈ kfs -> exists t, time_of kf = Some (Int t) /\ (t0 <= t <= tn)%Z.
Proof.
  intros Hk Hasc.
  assert (StronglySorted time_le kfs) as Hs.
  { apply Sorted_StronglySorted; [|done]. intros a b c. apply time_le_trans. }
  clear Hasc. revert t0.
  induction Hs as [|x rest Hs IH Hall]; intros t0 H0 Hn kf Hin.
  - by apply elem_of_nil in Hin.
  - inversion Hk as [|? ? Hx Hrest]; subst. simpl in H0.
    assert (forall y, y ∈ rest ->
              exists t, time_of y = Some (Int t) /\ (t0 <= t)%Z) as Hlow.
    { intros y Hy. pose proof (proj1 (Forall_forall _ _) Hall y Hy) as Hle.
      destruct (proj1 (Forall_forall _ _) Hrest y Hy) as [t Ht].
      unfold time_le in Hle. rewrite H0, Ht, num_leb_Int in Hle.
      exists t. split; [done|]. by apply Z.leb_le. }
    destruct rest as [|y rest'].
    + apply list_elem_of_singleton in Hin as ->. simpl in Hn.
      exists t0. split; [done|]. rewrite H0 in Hn.
      assert (t0 = tn) by (apply Int_inj; congruence). lia.
    + rewrite last_cons_cons in Hn.
      destruct (Hlow y) as (ty & Hty & Hle0); [by left|].
      pose proof (IH Hrest ty Hty Hn) as Hrestb.
      apply elem_of_cons in Hin as [->|Hin].
      * exists t0. split; [done|].
        destruct (Hrestb y) as (ty' & Hty' & Hb); [by left|].
        rewrite Hty in Hty'.
        assert (ty = ty') by (apply Int_inj; congruence). lia.
      * destruct (Hrestb kf Hin) as (t & Ht & Hb).
        exists t. split; [done|]. lia.
Qed.

Lemma ascending_shifted_int d kfs t0 tn :
  Forall (fun kf => is_keyframe kf = true) kfs ->
  (forall kf, kf ∈ kfs -> exists t, time_of kf = Some (Int t) /\ (t0 <= t <= tn)%Z) ->
  safe (t0 + d) -> safe (tn + d) ->
  ascending kfs -> ascending (map (shifted (Int d)) kfs).
Proof.
  unfold ascending. intros Hk Hb Hs0 Hsn Hs.
  induction Hs as [|kf rest Hs IH Hh]; simpl; constructor.
  - apply IH; [by inversion Hk|]. intros kf' Hin. apply Hb. by right.
  - inversion Hk as [|? ? Hkf Hrest]; subst.
    destruct Hh as [|kf' rest' Hle]; simpl; constructor.
    inversion Hrest as [|? ? Hkf' _]; subst.
    destruct (Hb kf) as (t & Ht & Hbt); [by left|].
    destruct (Hb kf') as (t' & Ht' & Hbt'); [right; by left|].
    unfold time_le in *. rewrite Ht, Ht', num_leb_Int in Hle.
    apply Z.leb_le in Hle.
    rewrite (time_of_shifted _ _ _ Ht Hkf), (time_of_shifted _ _ _ Ht' Hkf').
    rewrite !num_add_Int by (unfold safe in *; lia).
    rewrite num_leb_Int. apply Z.leb_le. lia.
Qed.

Lemma ascending_unrolled_int n c kfs t0 tn :
  Forall (fun kf => is_keyframe kf = true) kfs ->
  (forall kf, kf ∈ kfs -> exists t, time_of kf = Some (Int t) /\ (t0 <= t <= tn)%Z) ->
  ascending kfs ->
  head kfs ≫= time_of = Some (Int t0) -> last kfs ≫= time_of = Some (Int tn) ->
  (0 < tn - t0)%Z -> (0 <= c)%Z -> safe t0 ->
  safe ((c + Z.of_nat n) * (tn - t0)) -> safe (tn + (c + Z.of_nat n) * (tn - t0)) ->
  ascending (unrolled n c (Int (tn - t0)) kfs).
Proof.
  intros Hk Hb Hs H0 Hn Hpos. revert c.
  induction n as [|n IH]; intros c Hc Hs0 Hsc Hsn; [constructor|].
  assert (safe (c * (tn - t0)) /\ safe ((c + 1) * (tn - t0)) /\
          safe (t0 + c * (tn - t0)) /\ safe (tn + c * (tn - t0)) /\
          safe (t0 + (c + 1) * (tn - t0))) as (S1 & S2 & S3 & S4 & S5)
    by (unfold safe in *; nia).
  simpl. rewrite (num_mul_Int _ _ S1).
  apply Sorted_app.
  - by apply (ascending_shifted_int _ _ t0 tn).
  - apply IH; [lia|done| |].
    + by replace (c + 1 + Z.of_nat n)%Z with (c + Z.of_nat (S n))%Z by lia.
    + by replace (c + 1 + Z.of_nat n)%Z with (c + Z.of_nat (S n))%Z by lia.
  - intros a b Ha Hb'.
    destruct n as [|n]; [done|].
    assert (kfs <> []) as Hne by (intros ->; done).
    rewrite head_unrolled in Hb' by done.
    rewrite (num_mul_Int _ _ S2) in Hb'.
    change (map (shifted (Int (c * (tn - t0)))) kfs)
      with (shifted (Int (c * (tn - t0))) <$> kfs) in Ha.
    rewrite fmap_last in Ha.
    destruct (head kfs) as [kf0|] eqn:Eh; [|done].
    destruct (last kfs) as [kfn|] eqn:El; [|done].
    simpl in *. inversion Ha; inversion Hb'; subst a b.
    assert (is_keyframe kf0 = true) as Hk0.
    { apply head_Some_elem_of in Eh. by apply (proj1 (Forall_forall _ _) Hk). }
    assert (is_keyframe kfn = true) as Hkn.
    { apply last_Some_elem_of in El. by apply (proj1 (Forall_forall _ _) Hk). }
    unfold time_le.
    rewrite (time_of_shifted _ _ _ Hn Hkn), (time_of_shifted _ _ _ H0 Hk0).
    rewrite (num_add_Int _ _ S4), (num_add_Int _ _ S5), num_leb_Int.
    apply Z.leb_le. lia.
Qed.

(** ** The callback on an eligible layer *)

Lemma get_field v key w key' : get v key = Ok w -> get v key' = Ok (field v key').
Proof. unfold field. by destruct v. Qed.

Lemma get_keyframe_time kf t :
  is_keyframe kf = true -> time_of kf = Some t -> get kf "t" = Ok (VNum t).
Proof.
  intros (fields & t' & -> & Hl & _ & Ht)%is_keyframe_inv Ht'.
  simpl. rewrite Hl. simpl. congruence.
Qed.

Lemma str_includes_nonempty sub s :
  sub <> "" -> str_includes sub s = true -> s <> "".
Proof. intros Hne Hi ->. destruct sub; [done|]. simpl in Hi. done. Qed.

Lemma get_store_back v key w w' :
  get v key = Ok w -> w <> VUndef -> get (store_back v key w') key = Ok w'.
Proof.
  destruct v as [| |b|n|s|items props|fields]; simpl; try done;
    intros [= <-] Hw; try done; rewrite lookup_replace_prop_eq;
    by destruct (lookup_prop key _).
Qed.

Section ExpandLayer.
Context {B : Builtins}.

Lemma frame_or_ToNumber dflt v n :
  frame_or dflt v = Some n -> ToNumber (or_else v (VNum (Int dflt))) = Ok n.
Proof.
  unfold frame_or, or_else. destruct (truthy v) eqn:Ht.
  - destruct v as [| |b|m|s|items props|fields]; try done. by intros [= ->].
  - by intros [= <-].
Qed.

Lemma cycle_plan_eligible layer tm kfs cycleDur dur :
  eligible layer tm kfs cycleDur dur ->
  V8.cycle_plan layer
  = Ok (Some (tm, kfs, cycleDur, num_add (num_ceil (num_div dur cycleDur)) (Int 1))).
Proof.
  intros [Htm (s & Hx & Hm) (props & Hk) Hlen Hkfs
            (t0 & tn & H0 & Hn & -> & Hpos) (op & ip & Hop & Hip & ->)].
  unfold V8.cycle_plan. rewrite Htm. simpl.
  assert (truthy tm = true) as -> by (by destruct tm).
  simpl. rewrite Hx. simpl.
  assert (s <> "") as Hs by (by apply (str_includes_nonempty "loopOut")).
  assert (String.eqb s "" = false) as -> by (by apply String.eqb_neq).
  simpl. rewrite Hm. simpl. rewrite Hk. simpl.
  assert ((length kfs <? 2)%nat = false) as -> by (apply Nat.ltb_ge; lia).
  rewrite !nth_lookup.
  replace (length kfs - 1) with (pred (length kfs)) by lia.
  rewrite <- last_lookup, <- head_lookup.
  destruct (head kfs) as [kf0|] eqn:Eh; [|done].
  destruct (last kfs) as [kfn|] eqn:El; [|done].
  simpl in H0, Hn. simpl.
  assert (is_keyframe kf0 = true) as Hk0.
  { apply head_Some_elem_of in Eh. by apply (proj1 (Forall_forall _ _) Hkfs). }
  assert (is_keyframe kfn = true) as Hkn.
  { apply last_Some_elem_of in El. by apply (proj1 (Forall_forall _ _) Hkfs). }
  rewrite (get_keyframe_time _ _ Hkn Hn). simpl.
  rewrite (get_keyframe_time _ _ Hk0 H0). simpl.
  unfold js_sub at 1. simpl. rewrite (num_leb_ltb _ Hpos).
  rewrite (get_field _ _ _ "op" Htm). simpl.
  rewrite (get_field _ _ _ "ip" Htm). simpl.
  unfold js_sub.
  rewrite (frame_or_ToNumber _ _ _ Hop). simpl.
  rewrite (frame_or_ToNumber _ _ _ Hip). simpl. done.
Qed.

(** An eligible layer, whatever its numbers: the expansion when the copies
    fit an array, a [RangeError] and no change when they do not. *)
Lemma walk_layer_eligible layer tm kfs cycleDur dur :
  eligible layer tm kfs cycleDur dur ->
  if (V8.turn_count (num_add (num_ceil (num_div dur cycleDur)) (Int 1))
      * Z.of_nat (length kfs) <=? max_length)%Z
  then
    exists tm',
      V8.walk_layer layer = (store_back layer "tm" tm', Normal) /\
      get (store_back layer "tm" tm') "tm" = Ok tm' /\
      get tm' "x" = Ok VUndef /\
      get tm' "k"
      = Ok (VArr (unrolled (V8.turns (num_add (num_ceil (num_div dur cycleDur)) (Int 1)))
                    0 cycleDur kfs) [])
  else V8.walk_layer layer = (layer, Thrown RangeError).
Proof.
  intros He. pose proof (cycle_plan_eligible _ _ _ _ _ He) as Hplan.
  destruct He as [Htm (s & Hx & _) _ Hlen Hkfs _ _].
  set (cycles := num_add (num_ceil (num_div dur cycleDur)) (Int 1)) in *.
  assert (kfs <> []) as Hne by (intros ->; simpl in Hlen; lia).
  pose proof (turn_count_nonneg cycles) as HT.
  pose proof (cycle_loop_unrolled cycles cycleDur kfs (V8.turns cycles) 0 []
                Hkfs Hne) as Hloop.
  unfold V8.walk_layer, V8.expanded_tm. rewrite Hplan. simpl.
  rewrite Hloop; [|lia|unfold V8.turns; lia|simpl; lia|simpl; unfold max_length; lia].
  destruct (Z.leb_spec (V8.turn_count cycles * Z.of_nat (length kfs)) max_length);
    simpl; [|done].
  assert (exists tm1,
            set tm "k" (VArr (unrolled (V8.turns cycles) 0 cycleDur kfs) []) = Ok tm1)
    as [tm1 Hset].
  { destruct tm; try done; eexists; reflexivity. }
  rewrite Hset. simpl. exists (delete tm1 "x"). split; [done|]. split.
  - eapply get_store_back; [done|]. intros ->. done.
  - destruct tm as [| |b|n|s'|items props|fields]; try done;
      injection Hset as <-; simpl;
      rewrite lookup_delete_prop_eq, lookup_delete_prop_ne by done;
      by rewrite lookup_assign_prop_eq.
Qed.

(** The numbers of a layer with integer frame numbers. *)
Lemma integral_numbers layer tm kfs t0 tn dur :
  eligible layer tm kfs (Int (tn - t0)) (Int dur) ->
  integral layer kfs t0 tn dur ->
  (- (tn - t0) < dur)%Z ->
  (0 < tn - t0)%Z /\ (1 <= ceil_div dur (tn - t0) + 1 <= max_length)%Z /\
  num_add (num_ceil (num_div (Int dur) (Int (tn - t0)))) (Int 1)
  = Int (ceil_div dur (tn - t0) + 1) /\
  V8.turn_count (Int (ceil_div dur (tn - t0) + 1)) = (ceil_div dur (tn - t0) + 1)%Z.
Proof.
  intros [_ _ _ Hlen _ (t0' & tn' & _ & _ & _ & Hpos) _]
         [_ _ _ _ (Sd & S0 & Sc & Sn) Hfit] Hdur.
  rewrite num_ltb_Int in Hpos. apply Z.ltb_lt in Hpos.
  pose proof (ceil_div_spec dur (tn - t0) Hpos) as Hceil.
  set (cd := (tn - t0)%Z) in *. set (C := ceil_div dur cd) in *.
  assert (0 <= C)%Z as HC by nia.
  assert (C + 1 <= max_length)%Z as HCm by nia.
  unfold safe in *.
  split; [done|]. split; [lia|]. split.
  - rewrite num_ceil_div_Int by (unfold safe; nia).
    apply num_add_Int. unfold safe, max_length in *. lia.
  - apply turn_count_Int. lia.
Qed.

Lemma walk_layer_expands layer tm kfs t0 tn dur :
  eligible layer tm kfs (Int (tn - t0)) (Int dur) ->
  integral layer kfs t0 tn dur ->
  ascending kfs ->
  (- (tn - t0) < dur)%Z ->
  snd (V8.walk_layer layer) = Normal /\
  expanded_layer (fst (V8.walk_layer layer)) kfs (tn - t0) (ceil_div dur (tn - t0) + 1).
Proof.
  intros He Hi Hasc Hdur.
  destruct (integral_numbers _ _ _ _ _ _ He Hi Hdur) as (Hpos & Hc & Hcyc & HT).
  pose proof (walk_layer_eligible _ _ _ _ _ He) as Hw.
  unfold V8.turns in Hw. rewrite Hcyc, HT in Hw.
  destruct Hi as [Ht H0 Hn _ (Sd & S0 & Sc & Sn) Hfit].
  destruct He as [_ _ _ Hlen Hkfs _ _].
  set (cd := (tn - t0)%Z) in *. set (C := (ceil_div dur cd + 1)%Z) in *.
  destruct (Z.leb_spec (C * Z.of_nat (length kfs)) max_length) as [_|Hbad]; [|lia].
  destruct Hw as (tm' & Hwalk & Htm' & Hx & Hk). rewrite Hwalk. simpl.
  split; [done|].
  pose proof (ascending_bounds kfs t0 tn Ht Hasc H0 Hn) as Hb.
  exists tm', (unrolled (Z.to_nat C) 0 (Int cd) kfs).
  split; [done|]. split; [done|]. split; [done|].
  split; [|split; [|split]].
  - rewrite length_unrolled, Nat2Z.inj_mul, Z2Nat.id by lia. done.
  - apply (ascending_unrolled_int _ _ _ t0 tn); try done; try lia;
      by rewrite Z.add_0_l, Z2Nat.id by lia.
  - destruct (Z.to_nat C) as [|n] eqn:En; [lia|].
    destruct kfs as [|kf0 rest]; [done|].
    exists kf0, (shifted (num_mul (Int 0) (Int cd)) kf0).
    split; [done|]. split; [done|].
    inversion Hkfs as [|? ? Hk0 _]; subst. simpl in H0.
    rewrite (time_of_shifted _ _ _ H0 Hk0), H0. f_equal.
    rewrite num_mul_Int by (unfold safe; lia).
    rewrite num_add_Int by (unfold safe in *; lia).
    by replace (t0 + 0 * cd)%Z with t0 by lia.
  - intros c i kf Hcc Hik.
    assert (safe (c * cd)) as Scc by (unfold safe in *; nia).
    split.
    + rewrite (lookup_unrolled _ 0 (Int cd) kfs (Z.to_nat c) i kf) by (done || lia).
      replace (0 + Z.of_nat (Z.to_nat c))%Z with c by lia.
      by rewrite num_mul_Int.
    + intros t Hkt.
      assert (kf ∈ kfs) as Hin by (by eapply list_elem_of_lookup_2).
      assert (is_keyframe kf = true) as Hkk
        by (by apply (proj1 (Forall_forall _ _) Hkfs)).
      rewrite (time_of_shifted _ _ _ Hkt Hkk). f_equal.
      destruct (Hb kf Hin) as (t' & Ht' & Hbt).
      assert (t = t') as <- by (apply Int_inj; congruence).
      apply num_add_Int. unfold safe in *. nia.
Qed.

End ExpandLayer.

(** ** Completion on documents of the expected types *)

Lemma get_non_nullish v key : nullish v = false -> get v key = Ok (field v key).
Proof. unfold field. by destruct v. Qed.

Lemma field_store_back_ne v key key' w :
  key <> key' -> field (store_back v key w) key' = field v key'.
Proof.
  intros Hne. unfold field.
  destruct v as [| |b|n|s|items props|fields]; simpl; try done;
    by rewrite lookup_replace_prop_ne.
Qed.

Lemma store_back_field v key : store_back v key (field v key) = v.
Proof.
  unfold field.
  destruct v as [| |b|n|s|items props|fields]; simpl; try done;
    by rewrite replace_prop_same.
Qed.

Lemma forEach_normal (f : value -> value * completion) items :
  Forall (fun x => snd (f x) = Normal) items -> snd (forEach f items) = Normal.
Proof.
  induction 1 as [|x rest Hx _ IH]; simpl; [done|].
  destruct (f x) as [x' c]. simpl in Hx. subst c.
  by destruct (forEach f rest).
Qed.

(** The first entry that does not pass ends the iteration. *)
Lemma forEach_completion (f : value -> value * completion) (g : value -> bool) e items :
  Forall (fun x => snd (f x) = if g x then Normal else Thrown e) items ->
  snd (forEach f items) = if forallb g items then Normal else Thrown e.
Proof.
  induction 1 as [|x rest Hx _ IH]; simpl; [done|].
  destruct (f x) as [x' c]. simpl in Hx. subst c.
  destruct (g x); simpl; [|done].
  by destruct (forEach f rest).
Qed.

Section ExpandShaped.
Context {B : Builtins}.

Lemma ToNumber_primitive a : primitive a = true -> exists n, ToNumber a = Ok n.
Proof. destruct a; try done; eexists; reflexivity. Qed.

Lemma js_sub_primitive a b :
  primitive a = true -> primitive b = true -> exists n, js_sub a b = Ok n.
Proof.
  intros [x Hx]%ToNumber_primitive [y Hy]%ToNumber_primitive.
  unfold js_sub. rewrite Hx. simpl. rewrite Hy. simpl. by eexists.
Qed.

Lemma js_add_primitive a off : primitive a = true -> exists r, js_add a off = Ok r.
Proof. destruct a as [| |b|n|s|items props|fields]; try done; eexists; reflexivity. Qed.

Lemma copy_keyframe_shaped off kf :
  keyframe_shaped kf = true -> exists copy, V8.copy_keyframe off kf = Ok copy.
Proof.
  destruct kf as [| |b|n|s|items props|fields]; try done. intros Ht.
  unfold V8.copy_keyframe, keyframe_shaped, field in *. simpl in *.
  destruct (js_add_primitive _ off Ht) as [r ->]. simpl. by eexists.
Qed.

Lemma copies_shaped off kfs :
  Forall (fun kf => keyframe_shaped kf = true) kfs ->
  exists copies, Forall2 (fun kf c => V8.copy_keyframe off kf = Ok c) kfs copies.
Proof.
  induction 1 as [|kf rest Hkf _ [copies IH]]; [by exists []|].
  destruct (copy_keyframe_shaped off kf Hkf) as [c Hc].
  exists (c :: copies). by constructor.
Qed.

(** The loop on keyframes whose copies cannot fail: it completes when the
    copies fit an array and throws a [RangeError] when they do not. *)
Lemma cycle_loop_shaped cycles cd kfs fuel k E :
  Forall (fun kf => keyframe_shaped kf = true) kfs -> kfs <> [] ->
  (0 <= k)%Z -> (Z.of_nat fuel + k = V8.turn_count cycles)%Z ->
  Z.of_nat (length E) = (k * Z.of_nat (length kfs))%Z ->
  (Z.of_nat (length E) <= max_length)%Z ->
  if (V8.turn_count cycles * Z.of_nat (length kfs) <=? max_length)%Z
  then exists out, V8.cycle_loop fuel (Int k) cycles cd kfs E = Ok out
  else V8.cycle_loop fuel (Int k) cycles cd kfs E = Err RangeError.
Proof.
  intros Hk Hne.
  assert (1 <= Z.of_nat (length kfs))%Z as Hlen by (destruct kfs; simpl; [done|lia]).
  revert k E. induction fuel as [|fuel IH]; intros k E Hk0 HT HE Hmax;
    assert (k <= max_length)%Z as Hkm by nia;
    cbn [V8.cycle_loop]; rewrite ltb_turn_count by lia.
  - assert ((k <? V8.turn_count cycles)%Z = false) as -> by (apply Z.ltb_ge; lia).
    destruct (Z.leb_spec (V8.turn_count cycles * Z.of_nat (length kfs)) max_length);
      [by eexists|nia].
  - assert ((k <? V8.turn_count cycles)%Z = true) as -> by (apply Z.ltb_lt; lia).
    destruct (copies_shaped (num_mul (Int k) cd) kfs Hk) as [copies Hc].
    pose proof (Forall2_length _ _ _ Hc) as Hcl.
    rewrite (push_copies_spec _ _ _ _ Hc Hmax).
    destruct (Z.leb_spec (Z.of_nat (length E + length kfs)) max_length) as [Hfit|Hover];
      simpl.
    + rewrite counter_step by lia.
      apply IH; [lia|lia|rewrite length_app; lia|rewrite length_app; lia].
    + by destruct (Z.leb_spec (V8.turn_count cycles * Z.of_nat (length kfs)) max_length);
        [nia|].
Qed.

Lemma cycle_plan_shaped layer :
  layer_shaped layer = true ->
  V8.cycle_plan layer = Ok None \/
  exists tm kfs cd cycles,
    V8.cycle_plan layer = Ok (Some (tm, kfs, cd, cycles)) /\
    Forall (fun kf => keyframe_shaped kf = true) kfs /\ 2 <= length kfs /\
    forall out, exists tm1, set tm "k" (VArr out []) = Ok tm1.
Proof.
  unfold layer_shaped.
  intros [[[[Hl Hx]%andb_prop Hk]%andb_prop Hop]%andb_prop Hip]%andb_prop.
  apply negb_true_iff in Hl.
  unfold V8.cycle_plan. rewrite (get_non_nullish _ "tm" Hl). simpl.
  set (tm := field layer "tm") in *.
  destruct (truthy tm) eqn:Htm; simpl; [|by left].
  assert (nullish tm = false) as Hnn by (by destruct tm).
  rewrite (get_non_nullish _ "x" Hnn). simpl.
  destruct (truthy (field tm "x")) eqn:Htx; simpl; [|by left].
  destruct (field tm "x") as [| |b|n|s|xi xp|xf] eqn:Ex;
    simpl in Hx, Htx; rewrite ?Htx in Hx; try done. simpl.
  destruct (str_includes "loopOut" s); simpl; [|by left].
  rewrite (get_non_nullish _ "k" Hnn). simpl.
  destruct (field tm "k") as [| |b|n|s'|items props|kf] eqn:Ek; try by left.
  destruct (length items <? 2)%nat eqn:Hlen; [by left|].
  apply Nat.ltb_ge in Hlen.
  assert (Forall (fun kf => keyframe_shaped kf = true) items) as Hkfs.
  { apply Forall_forall. intros kf Hin. apply (proj1 (forallb_forall _ _) Hk).
    by apply list_elem_of_In. }
  assert (forall i, i < length items ->
            exists t, get (nth i items VUndef) "t" = Ok t /\ primitive t = true) as Hnth.
  { intros i Hi. destruct (lookup_lt_is_Some_2 items i Hi) as [kf Hkf].
    rewrite (nth_lookup_Some _ _ VUndef _ Hkf).
    assert (keyframe_shaped kf = true) as Hs.
    { apply (proj1 (Forall_forall _ _) Hkfs). by eapply list_elem_of_lookup_2. }
    destruct kf; try done. eexists. split; [reflexivity|done]. }
  destruct (Hnth (length items - 1)) as (tl & -> & Hpl); [lia|].
  destruct (Hnth 0) as (tf & -> & Hpf); [lia|]. simpl.
  destruct (js_sub_primitive tl tf Hpl Hpf) as [cd ->]. simpl.
  destruct (num_leb cd (Int 0)); [by left|].
  rewrite (get_non_nullish _ "op" Hl), (get_non_nullish _ "ip" Hl). simpl.
  destruct (js_sub_primitive (or_else (field layer "op") (VNum (Int 900)))
              (or_else (field layer "ip") (VNum (Int 0)))) as [dur ->].
  { unfold or_else. by destruct (truthy (field layer "op")). }
  { unfold or_else. by destruct (truthy (field layer "ip")). }
  simpl. right. eexists _, _, _, _. split; [done|]. split; [done|]. split; [done|].
  intros out. unfold field in Ex. destruct tm; try done; eexists; reflexivity.
Qed.

Lemma walk_layer_shaped layer :
  layer_shaped layer = true ->
  snd (V8.walk_layer layer) = if fits layer then Normal else Thrown RangeError.
Proof.
  intros Hs. unfold fits, requested, V8.walk_layer, V8.expanded_tm.
  destruct (cycle_plan_shaped layer Hs)
    as [->|(tm & kfs & cd & cycles & -> & Hk & Hlen & Hset)]; simpl; [done|].
  assert (kfs <> []) as Hne by (intros ->; simpl in Hlen; lia).
  pose proof (turn_count_nonneg cycles) as HT.
  pose proof (cycle_loop_shaped cycles cd kfs (V8.turns cycles) 0 [] Hk Hne) as Hloop.
  destruct (Z.leb_spec (V8.turn_count cycles * Z.of_nat (length kfs)) max_length).
  - destruct Hloop as [out ->];
      [lia|unfold V8.turns; lia|simpl; lia|simpl; unfold max_length; lia|].
    simpl. destruct (Hset out) as [tm1 ->]. done.
  - rewrite Hloop;
      [done|lia|unfold V8.turns; lia|simpl; lia|simpl; unfold max_length; lia].
Qed.

Lemma walk_shaped layers :
  layers_shaped layers = true ->
  snd (V8.walk layers) = if layers_fit layers then Normal else Thrown RangeError.
Proof.
  destruct layers as [| |b|n|s|items props|fields]; try done.
  simpl. intros Hs.
  pose proof (forEach_completion V8.walk_layer fits RangeError items) as Hn.
  destruct (forEach V8.walk_layer items) as [items' c]. simpl in *.
  apply Hn. apply Forall_forall. intros x Hin. apply walk_layer_shaped.
  apply (proj1 (forallb_forall _ _) Hs). by apply list_elem_of_In.
Qed.

Lemma walk_asset_shaped a :
  asset_shaped a = true ->
  snd (V8.walk_asset a)
  = if layers_fit (field a "layers") then Normal else Thrown RangeError.
Proof.
  intros [Hn%negb_true_iff Hs%walk_shaped]%andb_prop.
  unfold V8.walk_asset. rewrite (get_non_nullish _ "layers" Hn).
  by destruct (V8.walk (field a "layers")).
Qed.

Lemma walk_not_array layers :
  is_array layers = false -> V8.walk layers = (layers, Normal).
Proof. by destruct layers. Qed.

(** C4 (amended). On a document of the expected types with any part
    missing -- a document that is not [null] or [undefined]; entries of
    [layers] arrays and of [assets] that are not [null] or [undefined];
    [tm.x] a string or falsy; entries of [tm.k] objects whose [t] is primitive
    or absent; [op] and [ip] primitive or absent -- [expandTmCycles] completes
    normally when no layer asks for more keyframes than an array holds, and
    throws a [RangeError] otherwise; it throws nothing else.  Where neither
    [layers] nor [assets] is an array, the document is left as it is. *)
Theorem completes_on_shaped_documents data :
  document_shaped data = true ->
  snd (V8.expandTmCycles data)
  = (if document_fits data then Normal else Thrown RangeError) /\
  (is_array (field data "layers") = false ->
   is_array (field data "assets") = false ->
   fst (V8.expandTmCycles data) = data /\ snd (V8.expandTmCycles data) = Normal).
Proof.
  unfold document_shaped, document_fits.
  intros [[Hn%negb_true_iff Hl]%andb_prop Ha]%andb_prop.
  unfold V8.expandTmCycles. rewrite (get_non_nullish _ "layers" Hn).
  pose proof (walk_shaped _ Hl) as Hw.
  pose proof (walk_not_array (field data "layers")) as Hna.
  destruct (V8.walk (field data "layers")) as [layers' c]. simpl in Hw. subst c.
  destruct (layers_fit (field data "layers")) eqn:Hfit; simpl.
  2: { split; [done|]. intros Hla _. specialize (Hna Hla). done. }
  assert (nullish (store_back data "layers" layers') = false) as Hn'.
  { by destruct data. }
  rewrite (get_non_nullish _ "assets" Hn').
  rewrite field_store_back_ne by done.
  destruct (field data "assets") as [| |b|n|s|assets props|fields] eqn:Eassets;
    simpl; try (split; [done|]; intros Hla _; specialize (Hna Hla);
                injection Hna as ->; split; [apply store_back_field|done]).
  pose proof (forEach_completion V8.walk_asset
                (fun a => layers_fit (field a "layers")) RangeError assets) as Hfa.
  destruct (forEach V8.walk_asset assets) as [assets' c]. simpl in *.
  split; [|done]. apply Hfa. apply Forall_forall. intros a Hin.
  apply walk_asset_shaped. apply (proj1 (forallb_forall _ _) Ha).
  by apply list_elem_of_In.
Qed.

End ExpandShaped.

(** ** Layers that hit a guard, traversal of both roots, second pass *)

Lemma get_Ok_field v key w : get v key = Ok w -> field v key = w.
Proof. unfold field. by intros ->. Qed.

Lemma get_store_back_ne v key key' w :
  key <> key' -> get (store_back v key w) key' = get v key'.
Proof.
  intros Hne. destruct v as [| |b|n|s|items props|fields]; simpl; try done;
    by rewrite lookup_replace_prop_ne.
Qed.

Lemma get_store_back_gen v key w w' :
  get v key = Ok w -> (w = VUndef -> w' = VUndef) ->
  get (store_back v key w') key = Ok w'.
Proof.
  destruct v as [| |b|n|s|items props|fields]; simpl; try done;
    intros [= <-] Hw; try (by rewrite Hw); rewrite lookup_replace_prop_eq;
    destruct (lookup_prop key _); simpl in *; try done; by rewrite Hw.
Qed.

Lemma store_back_store_back v key w w' :
  store_back (store_back v key w) key w' = store_back v key w'.
Proof.
  destruct v as [| |b|n|s|items props|fields]; simpl; try done;
    by rewrite replace_prop_replace.
Qed.

Lemma forEach_lookup (f : value -> value * completion) items i x :
  items !! i = Some x ->
  fst (forEach f items) !! i = Some x \/
  fst (forEach f items) !! i = Some (fst (f x)).
Proof.
  revert i. induction items as [|y rest IH]; intros i Hi; [done|].
  simpl. destruct (f y) as [y' [|e]] eqn:Ey.
  - specialize (IH (pred i)). destruct (forEach f rest) as [rest' c].
    destruct i as [|i]; simpl in *.
    + injection Hi as ->. right. by rewrite Ey.
    + by apply IH.
  - destruct i as [|i]; simpl in *.
    + injection Hi as ->. right. by rewrite Ey.
    + by left.
Qed.

Lemma forEach_normal_lookup (f : value -> value * completion) items i x :
  snd (forEach f items) = Normal -> items !! i = Some x ->
  fst (forEach f items) !! i = Some (fst (f x)) /\ snd (f x) = Normal.
Proof.
  revert i. induction items as [|y rest IH]; intros i Hn Hi; [done|].
  simpl in *. destruct (f y) as [y' [|e]] eqn:Ey; [|done].
  specialize (IH (pred i)). destruct (forEach f rest) as [rest' c].
  destruct i as [|i]; simpl in *.
  - injection Hi as ->. by rewrite Ey.
  - by apply IH.
Qed.

Lemma forEach_idem (f : value -> value * completion) items :
  (forall x, f (fst (f x)) = f x) ->
  forEach f (fst (forEach f items)) = forEach f items.
Proof.
  intros Hf. induction items as [|x rest IH]; [done|].
  simpl. pose proof (Hf x) as Hx. destruct (f x) as [x' [|e]] eqn:Ex; simpl in Hx.
  - destruct (forEach f rest) as [rest' c] eqn:Er. simpl in *.
    by rewrite Hx, IH.
  - simpl. by rewrite Hx.
Qed.

Section ExpandTraversal.
Context {B : Builtins}.

Lemma expanded_tm_Some layer tm' :
  V8.expanded_tm layer = Ok (Some tm') ->
  exists tm x items props tl tf cd out tm1,
    get layer "tm" = Ok tm /\ truthy tm = true /\
    get tm "x" = Ok x /\ truthy x = true /\ includes x "loopOut" = Ok true /\
    get tm "k" = Ok (VArr items props) /\ 2 <= length items /\
    get (nth (length items - 1) items VUndef) "t" = Ok tl /\
    get (nth 0 items VUndef) "t" = Ok tf /\
    js_sub tl tf = Ok cd /\ num_leb cd (Int 0) = false /\
    set tm "k" (VArr out []) = Ok tm1 /\ tm' = delete tm1 "x".
Proof.
  unfold V8.expanded_tm, V8.cycle_plan. intros Hrun.
  destruct (get layer "tm") as [tm|] eqn:Htm; simpl in Hrun; [|done].
  destruct (truthy tm) eqn:Ttm; simpl in Hrun; [|done].
  destruct (get tm "x") as [x|] eqn:Hx; simpl in Hrun; [|done].
  destruct (truthy x) eqn:Tx; simpl in Hrun; [|done].
  destruct (includes x "loopOut") as [[|]|] eqn:Hi; simpl in Hrun; try done.
  destruct (get tm "k") as [k|] eqn:Hk; simpl in Hrun; [|done].
  destruct k as [| |b|n|s|items props|fields]; try done.
  destruct (length items <? 2)%nat eqn:Hlen; [done|]. apply Nat.ltb_ge in Hlen.
  destruct (get (nth (length items - 1) items VUndef) "t") as [tl|] eqn:Htl;
    simpl in Hrun; [|done].
  destruct (get (nth 0 items VUndef) "t") as [tf|] eqn:Htf; simpl in Hrun; [|done].
  destruct (js_sub tl tf) as [cd|] eqn:Hcd; simpl in Hrun; [|done].
  destruct (num_leb cd (Int 0)) eqn:Hle; [done|].
  destruct (get layer "op") as [op|]; simpl in Hrun; [|done].
  destruct (get layer "ip") as [ip|]; simpl in Hrun; [|done].
  destruct (js_sub (or_else op (VNum (Int 900))) (or_else ip (VNum (Int 0))))
    as [dur|]; simpl in Hrun; [|done].
  destruct (V8.cycle_loop _ _ _ _ _ _) as [out|]; simpl in Hrun; [|done].
  destruct (set tm "k" (VArr out [])) as [tm1|] eqn:Hset; simpl in Hrun; [|done].
  injection Hrun as <-.
  exists tm, x, items, props, tl, tf, cd, out, tm1. by repeat split.
Qed.

Lemma guard_hit_skips layer tm' :
  guard_hit layer -> V8.expanded_tm layer <> Ok (Some tm').
Proof.
  intros Hg Hrun.
  destruct (expanded_tm_Some _ _ Hrun)
    as (tm & x & items & props & tl & tf & cd & out & tm1 & Htm & Ttm & Hx & Tx & Hi
        & Hk & Hlen & Htl & Htf & Hcd & Hle & _).
  unfold guard_hit in Hg.
  rewrite (get_Ok_field _ _ _ Htm), (get_Ok_field _ _ _ Hx), (get_Ok_field _ _ _ Hk) in Hg.
  destruct Hg as [Hg|[Hg|[(s & -> & Hs)|[Hg|(items' & props' & t0 & tn & [= <- <-] & H0 & Hn & Hd)]]]].
  - congruence.
  - congruence.
  - simpl in Hi. congruence.
  - specialize (Hg items props eq_refl). lia.
  - rewrite !nth_lookup in Htl, Htf.
    replace (length items - 1) with (pred (length items)) in Htl by lia.
    rewrite <- last_lookup in Htl. rewrite <- head_lookup in Htf.
    destruct (head items) as [kf0|]; [|done].
    destruct (last items) as [kfn|]; [|done]. simpl in *.
    unfold time_of in H0, Hn.
    rewrite (get_Ok_field _ _ _ Htf) in H0. rewrite (get_Ok_field _ _ _ Htl) in Hn.
    destruct tf as [| |?|z0|?|? ?|?]; try done.
    destruct tl as [| |?|zn|?|? ?|?]; try done.
    injection H0 as ->. injection Hn as ->.
    unfold js_sub in Hcd. simpl in Hcd. injection Hcd as <-. congruence.
Qed.

Lemma walk_layer_guard_hit layer :
  guard_hit layer -> fst (V8.walk_layer layer) = layer.
Proof.
  intros Hg. unfold V8.walk_layer.
  destruct (V8.expanded_tm layer) as [[tm'|]|] eqn:Hrun; try done.
  by destruct (guard_hit_skips _ _ Hg Hrun).
Qed.

(** The top-level [layers] of the document after the call. *)
Lemma expandTmCycles_layers data layers :
  get data "layers" = Ok layers ->
  get (fst (V8.expandTmCycles data)) "layers" = Ok (fst (V8.walk layers)).
Proof.
  intros Hl. unfold V8.expandTmCycles. rewrite Hl.
  assert (layers = VUndef -> fst (V8.walk layers) = VUndef) as Hu by (by intros ->).
  pose proof (get_store_back_gen data "layers" layers _ Hl Hu) as Hget.
  destruct (V8.walk layers) as [layers' [|e]]; simpl in *; [|done].
  destruct (get (store_back data "layers" layers') "assets") as [a|]; [|done].
  destruct a as [| |?|?|?|assets props|?]; try done.
  destruct (forEach V8.walk_asset assets) as [assets' c]. simpl.
  by rewrite get_store_back_ne.
Qed.

(** The [assets] of the document after the call: entry [i] is untouched or
    has been through [walk_asset]; all have when the call completes
    normally. *)
Lemma expandTmCycles_assets data assets props i a :
  get data "assets" = Ok (VArr assets props) -> assets !! i = Some a ->
  exists assets' a',
    get (fst (V8.expandTmCycles data)) "assets" = Ok (VArr assets' props) /\
    assets' !! i = Some a' /\
    (a' = a \/ a' = fst (V8.walk_asset a)) /\
    (snd (V8.expandTmCycles data) = Normal ->
     a' = fst (V8.walk_asset a) /\ snd (V8.walk_asset a) = Normal).
Proof.
  intros Ha Hi. unfold V8.expandTmCycles.
  assert (nullish data = false) as Hn by (by destruct data).
  rewrite (get_non_nullish _ "layers" Hn).
  destruct (V8.walk (field data "layers")) as [layers' [|e]]; simpl.
  - rewrite get_store_back_ne, Ha by done.
    pose proof (forEach_lookup V8.walk_asset assets i a Hi) as Hlk.
    pose proof (forEach_normal_lookup V8.walk_asset assets i a) as Hnl.
    destruct (forEach V8.walk_asset assets) as [assets' c]. simpl in *.
    assert (get (store_back data "layers" layers') "assets" = Ok (VArr assets props))
      as Ha' by (by rewrite get_store_back_ne).
    rewrite (get_store_back_gen _ "assets" _ (VArr assets' props) Ha') by done.
    destruct Hlk as [Hlk|Hlk].
    + exists assets', a. split; [done|]. split; [done|]. split; [by left|].
      intros Hc. destruct (Hnl Hc Hi) as [Hlk' Hs]. split; [congruence|done].
    + exists assets', (fst (V8.walk_asset a)).
      split; [done|]. split; [done|]. split; [by right|].
      intros Hc. by destruct (Hnl Hc Hi).
  - rewrite get_store_back_ne, Ha by done.
    exists assets, a. split; [done|]. split; [done|]. split; [by left|]. done.
Qed.

Lemma walk_asset_layers a layers :
  get a "layers" = Ok layers ->
  get (fst (V8.walk_asset a)) "layers" = Ok (fst (V8.walk layers)).
Proof.
  intros Hl. unfold V8.walk_asset. rewrite Hl.
  assert (layers = VUndef -> fst (V8.walk layers) = VUndef) as Hu by (by intros ->).
  pose proof (get_store_back_gen a "layers" layers _ Hl Hu) as Hget.
  by destruct (V8.walk layers) as [layers' c].
Qed.

Lemma walk_array items props :
  V8.walk (VArr items props)
  = (VArr (fst (forEach V8.walk_layer items)) props, snd (forEach V8.walk_layer items)).
Proof. simpl. by destruct (forEach V8.walk_layer items). Qed.

Lemma expandTmCycles_top_layer data layers props i layer :
  get data "layers" = Ok (VArr layers props) -> layers !! i = Some layer ->
  snd (V8.expandTmCycles data) = Normal ->
  exists layers',
    get (fst (V8.expandTmCycles data)) "layers" = Ok (VArr layers' props) /\
    layers' !! i = Some (fst (V8.walk_layer layer)) /\
    snd (V8.walk_layer layer) = Normal.
Proof.
  intros Hl Hi Hc.
  assert (snd (forEach V8.walk_layer layers) = Normal) as Hn.
  { unfold V8.expandTmCycles in Hc. rewrite Hl, walk_array in Hc.
    by destruct (snd (forEach V8.walk_layer layers)). }
  exists (fst (forEach V8.walk_layer layers)).
  rewrite (expandTmCycles_layers _ _ Hl), walk_array.
  split; [done|]. by apply forEach_normal_lookup.
Qed.

(** C1 (amended). For a layer with a valid cyclic-loop time-remap (marker in
    [tm.x], at least two keyframes in ascending order of [t], positive cycle
    duration) whose frame numbers [t], [op] and [ip] are integers, whose
    duration [op - ip] exceeds [- cycleDur], so that
    [cycles = ceil((op - ip) / cycleDur) + 1] is at least one, and for which
    every number the expansion computes is below [2^53] in magnitude and the
    [cycles] copies of the keyframes fit an array: the callback completes
    normally, [tm.x] is absent afterwards, and [tm.k] has [cycles * length]
    keyframes, non-decreasing in [t], the first with the original first [t],
    the keyframe at cycle [c] and position [i] being the original keyframe
    [i] with only [t] changed to [t + c * cycleDur].  This is the state of the
    layer in the document after a call of [expandTmCycles] that completes
    normally. *)
Theorem expansion_of_eligible_layer layer tm kfs t0 tn dur :
  eligible layer tm kfs (Int (tn - t0)) (Int dur) ->
  integral layer kfs t0 tn dur ->
  ascending kfs ->
  (- (tn - t0) < dur)%Z ->
  snd (V8.walk_layer layer) = Normal /\
  expanded_layer (fst (V8.walk_layer layer)) kfs (tn - t0)
    (ceil_div dur (tn - t0) + 1) /\
  (forall data layers props i,
     get data "layers" = Ok (VArr layers props) -> layers !! i = Some layer ->
     snd (V8.expandTmCycles data) = Normal ->
     exists layers' layer',
       get (fst (V8.expandTmCycles data)) "layers" = Ok (VArr layers' props) /\
       layers' !! i = Some layer' /\
       expanded_layer layer' kfs (tn - t0) (ceil_div dur (tn - t0) + 1)).
Proof.
  intros He Hi Hasc Hdur.
  destruct (walk_layer_expands _ _ _ _ _ _ He Hi Hasc Hdur) as [Hn Hexp].
  split; [done|]. split; [done|].
  intros data layers props i Hl Hli Hc.
  destruct (expandTmCycles_top_layer _ _ _ _ _ Hl Hli Hc) as (layers' & Hget & Hi' & _).
  by exists layers', (fst (V8.walk_layer layer)).
Qed.

(** C2. The end-to-end scenario: ten keyframes with [t] = 0, 25, 25, 50,
    50, 75, 75, 100, 100, 125, and [tm.x] absent. *)
Theorem scenario_expansion :
  V8.expandTmCycles Samples.scenario_document = (Samples.scenario_expanded, Normal).
Proof. vm_compute. reflexivity. Qed.

(** C3 (amended). For an eligible layer, whatever its numbers, the callback
    emits as many cycle copies as there are values [c = 0, 1, 2, ...] below
    [cycles = Math.ceil((op - ip) / cycleDur) + 1], computed on doubles, [op]
    being taken as 900 and [ip] as 0 when the field is absent or falsy --
    provided these copies of the keyframes fit an array; when they do not,
    the callback throws a [RangeError] and leaves the layer as it was.  For
    integers [op - ip] and [cycleDur] below [2^53], [cycles] is the integer
    [ceil((op - ip) / cycleDur) + 1], [ceil(dur / cycleDur)] being the least
    integer [q] with [dur <= q * cycleDur], and the number of copies is
    [max 0 cycles]. *)
Theorem emitted_cycle_count layer tm kfs cycleDur dur :
  eligible layer tm kfs cycleDur dur ->
  ((V8.turn_count (num_add (num_ceil (num_div dur cycleDur)) (Int 1))
    * Z.of_nat (length kfs) <= max_length)%Z ->
   snd (V8.walk_layer layer) = Normal /\
   emits_copies (fst (V8.walk_layer layer)) kfs cycleDur
     (V8.turns (num_add (num_ceil (num_div dur cycleDur)) (Int 1)))) /\
  ((max_length < V8.turn_count (num_add (num_ceil (num_div dur cycleDur)) (Int 1))
                 * Z.of_nat (length kfs))%Z ->
   V8.walk_layer layer = (layer, Thrown RangeError)) /\
  (forall d cd,
     dur = Int d -> cycleDur = Int cd -> safe d -> safe cd ->
     safe (ceil_div d cd + 1) ->
     (0 < cd)%Z /\
     num_add (num_ceil (num_div dur cycleDur)) (Int 1) = Int (ceil_div d cd + 1) /\
     ((ceil_div d cd - 1) * cd < d <= ceil_div d cd * cd)%Z /\
     ((ceil_div d cd + 1) * Z.of_nat (length kfs) <= max_length ->
      Z.of_nat (V8.turns (num_add (num_ceil (num_div dur cycleDur)) (Int 1)))
      = Z.max 0 (ceil_div d cd + 1))%Z).
Proof.
  intros He. pose proof (walk_layer_eligible _ _ _ _ _ He) as Hw.
  split; [|split].
  - intros Hfit. apply Z.leb_le in Hfit. rewrite Hfit in Hw.
    destruct Hw as (tm' & -> & Htm' & Hx & Hk). split; [done|]. by exists tm'.
  - intros Hover. apply Z.leb_gt in Hover. by rewrite Hover in Hw.
  - intros d cd -> -> Sd Scd Sc.
    destruct He as [_ _ _ Hlen _ (t0 & tn & _ & _ & _ & Hpos) _].
    rewrite num_ltb_Int in Hpos. apply Z.ltb_lt in Hpos.
    assert (num_add (num_ceil (num_div (Int d) (Int cd))) (Int 1)
            = Int (ceil_div d cd + 1)) as Hcyc.
    { rewrite num_ceil_div_Int by done. by apply num_add_Int. }
    split; [done|]. split; [done|]. split; [by apply ceil_div_spec|].
    intros Hfit. rewrite Hcyc. unfold V8.turns, V8.turn_count, Int.
    rewrite ceil_div_multiple by apply scale_pos.
    unfold max_length in *. nia.
Qed.

(** C5. A layer that hits a guard of the callback is left unchanged, [tm]
    included, by the callback and, wherever it sits among the top-level
    layers or the layers of an asset, by [expandTmCycles], however the call
    completes. *)
Theorem guarded_layer_unchanged layer :
  guard_hit layer ->
  fst (V8.walk_layer layer) = layer /\
  (forall data layers props i,
     get data "layers" = Ok (VArr layers props) -> layers !! i = Some layer ->
     exists layers',
       get (fst (V8.expandTmCycles data)) "layers" = Ok (VArr layers' props) /\
       layers' !! i = Some layer) /\
  (forall data assets aprops i a layers props j,
     get data "assets" = Ok (VArr assets aprops) -> assets !! i = Some a ->
     get a "layers" = Ok (VArr layers props) -> layers !! j = Some layer ->
     exists assets' a' layers',
       get (fst (V8.expandTmCycles data)) "assets" = Ok (VArr assets' aprops) /\
       assets' !! i = Some a' /\
       get a' "layers" = Ok (VArr layers' props) /\
       layers' !! j = Some layer).
Proof.
  intros Hg. pose proof (walk_layer_guard_hit _ Hg) as Hfix.
  assert (forall layers i, layers !! i = Some layer ->
            fst (forEach V8.walk_layer layers) !! i = Some layer) as Hkeep.
  { intros layers i Hi.
    destruct (forEach_lookup V8.walk_layer layers i layer Hi) as [H1|H1];
      rewrite H1; [done|by rewrite Hfix]. }
  split; [done|]. split.
  - intros data layers props i Hl Hi.
    exists (fst (forEach V8.walk_layer layers)).
    rewrite (expandTmCycles_layers _ _ Hl), walk_array. auto.
  - intros data assets aprops i a layers props j Ha Hi Hl Hj.
    destruct (expandTmCycles_assets _ _ _ _ _ Ha Hi)
      as (assets' & a' & Hget & Hi' & [->| ->] & _).
    + exists assets', a, layers. auto.
    + exists assets', (fst (V8.walk_asset a)), (fst (forEach V8.walk_layer layers)).
      rewrite (walk_asset_layers _ _ Hl), walk_array. auto.
Qed.

(** C6 (amended). When the call completes normally, a layer found only
    under [assets[i].layers] has been through the same callback as a
    top-level layer: the layers of the asset are afterwards what
    [expandTmCycles] makes of the same array at the top level of a document,
    and a layer with a valid cyclic-loop time-remap among them holds its
    expansion. *)
Theorem asset_layers_expanded data assets aprops i a layers props j layer :
  snd (V8.expandTmCycles data) = Normal ->
  get data "assets" = Ok (VArr assets aprops) -> assets !! i = Some a ->
  get a "layers" = Ok (VArr layers props) -> layers !! j = Some layer ->
  exists assets' a' layers',
    get (fst (V8.expandTmCycles data)) "assets" = Ok (VArr assets' aprops) /\
    assets' !! i = Some a' /\
    get a' "layers" = Ok (VArr layers' props) /\
    layers' !! j = Some (fst (V8.walk_layer layer)) /\
    fst (V8.expandTmCycles (VObj [("layers", VArr layers props)]))
    = VObj [("layers", VArr layers' props)] /\
    (forall tm kfs t0 tn dur,
       eligible layer tm kfs (Int (tn - t0)) (Int dur) ->
       integral layer kfs t0 tn dur ->
       ascending kfs -> (- (tn - t0) < dur)%Z ->
       exists layer',
         layers' !! j = Some layer' /\
         expanded_layer layer' kfs (tn - t0) (ceil_div dur (tn - t0) + 1)).
Proof.
  intros Hc Ha Hi Hl Hj.
  destruct (expandTmCycles_assets _ _ _ _ _ Ha Hi)
    as (assets' & a' & Hget & Hi' & _ & Hn).
  destruct (Hn Hc) as [-> Hna].
  exists assets', (fst (V8.walk_asset a)), (fst (forEach V8.walk_layer layers)).
  rewrite (walk_asset_layers _ _ Hl), walk_array. simpl.
  assert (snd (forEach V8.walk_layer layers) = Normal) as Hnl.
  { unfold V8.walk_asset in Hna. rewrite Hl, walk_array in Hna. done. }
  destruct (forEach_normal_lookup V8.walk_layer layers j layer Hnl Hj) as [Hj' _].
  do 4 (split; [done|]). split.
  - unfold V8.expandTmCycles. simpl.
    destruct (forEach V8.walk_layer layers) as [layers' c]. simpl in *. by subst c.
  - intros tm kfs t0 tn dur He Hint Hasc Hdur.
    exists (fst (V8.walk_layer layer)). split; [done|].
    by apply (walk_layer_expands _ tm).
Qed.

Lemma store_back_get v key w : get v key = Ok w -> store_back v key w = v.
Proof. intros Hg. rewrite <- (get_Ok_field _ _ _ Hg). apply store_back_field. Qed.

Lemma expanded_layer_skipped layer tm' :
  V8.expanded_tm layer = Ok (Some tm') ->
  get (store_back layer "tm" tm') "tm" = Ok tm' /\
  get tm' "x" = Ok VUndef /\
  V8.expanded_tm (store_back layer "tm" tm') = Ok None.
Proof.
  intros Hrun.
  destruct (expanded_tm_Some _ _ Hrun)
    as (tm & x & items & props & tl & tf & cd & out & tm1 & Htm & Ttm & Hx & Tx & _
        & _ & _ & _ & _ & _ & _ & Hset & ->).
  assert (get (store_back layer "tm" (delete tm1 "x")) "tm" = Ok (delete tm1 "x"))
    as Hget.
  { eapply get_store_back; [done|]. by intros ->. }
  assert (get (delete tm1 "x") "x" = Ok VUndef /\ truthy (delete tm1 "x") = true)
    as [Hnox Ht].
  { destruct tm as [| |?|?|?|ti tp|tf']; try done; injection Hset as <-; simpl;
      by rewrite lookup_delete_prop_eq. }
  split; [done|]. split; [done|].
  unfold V8.expanded_tm, V8.cycle_plan.
  rewrite Hget. simpl. rewrite Ht. simpl. by rewrite Hnox.
Qed.

Lemma walk_layer_idem layer :
  V8.walk_layer (fst (V8.walk_layer layer)) = V8.walk_layer layer.
Proof.
  unfold V8.walk_layer at 2 3.
  destruct (V8.expanded_tm layer) as [[tm'|]|] eqn:Hrun; simpl.
  - destruct (expanded_layer_skipped _ _ Hrun) as (_ & _ & Hskip).
    unfold V8.walk_layer. by rewrite Hskip.
  - unfold V8.walk_layer. by rewrite Hrun.
  - unfold V8.walk_layer. by rewrite Hrun.
Qed.

Lemma walk_idem layers : V8.walk (fst (V8.walk layers)) = V8.walk layers.
Proof.
  destruct layers as [| |?|?|?|items props|?]; try done.
  rewrite walk_array. simpl fst. rewrite walk_array.
  by rewrite (forEach_idem _ _ walk_layer_idem).
Qed.

Lemma walk_asset_idem a :
  V8.walk_asset (fst (V8.walk_asset a)) = V8.walk_asset a.
Proof.
  unfold V8.walk_asset at 2 3.
  destruct (get a "layers") as [layers|e] eqn:Hl; simpl.
  - pose proof (walk_idem layers) as Hidem.
    assert (layers = VUndef -> fst (V8.walk layers) = VUndef) as Hu by (by intros ->).
    pose proof (get_store_back_gen a "layers" layers _ Hl Hu) as Hget.
    destruct (V8.walk layers) as [layers' c]. simpl in *.
    unfold V8.walk_asset. rewrite Hget, Hidem. by rewrite store_back_store_back.
  - unfold V8.walk_asset. by rewrite Hl.
Qed.

Lemma expandTmCycles_idem data :
  V8.expandTmCycles (fst (V8.expandTmCycles data)) = V8.expandTmCycles data.
Proof.
  unfold V8.expandTmCycles at 2 3.
  destruct (get data "layers") as [layers|e] eqn:Hl; simpl.
  2: { unfold V8.expandTmCycles. by rewrite Hl. }
  pose proof (walk_idem layers) as Hidem.
  assert (layers = VUndef -> fst (V8.walk layers) = VUndef) as Hu by (by intros ->).
  pose proof (get_store_back_gen data "layers" layers _ Hl Hu) as Hget.
  destruct (V8.walk layers) as [layers' [|e]]; simpl in *.
  2: { unfold V8.expandTmCycles. rewrite Hget, Hidem.
       by rewrite store_back_store_back. }
  set (data1 := store_back data "layers" layers') in *.
  destruct (get data1 "assets") as [assets|e] eqn:Ha.
  2: { simpl. unfold V8.expandTmCycles. rewrite Hget, Hidem.
       rewrite (store_back_get _ _ _ Hget). by rewrite Ha. }
  assert (forall w, is_array w = false -> get data1 "assets" = Ok w ->
            V8.expandTmCycles data1 = (data1, Normal)) as Hplain.
  { intros w Hw Hgw. unfold V8.expandTmCycles. rewrite Hget, Hidem.
    rewrite (store_back_get _ _ _ Hget), Hgw. by destruct w. }
  destruct assets as [| |?|?|?|items props|?];
    try (cbn [fst]; refine (Hplain _ _ Ha); reflexivity).
  pose proof (forEach_idem _ items walk_asset_idem) as Hfa.
  destruct (forEach V8.walk_asset items) as [assets' c]. simpl in *.
  set (data2 := store_back data1 "assets" (VArr assets' props)).
  assert (get data2 "layers" = Ok layers') as Hget2.
  { unfold data2. by rewrite get_store_back_ne. }
  assert (get data2 "assets" = Ok (VArr assets' props)) as Ha2.
  { unfold data2. by eapply get_store_back_gen. }
  unfold V8.expandTmCycles. rewrite Hget2, Hidem.
  rewrite (store_back_get _ _ _ Hget2), Ha2, Hfa.
  by rewrite (store_back_get _ _ _ Ha2).
Qed.

(** C7. A second application changes nothing.  A layer expanded by the
    first pass has lost [tm.x], so that the callback returns at its first
    guard and leaves the layer as it is; [expandTmCycles] applied to its own
    result gives that result again, with the same completion. *)
Theorem second_pass_is_identity :
  (forall layer tm',
     V8.expanded_tm layer = Ok (Some tm') ->
     get (fst (V8.walk_layer layer)) "tm" = Ok tm' /\
     get tm' "x" = Ok VUndef /\
     V8.expanded_tm (fst (V8.walk_layer layer)) = Ok None /\
     V8.walk_layer (fst (V8.walk_layer layer))
     = (fst (V8.walk_layer layer), Normal)) /\
  (forall data,
     V8.expandTmCycles (fst (V8.expandTmCycles data)) = V8.expandTmCycles data).
Proof.
  split; [|apply expandTmCycles_idem].
  intros layer tm' Hrun.
  destruct (expanded_layer_skipped _ _ Hrun) as (Hget & Hx & Hskip).
  unfold V8.walk_layer at 1 2 4 5. rewrite Hrun. simpl.
  do 3 (split; [done|]). unfold V8.walk_layer. by rewrite Hskip.
Qed.

(** C9. The two copies of [expandTmCycles] are the same function: on every
    document they leave the same document and complete the same way. *)
Theorem expansions_agree data :
  V8.expandTmCycles data = Block.expandTmCycles data.
Proof. reflexivity. Qed.

End ExpandTraversal.

(** ** [stripRemainingExpressions]: termination and effect *)

Module StripFacts.
Import Strip.

Lemma lookup_delete_field_eq key fields :
  lookup_field key (delete_field key fields) = None.
Proof.
  induction fields as [|[k u] rest IH]; simpl; [done|].
  unfold delete_field in *. rewrite filter_cons. simpl.
  destruct (String.eqb k key) eqn:E; simpl; [done|].
  rewrite E. apply IH.
Qed.

Lemma lookup_delete_field_ne key key' fields :
  key <> key' ->
  lookup_field key' (delete_field key fields) = lookup_field key' fields.
Proof.
  intros Hne. induction fields as [|[k u] rest IH]; simpl; [done|].
  unfold delete_field in *. rewrite filter_cons. simpl.
  destruct (String.eqb k key) eqn:E; simpl.
  - apply String.eqb_eq in E. subst k.
    destruct (String.eqb key key') eqn:E'; [|done].
    apply String.eqb_eq in E'. contradiction.
  - destruct (String.eqb k key'); [done|apply IH].
Qed.

Lemma delete_x_idem fields : delete_x (delete_x fields) = delete_x fields.
Proof.
  unfold delete_x at 2 3.
  destruct (lookup_field "x" fields) as [[| |b|n|s|l]|] eqn:E;
    unfold delete_x; rewrite ?E; try done.
  by rewrite lookup_delete_field_eq.
Qed.

Lemma strip_x_idem o : strip_x (strip_x o) = strip_x o.
Proof. destruct o; simpl; [done|]. by rewrite delete_x_idem. Qed.

Lemma expression_free_strip_x o : expression_free (strip_x o).
Proof.
  destruct o as [items|fields]; simpl; [done|]. intros s.
  unfold delete_x. destruct (lookup_field "x" fields) as [[| |b|n|s'|l]|] eqn:E;
    rewrite ?E, ?lookup_delete_field_eq; done.
Qed.

Lemma children_strip_x v o : v ∈ children (strip_x o) -> v ∈ children o.
Proof.
  destruct o as [items|fields]; simpl; [done|].
  unfold delete_x. destruct (lookup_field "x" fields) as [[| |b|n|s|l]|]; try done.
  unfold values, delete_field.
  intros ([k w] & -> & Hin%list_elem_of_filter)%list_elem_of_fmap.
  apply list_elem_of_fmap. exists (k, w). split; [done|]. apply Hin.
Qed.

Lemma lookup_field_unique k v fields :
  NoDup (map fst fields) -> (k, v) ∈ fields -> lookup_field k fields = Some v.
Proof.
  induction fields as [|[k' w] rest IH]; simpl; intros Hnd Hin.
  - by apply elem_of_nil in Hin.
  - apply NoDup_cons in Hnd as [Hk Hnd].
    apply elem_of_cons in Hin as [[= -> ->]|Hin].
    + by rewrite String.eqb_refl.
    + destruct (String.eqb k' k) eqn:E; [|by apply IH].
      apply String.eqb_eq in E. subst k'. exfalso. apply Hk.
      apply list_elem_of_fmap. by exists (k, v).
Qed.

Lemma children_strip_x_ref l o :
  keys_unique o -> Ref l ∈ children o -> Ref l ∈ children (strip_x o).
Proof.
  destruct o as [items|fields]; simpl; [done|]. intros Hnd.
  unfold delete_x. destruct (lookup_field "x" fields) as [[| |b|n|s|l']|] eqn:E; try done.
  unfold values, delete_field.
  intros ([k w] & Hw & Hin)%list_elem_of_fmap. simpl in Hw. subst w.
  apply list_elem_of_fmap. exists (k, Ref l). split; [done|].
  apply list_elem_of_filter. split; [|done]. simpl.
  destruct (String.eqb k "x") eqn:Ek; [|done].
  apply String.eqb_eq in Ek. subst k.
  rewrite (lookup_field_unique _ _ _ Hnd Hin) in E. done.
Qed.

(** *** The frame relation *)

Lemma frame_refl h : frame h h.
Proof. intros l. by left. Qed.

Lemma frame_trans h1 h2 h3 : frame h1 h2 -> frame h2 h3 -> frame h1 h3.
Proof.
  intros H12 H23 l. destruct (H12 l) as [E1|E1], (H23 l) as [E2|E2];
    rewrite E2, E1; auto.
  right. destruct (h1 !! l); simpl; [|done]. by rewrite strip_x_idem.
Qed.

Lemma frame_write h l o : h !! l = Some o -> frame h (<[l := strip_x o]> h).
Proof.
  intros Hl l'. destruct (decide (l = l')) as [<-|Hne].
  - right. by rewrite lookup_insert_eq, Hl.
  - left. by rewrite lookup_insert_ne.
Qed.

Lemma frame_is_Some h h' l : frame h h' -> is_Some (h' !! l) <-> is_Some (h !! l).
Proof.
  intros Hf. destruct (Hf l) as [E|E]; rewrite E; [done|].
  by rewrite fmap_is_Some.
Qed.

Lemma frame_dom h h' : frame h h' -> dom h' = dom h.
Proof.
  intros Hf. apply set_eq. intros l. rewrite !elem_of_dom. by apply frame_is_Some.
Qed.

Lemma frame_lookup h h' l o :
  frame h h' -> h !! l = Some o -> h' !! l = Some o \/ h' !! l = Some (strip_x o).
Proof. intros Hf Hl. destruct (Hf l) as [E|E]; rewrite E, Hl; auto. Qed.

Lemma extends_refl st : extends st st.
Proof. split; [apply frame_refl|done]. Qed.

Lemma extends_trans st1 st2 st3 : extends st1 st2 -> extends st2 st3 -> extends st1 st3.
Proof.
  intros [F12 S12] [F23 S23]. split; [by eapply frame_trans|set_solver].
Qed.

Lemma extends_unseen st st' : extends st st' -> unseen st' <= unseen st.
Proof.
  intros [Hf Hs]. unfold unseen. rewrite (frame_dom _ _ Hf).
  apply subseteq_size. intros l [Hd Hn]%elem_of_difference.
  apply elem_of_difference. split; [done|]. intros Hl. apply Hn. by apply Hs.
Qed.

(** *** One call: what it guarantees *)

Lemma visited_nil st : visited [] st st.
Proof.
  split; [apply extends_refl|]. split; [done|].
  intros l Hl. by apply elem_of_nil in Hl.
Qed.

Lemma visited_prim v st : (forall l, v <> Ref l) -> visited [v] st st.
Proof.
  intros Hv. split; [apply extends_refl|]. split; [done|].
  intros l Hl%list_elem_of_singleton. by destruct (Hv l).
Qed.

Lemma visited_dangling l st : heap st !! l = None -> visited [Ref l] st st.
Proof.
  intros Hl. split; [apply extends_refl|]. split; [done|].
  intros l' [= ->]%list_elem_of_singleton [o Ho]. congruence.
Qed.

Lemma visited_cons v vs st st1 st2 :
  visited [v] st st1 -> visited vs st1 st2 -> visited (v :: vs) st st2.
Proof.
  intros (E1 & I1 & R1) (E2 & I2 & R2). split; [by eapply extends_trans|].
  split.
  - intros G Hs Hc. destruct (I1 G Hs Hc) as [Hs1 Hc1]. by apply I2.
  - intros l [<-|Hin]%elem_of_cons Hl.
    + apply E2. apply R1; [|done]. by apply list_elem_of_singleton.
    + apply R2; [done|]. by apply (frame_is_Some _ _ _ (proj1 E1)).
Qed.

Lemma visited_revisit l o st :
  heap st !! l = Some o -> l ∈ seen st ->
  visited [Ref l] st (write l (strip_x o) st).
Proof.
  intros Hl Hs. split; [|split].
  - split; [by apply frame_write|done].
  - intros G Hst Hcl. split.
    + intros l1 o1 Hl1. simpl in *.
      destruct (decide (l = l1)) as [<-|Hne].
      * rewrite lookup_insert_eq. intros [= <-]. apply strip_x_idem.
      * rewrite lookup_insert_ne by done. by apply Hst.
    + intros l1 o1 l2 Hl1 HG. simpl in *. intros Ho1 Hch Hl2.
      assert (is_Some (heap st !! l2)) as Hl2'.
      { by apply (frame_is_Some _ _ _ (frame_write _ _ _ Hl)). }
      destruct (decide (l = l1)) as [<-|Hne].
      * rewrite lookup_insert_eq in Ho1. injection Ho1 as <-.
        apply children_strip_x in Hch. by apply (Hcl l o l2).
      * rewrite lookup_insert_ne in Ho1 by done. by apply (Hcl l1 o1 l2).
  - by intros l' [= ->]%list_elem_of_singleton _.
Qed.

Lemma unseen_enter l o st :
  heap st !! l = Some o -> l ∉ seen st ->
  unseen (write l (strip_x o) (add_seen l st)) < unseen st.
Proof.
  intros Hl Hs. unfold unseen. simpl.
  rewrite (frame_dom _ _ (frame_write _ _ _ Hl)).
  apply subset_size. split.
  - intros l' [Hd Hn]%elem_of_difference. apply elem_of_difference.
    split; [done|]. intros Hl'. apply Hn. apply elem_of_union. by right.
  - intros Hsub. assert (l ∈ dom (heap st) ∖ seen st) as Hin.
    { apply elem_of_difference. split; [|done]. apply elem_of_dom. by exists o. }
    apply Hsub in Hin. apply elem_of_difference in Hin as [_ Hn].
    apply Hn. apply elem_of_union. left. by apply elem_of_singleton.
Qed.

Lemma visited_enter l o st st' :
  heap st !! l = Some o -> l ∉ seen st ->
  visited (children (strip_x o)) (write l (strip_x o) (add_seen l st)) st' ->
  visited [Ref l] st st'.
Proof.
  intros Hl Hs (E & I & R).
  set (st2 := write l (strip_x o) (add_seen l st)) in *.
  assert (extends st st2) as E0.
  { split; [by apply frame_write|]. simpl. apply union_subseteq_r. }
  assert (l ∈ seen st') as Hseen.
  { apply E. simpl. apply elem_of_union. left. by apply elem_of_singleton. }
  assert (heap st2 !! l = Some (strip_x o)) as Hl2.
  { simpl. apply lookup_insert_eq. }
  assert (heap st' !! l = Some (strip_x o)) as Hl'.
  { destruct (frame_lookup _ _ _ _ (proj1 E) Hl2) as [->| ->]; [done|].
    by rewrite strip_x_idem. }
  split; [by eapply extends_trans|]. split.
  - intros G Hst Hcl.
    assert (seen_stripped st2) as Hst2.
    { intros l1 o1. simpl. intros Hin.
      destruct (decide (l = l1)) as [<-|Hne].
      - rewrite lookup_insert_eq. intros [= <-]. apply strip_x_idem.
      - rewrite lookup_insert_ne by done.
        apply elem_of_union in Hin as [Hin%elem_of_singleton|Hin]; [congruence|].
        by apply Hst. }
    assert (closed_except (G ∪ {[l]}) st2) as Hcl2.
    { intros l1 o1 l2. simpl. intros Hin HG Ho1 Hch Hl2s.
      apply not_elem_of_union in HG as [HG Hne%not_elem_of_singleton].
      rewrite lookup_insert_ne in Ho1 by done.
      apply elem_of_union in Hin as [Hin%elem_of_singleton|Hin]; [congruence|].
      apply elem_of_union. right. apply (Hcl l1 o1 l2); try done.
      by apply (frame_is_Some _ _ _ (frame_write _ _ _ Hl)). }
    destruct (I _ Hst2 Hcl2) as [Hst' Hcl']. split; [done|].
    intros l1 o1 l2 Hin HG Ho1 Hch Hl2s.
    destruct (decide (l1 = l)) as [->|Hne].
    + rewrite Hl' in Ho1. injection Ho1 as <-.
      apply R; [done|]. by apply (frame_is_Some _ _ _ (proj1 E)).
    + apply (Hcl' l1 o1 l2); try done.
      apply not_elem_of_union. split; [done|]. by apply not_elem_of_singleton.
  - by intros l' [= ->]%list_elem_of_singleton _.
Qed.

Lemma forEach_visited n xs :
  (forall v st, unseen st < n ->
     exists st', stripRemainingExpressions n v st = Some st' /\ visited [v] st st') ->
  forall st, unseen st < n ->
    exists st', forEach (stripRemainingExpressions n) xs st = Some st' /\
                visited xs st st'.
Proof.
  intros Hcall. induction xs as [|v rest IH]; intros st Hlt; simpl.
  - exists st. split; [done|apply visited_nil].
  - destruct (Hcall v st Hlt) as (st1 & -> & Hv).
    destruct (IH st1) as (st2 & -> & Hr).
    { pose proof (extends_unseen _ _ (proj1 Hv)). lia. }
    exists st2. split; [done|]. by eapply visited_cons.
Qed.

Lemma strip_visited n v st :
  unseen st < n ->
  exists st', stripRemainingExpressions n v st = Some st' /\ visited [v] st st'.
Proof.
  revert v st. induction n as [|n IH]; intros v st Hlt; [lia|].
  destruct v as [| |b|k|s|l];
    try (exists st; split; [done|by apply visited_prim]).
  simpl. destruct (heap st !! l) as [o|] eqn:Hl.
  2: { exists st. split; [done|by apply visited_dangling]. }
  destruct (decide (l ∈ seen st)) as [Hs|Hs].
  { eexists. split; [done|by apply visited_revisit]. }
  pose proof (unseen_enter _ _ _ Hl Hs) as Hdec.
  destruct (forEach_visited n (children (strip_x o)) IH
              (write l (strip_x o) (add_seen l st))) as (st' & Hrun & Hv); [lia|].
  exists st'. split; [|by eapply visited_enter].
  destruct o as [items|fields]; simpl in *; [|done].
  rewrite <- Hrun. f_equal. unfold write, add_seen. simpl. f_equal.
  by rewrite insert_id.
Qed.

(** More fuel does not change the result. *)
Lemma forEach_mono (f g : value -> state -> option state) xs st st' :
  (forall v s s', f v s = Some s' -> g v s = Some s') ->
  forEach f xs st = Some st' -> forEach g xs st = Some st'.
Proof.
  intros Hfg. revert st. induction xs as [|v rest IH]; intros st; simpl; [done|].
  destruct (f v st) as [st1|] eqn:E; [|done].
  rewrite (Hfg _ _ _ E). apply IH.
Qed.

Lemma strip_fuel_S n v st st' :
  stripRemainingExpressions n v st = Some st' ->
  stripRemainingExpressions (S n) v st = Some st'.
Proof.
  revert v st st'. induction n as [|n IH]; intros v st st'; [done|].
  intros Hrun. simpl in Hrun. simpl.
  destruct v as [| |b|k|s|l]; try done.
  destruct (heap st !! l) as [o|]; [|done].
  destruct (decide (l ∈ seen st)); [done|].
  destruct o as [items|fields]; by eapply forEach_mono.
Qed.

Lemma strip_fuel_le n m v st st' :
  n <= m ->
  stripRemainingExpressions n v st = Some st' ->
  stripRemainingExpressions m v st = Some st'.
Proof.
  induction 1 as [|m Hle IH]; [done|]. intros Hrun. by apply strip_fuel_S, IH.
Qed.

(** Whenever a call returns, it has the guarantees of [strip_visited]. *)
Lemma strip_returns_visited n v st st' :
  stripRemainingExpressions n v st = Some st' -> visited [v] st st'.
Proof.
  intros Hrun.
  destruct (strip_visited (n `max` S (unseen st)) v st) as (st2 & Hrun2 & Hv); [lia|].
  rewrite (strip_fuel_le n _ _ _ _ (Nat.le_max_l _ _) Hrun) in Hrun2.
  by injection Hrun2 as <-.
Qed.

(** *** Reachability *)

Lemma reachable_is_ref h v l : reachable h v l -> exists l0, v = Ref l0.
Proof. destruct 1; eauto. Qed.

Lemma reachable_target h v l : reachable h v l -> is_Some (h !! l).
Proof. induction 1; [by eexists|done]. Qed.

Lemma reachable_frame h h' v l :
  well_formed h -> frame h h' -> reachable h v l -> reachable h' v l.
Proof.
  intros Hwf Hf. induction 1 as [l o Hl|l o v l' Hl Hch Hr IH].
  - destruct (frame_lookup _ _ _ _ Hf Hl); by eapply reach_root.
  - destruct (frame_lookup _ _ _ _ Hf Hl) as [Hl'|Hl'].
    + by eapply reach_child.
    + eapply reach_child; [done| |done].
      destruct (reachable_is_ref _ _ _ Hr) as [l0 ->].
      apply children_strip_x_ref; [|done]. by apply (Hwf l).
Qed.

Lemma reachable_seen st v l :
  closed_except ∅ st ->
  reachable (heap st) v l ->
  (forall l0, v = Ref l0 -> l0 ∈ seen st) ->
  l ∈ seen st.
Proof.
  intros Hcl. induction 1 as [l o Hl|l o v l' Hl Hch Hr IH]; intros Hroot.
  - by apply Hroot.
  - apply IH. intros l0 ->.
    apply (Hcl l o l0); [by apply Hroot|apply not_elem_of_empty|done|done|].
    inversion Hr; by eexists.
Qed.

(** C8. [stripRemainingExpressions] terminates on every object graph, cyclic
    or with shared objects: a recursion depth exceeding the number of objects
    not yet in [seen] suffices, whatever [seen] holds, and a greater bound
    gives the same result; with the empty [seen] of the initial call that
    number is the number of objects.  On an object already in [seen] the
    call returns without recursing (one level of recursion is enough) and
    without touching [seen] or any other object; the object itself holds no
    string-valued [x] afterwards and is otherwise as before: an array is
    unchanged, every property other than [x] keeps its value, and an [x]
    that is not a string stays.  After the initial call every object
    reachable from the argument is in [seen] and holds no string-valued
    [x]. *)
Theorem strip_terminates_and_strips :
  (forall obj st, exists st',
     forall fuel, unseen st < fuel ->
       stripRemainingExpressions fuel obj st = Some st') /\
  (forall h, unseen (initial h) = size h) /\
  (forall fuel l o st,
     heap st !! l = Some o -> l ∈ seen st ->
     exists o',
       stripRemainingExpressions (S fuel) (Ref l) st
       = Some (State (<[l := o']> (heap st)) (seen st)) /\
       expression_free o' /\
       match o, o' with
       | Arr items, Arr items' => items' = items
       | Obj fields, Obj fields' =>
           (forall key, key <> "x" ->
                        lookup_field key fields' = lookup_field key fields) /\
           match lookup_field "x" fields with
           | Some (Str _) => lookup_field "x" fields' = None
           | _ => fields' = fields
           end
       | _, _ => False
       end) /\
  (forall h obj fuel st' l,
     well_formed h ->
     stripRemainingExpressions fuel obj (initial h) = Some st' ->
     reachable h obj l ->
     l ∈ seen st' /\
     exists o, heap st' !! l = Some o /\ expression_free o).
Proof.
  split; [|split; [|split]].
  - intros obj st.
    destruct (strip_visited (S (unseen st)) obj st) as (st' & Hrun & _); [lia|].
    exists st'. intros fuel Hlt. eapply strip_fuel_le; [|done]. lia.
  - intros h. unfold unseen. simpl. rewrite difference_empty_L. apply size_dom.
  - intros fuel l o st Hl Hs. exists (strip_x o). split; [|split].
    + simpl. rewrite Hl. by destruct (decide (l ∈ seen st)).
    + apply expression_free_strip_x.
    + destruct o as [items|fields]; [done|]. simpl. unfold delete_x.
      destruct (lookup_field "x" fields) as [[| |?|?|?|?]|] eqn:Ex; try done.
      split; [|apply lookup_delete_field_eq].
      intros key Hk. apply lookup_delete_field_ne. congruence.
  - intros h obj fuel st' l Hwf Hrun Hr.
    destruct (strip_returns_visited _ _ _ _ Hrun) as ([Hf _] & Hinv & Hroot).
    destruct (Hinv ∅) as [Hst Hcl].
    { intros l0 o0 Hin. by apply not_elem_of_empty in Hin. }
    { intros l0 o0 l1 Hin. by apply not_elem_of_empty in Hin. }
    assert (l ∈ seen st') as Hseen.
    { apply (reachable_seen st' obj); [done|by apply (reachable_frame h)|].
      intros l0 ->. apply Hroot; [by apply list_elem_of_singleton|].
      inversion Hr; by eexists. }
    split; [done|].
    assert (is_Some (heap st' !! l)) as [o Ho].
    { apply (frame_is_Some _ _ _ Hf). simpl. by eapply reachable_target. }
    exists o. split; [done|]. rewrite <- (Hst l o Hseen Ho).
    apply expression_free_strip_x.
Qed.

Lemma strip_terminates_and_strips_witness :
  well_formed cyclic_graph /\
  reachable cyclic_graph (Ref 1%positive) 3%positive /\
  exists st',
    stripRemainingExpressions 4 (Ref 1%positive) (initial cyclic_graph) = Some st' /\
    3%positive ∈ seen st' /\
    exists o, heap st' !! 3%positive = Some o /\ expression_free o.
Proof.
  assert (well_formed cyclic_graph) as Hwf.
  { unfold well_formed, cyclic_graph.
    repeat (apply map_Forall_insert_2; [compute_done|]).
    apply map_Forall_empty. }
  assert (reachable cyclic_graph (Ref 1%positive) 3%positive) as Hr.
  { eapply reach_child; [reflexivity|apply elem_of_cons; right; apply elem_of_cons; by left|].
    eapply reach_child; [reflexivity|do 2 (apply elem_of_cons; right); apply elem_of_cons; by left|].
    eapply reach_root. reflexivity. }
  split; [exact Hwf|]. split; [exact Hr|].
  destruct (proj1 strip_terminates_and_strips (Ref 1%positive) (initial cyclic_graph))
    as [st' Hrun].
  assert (unseen (initial cyclic_graph) < 4) as Hfuel.
  { rewrite (proj1 (proj2 strip_terminates_and_strips)). vm_compute. lia. }
  exists st'. split; [exact (Hrun 4 Hfuel)|].
  exact (proj2 (proj2 (proj2 strip_terminates_and_strips))
           cyclic_graph (Ref 1%positive) 4 st' 3%positive Hwf (Hrun 4 Hfuel) Hr).
Defined.

(** C10. [stripRemainingExpressions] changes the store only by deleting
    string-valued [x] properties: arrays are unchanged, an object whose [x]
    is absent or not a string is unchanged, and an object that loses its
    string-valued [x] keeps every other property, in order, with its
    value. *)
Theorem strip_touches_only_string_x fuel obj st st' :
  stripRemainingExpressions fuel obj st = Some st' ->
  forall l,
    match heap st !! l with
    | None => heap st' !! l = None
    | Some (Arr items) => heap st' !! l = Some (Arr items)
    | Some (Obj fields) =>
        exists fields',
          heap st' !! l = Some (Obj fields') /\
          (fields' = fields \/
           (exists s, lookup_field "x" fields = Some (Str s)) /\
           fields' = delete_field "x" fields) /\
          (forall key, key <> "x" -> lookup_field key fields' = lookup_field key fields) /\
          ((forall s, lookup_field "x" fields <> Some (Str s)) -> fields' = fields)
    end.
Proof.
  intros Hrun l.
  destruct (strip_returns_visited _ _ _ _ Hrun) as ([Hf _] & _).
  destruct (heap st !! l) as [[items|fields]|] eqn:Hl.
  - destruct (frame_lookup _ _ _ _ Hf Hl) as [->| ->]; done.
  - assert (heap st' !! l = Some (Obj fields) \/
            heap st' !! l = Some (Obj (delete_x fields))) as Hcases.
    { destruct (frame_lookup _ _ _ _ Hf Hl) as [->| ->]; auto. }
    unfold delete_x in Hcases.
    destruct (lookup_field "x" fields) as [[| |b|n|s|l']|] eqn:Ex;
      try (exists fields; destruct Hcases as [->| ->]; by auto).
    destruct Hcases as [Hc|Hc].
    + exists fields. split; [done|]. split; [by left|]. split; [done|]. done.
    + exists (delete_field "x" fields). split; [done|]. split; [right; eauto|].
      split.
      * intros key Hk. by apply lookup_delete_field_ne.
      * intros Hno. by destruct (Hno s).
  - destruct (Hf l) as [->| ->]; by rewrite Hl.
Qed.

Lemma strip_touches_only_string_x_witness :
  stripRemainingExpressions 5 (Ref 1%positive) (initial easing_graph)
  = Some easing_result /\
  forall l,
    match heap (initial easing_graph) !! l with
    | None => heap easing_result !! l = None
    | Some (Arr items) => heap easing_result !! l = Some (Arr items)
    | Some (Obj fields) =>
        exists fields',
          heap easing_result !! l = Some (Obj fields') /\
          (fields' = fields \/
           (exists s, lookup_field "x" fields = Some (Str s)) /\
           fields' = delete_field "x" fields) /\
          (forall key, key <> "x" -> lookup_field key fields' = lookup_field key fields) /\
          ((forall s, lookup_field "x" fields <> Some (Str s)) -> fields' = fields)
    end.
Proof.
  assert (stripRemainingExpressions 5 (Ref 1%positive) (initial easing_graph)
          = Some easing_result) as Hrun by (vm_compute; reflexivity).
  split; [exact Hrun|].
  exact (strip_touches_only_string_x 5 (Ref 1%positive) (initial easing_graph)
           easing_result Hrun).
Defined.

End StripFacts.

(** ** Further properties of [expandTmCycles] *)

Lemma length_forEach (f : value -> value * completion) items :
  length (fst (forEach f items)) = length items.
Proof.
  induction items as [|x rest IH]; [done|]. simpl.
  destruct (f x) as [x' [|e]]; [|done].
  destruct (forEach f rest) as [rest' c]. simpl in *. by rewrite IH.
Qed.

Lemma forEach_fixed (f : value -> value * completion) items :
  Forall (fun x => f x = (x, Normal)) items -> forEach f items = (items, Normal).
Proof.
  induction 1 as [|x rest Hx _ IH]; [done|]. simpl. by rewrite Hx, IH.
Qed.

(** The first exception ends the iteration: the entries before it have been
    through the callback, the others are as they were. *)
Lemma forEach_thrown (f : value -> value * completion) items i x e :
  items !! i = Some x -> snd (f x) = Thrown e ->
  (forall j y, j < i -> items !! j = Some y -> snd (f y) = Normal) ->
  forEach f items
  = (map (fun y => fst (f y)) (take i items) ++ fst (f x) :: drop (S i) items, Thrown e).
Proof.
  revert i. induction items as [|y rest IH]; intros i Hi Hx Hbefore; [done|].
  destruct i as [|i]; simpl in *.
  - injection Hi as ->. destruct (f x) as [x' c]. simpl in *. subst c.
    by rewrite drop_0.
  - pose proof (Hbefore 0 y (Nat.lt_0_succ i) eq_refl) as Hy.
    destruct (f y) as [y' c]. simpl in Hy. subst c.
    rewrite (IH i Hi Hx); [done|].
    intros j z Hj Hz. apply (Hbefore (S j) z); [lia|done].
Qed.

Section ExpandFurther.
Context {B : Builtins}.

Lemma walk_layer_thrown layer e :
  snd (V8.walk_layer layer) = Thrown e -> fst (V8.walk_layer layer) = layer.
Proof.
  unfold V8.walk_layer. by destruct (V8.expanded_tm layer) as [[tm'|]|].
Qed.

Lemma walk_layer_frame layer key :
  key <> "tm" -> get (fst (V8.walk_layer layer)) key = get layer key.
Proof.
  intros Hk. unfold V8.walk_layer.
  destruct (V8.expanded_tm layer) as [[tm'|]|]; simpl; try done.
  by rewrite get_store_back_ne.
Qed.

Lemma walk_asset_frame a key :
  key <> "layers" -> get (fst (V8.walk_asset a)) key = get a key.
Proof.
  intros Hk. unfold V8.walk_asset.
  destruct (get a "layers") as [layers|e]; [|done].
  destruct (V8.walk layers) as [layers' c]. simpl. by rewrite get_store_back_ne.
Qed.

Lemma expanded_tm_frame layer tm tm' key :
  get layer "tm" = Ok tm -> V8.expanded_tm layer = Ok (Some tm') ->
  key <> "k" -> key <> "x" -> get tm' key = get tm key.
Proof.
  intros Htm Hrun Hk Hx.
  destruct (expanded_tm_Some _ _ Hrun)
    as (tm0 & x & items & props & tl & tf & cd & out & tm1 & Htm0 & _ & _ & _ & _
        & _ & _ & _ & _ & _ & _ & Hset & ->).
  rewrite Htm in Htm0. injection Htm0 as <-.
  destruct tm as [| |?|?|?|ti tp|fields]; try done; injection Hset as <-; simpl;
    by rewrite lookup_delete_prop_ne, lookup_assign_prop_ne.
Qed.

Lemma layer_frame_refl layer : layer_frame layer layer.
Proof. split; [done|by left]. Qed.

Lemma walk_layer_layer_frame layer : layer_frame layer (fst (V8.walk_layer layer)).
Proof.
  split; [intros key Hk; by apply walk_layer_frame|].
  unfold V8.walk_layer.
  destruct (V8.expanded_tm layer) as [[tm'|]|] eqn:Hrun; simpl; [|by left..].
  right.
  destruct (expanded_tm_Some _ _ Hrun)
    as (tm & x & items & props & tl & tf & cd & out & tm1 & Htm & Ttm & _).
  exists tm, tm'. split; [done|]. split.
  - eapply get_store_back; [done|]. by intros ->.
  - intros key Hk Hx. by apply (expanded_tm_frame layer).
Qed.

Lemma layers_frame_refl layers : layers_frame layers layers.
Proof.
  split; [done|]. intros j layer layer' Hj Hj'.
  rewrite Hj in Hj'. injection Hj' as <-. apply layer_frame_refl.
Qed.

Lemma forEach_layers_frame layers :
  layers_frame layers (fst (forEach V8.walk_layer layers)).
Proof.
  split; [apply length_forEach|]. intros j layer layer' Hj Hj'.
  destruct (forEach_lookup V8.walk_layer layers j layer Hj) as [Hlk|Hlk];
    rewrite Hlk in Hj'; injection Hj' as <-;
    [apply layer_frame_refl|apply walk_layer_layer_frame].
Qed.

(** What the callback of [assets.forEach] may change of an asset. *)
Lemma walk_asset_asset_frame a a' :
  a' = a \/ a' = fst (V8.walk_asset a) ->
  (forall key, key <> "layers" -> get a' key = get a key) /\
  (forall layers props,
     get a "layers" = Ok (VArr layers props) ->
     exists layers',
       get a' "layers" = Ok (VArr layers' props) /\ layers_frame layers layers') /\
  (forall w, get a "layers" = Ok w -> is_array w = false -> get a' "layers" = Ok w).
Proof.
  intros [->| ->].
  - split; [done|]. split; [|done].
    intros layers props Hl. exists layers. split; [done|apply layers_frame_refl].
  - split; [intros key Hk; by apply walk_asset_frame|]. split.
    + intros layers props Hl. exists (fst (forEach V8.walk_layer layers)).
      rewrite (walk_asset_layers _ _ Hl), walk_array. simpl.
      split; [done|apply forEach_layers_frame].
    + intros w Hl Hw. rewrite (walk_asset_layers _ _ Hl).
      by rewrite walk_not_array.
Qed.

(** X1. [expandTmCycles] touches nothing but the time-remaps, however the
    call completes.  Every property of the document other than [layers] and
    [assets] is as before.  A [layers] array, at top level or in an asset,
    keeps its length, and its entry [j] after the call is the entry [j] from
    before the call with at most [tm] changed, and of [tm] at most [k] and
    [x].  The [assets] array keeps its length, and its entry [i] is the entry
    [i] from before with at most [layers] changed.  A [layers] that is not an
    array is left as it is. *)
Theorem expansion_frame :
  (forall data key,
     key <> "layers" -> key <> "assets" ->
     get (fst (V8.expandTmCycles data)) key = get data key) /\
  (forall data layers props,
     get data "layers" = Ok (VArr layers props) ->
     exists layers',
       get (fst (V8.expandTmCycles data)) "layers" = Ok (VArr layers' props) /\
       layers_frame layers layers') /\
  (forall data w,
     get data "layers" = Ok w -> is_array w = false ->
     get (fst (V8.expandTmCycles data)) "layers" = Ok w) /\
  (forall data assets props,
     get data "assets" = Ok (VArr assets props) ->
     exists assets',
       get (fst (V8.expandTmCycles data)) "assets" = Ok (VArr assets' props) /\
       length assets' = length assets /\
       forall i a a',
         assets !! i = Some a -> assets' !! i = Some a' ->
         (forall key, key <> "layers" -> get a' key = get a key) /\
         (forall layers lprops,
            get a "layers" = Ok (VArr layers lprops) ->
            exists layers',
              get a' "layers" = Ok (VArr layers' lprops) /\
              layers_frame layers layers') /\
         (forall w, get a "layers" = Ok w -> is_array w = false ->
                    get a' "layers" = Ok w)).
Proof.
  split; [|split; [|split]].
  - intros data key Hl Ha. unfold V8.expandTmCycles.
    destruct (get data "layers") as [layers|e]; [|done].
    destruct (V8.walk layers) as [layers' [|e]]; simpl.
    + destruct (get (store_back data "layers" layers') "assets") as [a|e];
        simpl; [|by rewrite get_store_back_ne].
      destruct a as [| |?|?|?|assets props|?]; simpl;
        try (by rewrite get_store_back_ne).
      destruct (forEach V8.walk_asset assets) as [assets' c]. simpl.
      by rewrite !get_store_back_ne.
    + by rewrite get_store_back_ne.
  - intros data layers props Hl.
    exists (fst (forEach V8.walk_layer layers)).
    rewrite (expandTmCycles_layers _ _ Hl), walk_array. simpl.
    split; [done|apply forEach_layers_frame].
  - intros data w Hl Hw.
    by rewrite (expandTmCycles_layers _ _ Hl), walk_not_array.
  - intros data assets props Ha.
    assert (nullish data = false) as Hn by (by destruct data).
    unfold V8.expandTmCycles. rewrite (get_non_nullish _ "layers" Hn).
    destruct (V8.walk (field data "layers")) as [layers' [|e]]; simpl.
    + assert (get (store_back data "layers" layers') "assets" = Ok (VArr assets props))
        as Ha' by (by rewrite get_store_back_ne).
      rewrite Ha'. pose proof (length_forEach V8.walk_asset assets) as Hlen.
      pose proof (forEach_lookup V8.walk_asset assets) as Hlk.
      destruct (forEach V8.walk_asset assets) as [assets' c]. simpl in *.
      exists assets'. split; [by eapply get_store_back_gen|]. split; [done|].
      intros i a a' Hi Hi'. apply walk_asset_asset_frame.
      destruct (Hlk i a Hi) as [H1|H1]; rewrite H1 in Hi'; injection Hi' as <-; auto.
    + exists assets. rewrite get_store_back_ne by done. split; [done|]. split; [done|].
      intros i a a' Hi Hi'. rewrite Hi in Hi'. injection Hi' as <-.
      apply walk_asset_asset_frame. by left.
Qed.

(** X2. The first layer on which the callback throws ends the whole call
    with that exception: the layers before it have been through the
    callback, that layer and all the following ones are as they were, and
    the assets are not visited. *)
Theorem expansion_stops_at_exception data layers props i layer e :
  get data "layers" = Ok (VArr layers props) ->
  layers !! i = Some layer ->
  snd (V8.walk_layer layer) = Thrown e ->
  (forall j x, j < i -> layers !! j = Some x -> snd (V8.walk_layer x) = Normal) ->
  snd (V8.expandTmCycles data) = Thrown e /\
  get (fst (V8.expandTmCycles data)) "assets" = get data "assets" /\
  exists layers',
    get (fst (V8.expandTmCycles data)) "layers" = Ok (VArr layers' props) /\
    (forall j x, j < i -> layers !! j = Some x ->
                 layers' !! j = Some (fst (V8.walk_layer x))) /\
    (forall j, i <= j -> layers' !! j = layers !! j).
Proof.
  intros Hl Hi He Hbefore.
  pose proof (forEach_thrown V8.walk_layer layers i layer e Hi He Hbefore) as Hrun.
  rewrite (walk_layer_thrown _ _ He) in Hrun.
  set (layers' := map (fun y => fst (V8.walk_layer y)) (take i layers)
                  ++ layer :: drop (S i) layers) in *.
  assert (V8.expandTmCycles data
          = (store_back data "layers" (VArr layers' props), Thrown e)) as ->.
  { unfold V8.expandTmCycles. rewrite Hl, walk_array, Hrun. done. }
  simpl. split; [done|]. split; [by rewrite get_store_back_ne|].
  exists layers'. split; [by eapply get_store_back_gen|].
  assert (length (map (fun y => fst (V8.walk_layer y)) (take i layers)) = i) as Hlen.
  { rewrite length_map, length_take. apply lookup_lt_Some in Hi. lia. }
  split.
  - intros j x Hj Hx. unfold layers'. rewrite lookup_app_l by lia.
    change (map ?f ?l) with (f <$> l).
    rewrite list_lookup_fmap, lookup_take_lt by done. by rewrite Hx.
  - intros j Hj. unfold layers'. rewrite lookup_app_r by lia. rewrite Hlen.
    destruct (j - i) as [|d] eqn:Ed.
    + assert (j = i) as -> by lia. by rewrite Hi.
    + simpl. rewrite lookup_drop. f_equal. lia.
Qed.

Lemma walk_layer_unmarked layer :
  unmarked layer = true -> V8.walk_layer layer = (layer, Normal).
Proof.
  intros [Hn%negb_true_iff Hu]%andb_prop.
  unfold V8.walk_layer, V8.expanded_tm, V8.cycle_plan.
  rewrite (get_non_nullish _ "tm" Hn). simpl.
  destruct (truthy (field layer "tm")) eqn:Htm; simpl; [|done].
  simpl in Hu.
  assert (nullish (field layer "tm") = false) as Hnn
    by (by destruct (field layer "tm")).
  rewrite (get_non_nullish _ "x" Hnn). simpl.
  destruct (field (field layer "tm") "x") as [| |b|n|s|xi xp|xf] eqn:Ex;
    simpl in *; try done.
  - by destruct b.
  - apply negb_true_iff in Hu. by rewrite Hu.
  - destruct (String.eqb s ""); simpl; [done|].
    apply negb_true_iff in Hu. by rewrite Hu.
Qed.

Lemma walk_unmarked layers :
  unmarked_layers layers = true -> V8.walk layers = (layers, Normal).
Proof.
  destruct layers as [| |?|?|?|items props|?]; try done. intros Hu.
  rewrite walk_array, forEach_fixed; [done|].
  apply Forall_forall. intros x Hx. apply walk_layer_unmarked.
  apply (proj1 (forallb_forall _ _) Hu). by apply list_elem_of_In.
Qed.

Lemma walk_asset_unmarked a :
  unmarked_asset a = true -> V8.walk_asset a = (a, Normal).
Proof.
  intros [Hn%negb_true_iff Hu%walk_unmarked]%andb_prop.
  unfold V8.walk_asset. rewrite (get_non_nullish _ "layers" Hn), Hu.
  by rewrite store_back_field.
Qed.

(** X3. A document in which no layer, at top level or in an asset, holds a
    loop expression ([tm] or [tm.x] falsy, or [tm.x] a string without
    [loopOut]) comes out of [expandTmCycles] exactly as it went in, and the
    call completes normally. *)
Theorem unmarked_document_unchanged data :
  unmarked_document data = true ->
  V8.expandTmCycles data = (data, Normal).
Proof.
  unfold unmarked_document.
  intros [[Hn%negb_true_iff Hl%walk_unmarked]%andb_prop Ha]%andb_prop.
  unfold V8.expandTmCycles.
  rewrite (get_non_nullish _ "layers" Hn), Hl, store_back_field.
  rewrite (get_non_nullish _ "assets" Hn).
  destruct (field data "assets") as [| |?|?|?|assets props|?] eqn:Ea; try done.
  rewrite forEach_fixed.
  - rewrite <- Ea. by rewrite store_back_field.
  - apply Forall_forall. intros a Hin. apply walk_asset_unmarked.
    apply (proj1 (forallb_forall _ _) Ha). by apply list_elem_of_In.
Qed.

End ExpandFurther.

(** ** Coverage of the layer's duration; keyframes without [t] *)

Section ExpandCoverage.
Context {B : Builtins}.

(** The callback on a layer with integer frame numbers. *)
Lemma walk_layer_integral layer tm kfs t0 tn dur :
  eligible layer tm kfs (Int (tn - t0)) (Int dur) ->
  integral layer kfs t0 tn dur ->
  (- (tn - t0) < dur)%Z ->
  exists tm',
    V8.walk_layer layer = (store_back layer "tm" tm', Normal) /\
    get (store_back layer "tm" tm') "tm" = Ok tm' /\
    get tm' "x" = Ok VUndef /\
    get tm' "k"
    = Ok (VArr (unrolled (Z.to_nat (ceil_div dur (tn - t0) + 1)) 0 (Int (tn - t0)) kfs)
            []).
Proof.
  intros He Hi Hdur.
  destruct (integral_numbers _ _ _ _ _ _ He Hi Hdur) as (Hpos & Hc & Hcyc & HT).
  pose proof (walk_layer_eligible _ _ _ _ _ He) as Hw.
  unfold V8.turns in Hw. rewrite Hcyc, HT in Hw.
  destruct Hi as [_ _ _ _ _ Hfit].
  by destruct (Z.leb_spec ((ceil_div dur (tn - t0) + 1) * Z.of_nat (length kfs))
                 max_length) as [_|Hbad]; [|lia].
Qed.

(** X4. The expansion covers the layer's duration with one cycle to spare.
    For an eligible layer with integer frame numbers and at least one cycle,
    every number computed being below [2^53] in magnitude and the copies
    fitting an array: the last emitted keyframe is at
    [t0 + cycles * cycleDur], which is at least [t0 + (op - ip) + cycleDur] and
    less than [t0 + (op - ip) + 2 * cycleDur] ([t0] the first original [t]);
    every emitted [t] lies between [t0] and that bound; and where two cycles
    meet, the last keyframe of one and the first keyframe of the next have
    the same [t]. *)
Theorem expansion_covers_duration layer tm kfs t0 tn dur :
  eligible layer tm kfs (Int (tn - t0)) (Int dur) ->
  integral layer kfs t0 tn dur ->
  ascending kfs ->
  (- (tn - t0) < dur)%Z ->
  exists tm' out kfl,
    get (fst (V8.walk_layer layer)) "tm" = Ok tm' /\
    get tm' "k" = Ok (VArr out []) /\
    last out = Some kfl /\
    time_of kfl = Some (Int (t0 + (ceil_div dur (tn - t0) + 1) * (tn - t0))) /\
    (t0 + dur + (tn - t0) <= t0 + (ceil_div dur (tn - t0) + 1) * (tn - t0)
     < t0 + dur + 2 * (tn - t0))%Z /\
    Forall (fun kf => exists t,
              time_of kf = Some (Int t) /\
              (t0 <= t <= t0 + (ceil_div dur (tn - t0) + 1) * (tn - t0))%Z) out /\
    (forall c,
       S c < Z.to_nat (ceil_div dur (tn - t0) + 1) ->
       exists a b,
         out !! (S c * length kfs - 1) = Some a /\
         out !! (S c * length kfs) = Some b /\
         time_of a = time_of b).
Proof.
  intros He Hi Hasc Hdur.
  destruct (walk_layer_integral _ _ _ _ _ _ He Hi Hdur) as (tm' & -> & Htm' & Hx & Hk).
  destruct (integral_numbers _ _ _ _ _ _ He Hi Hdur) as (Hpos & Hc & _ & _).
  destruct Hi as [Ht H0 Hn _ (Sd & S0 & Sc & Sn) Hfit].
  destruct He as [_ _ _ Hlen Hkfs _ _].
  pose proof (ascending_bounds kfs t0 tn Ht Hasc H0 Hn) as Hb.
  pose proof (ceil_div_spec dur (tn - t0) Hpos) as Hceil.
  set (cd := (tn - t0)%Z) in *. set (C := (ceil_div dur cd + 1)%Z) in *.
  assert (kfs <> []) as Hne by (intros ->; simpl in Hlen; lia).
  destruct (last kfs) as [kfn|] eqn:El; [|done]. simpl in Hn.
  assert (is_keyframe kfn = true) as Hkn.
  { apply last_Some_elem_of in El. by apply (proj1 (Forall_forall _ _) Hkfs). }
  destruct (head kfs) as [kf0|] eqn:Eh; [|done]. simpl in H0.
  assert (is_keyframe kf0 = true) as Hk0.
  { apply head_Some_elem_of in Eh. by apply (proj1 (Forall_forall _ _) Hkfs). }
  assert (forall j, (0 <= j <= C)%Z -> safe (j * cd)) as Sj
    by (intros j Hj; unfold safe in *; nia).
  assert (forall j t, (0 <= j <= C)%Z -> (t0 <= t <= tn)%Z -> safe (t + j * cd)) as St
    by (intros j t Hj Htt; unfold safe in *; nia).
  destruct (Z.to_nat C) as [|n] eqn:En; [lia|].
  exists tm', (unrolled (S n) 0 (Int cd) kfs),
    (shifted (num_mul (Int (0 + Z.of_nat n)) (Int cd)) kfn).
  simpl fst. split; [done|]. split; [done|].
  split; [by rewrite last_unrolled, El|].
  split.
  { rewrite (time_of_shifted _ _ _ Hn Hkn).
    rewrite num_mul_Int by (apply Sj; lia).
    rewrite num_add_Int by (apply St; lia). do 2 f_equal. unfold cd. nia. }
  split; [unfold cd in *; nia|]. split.
  - apply Forall_forall. intros kf' Hin.
    destruct (elem_of_unrolled _ _ _ _ _ Hin) as (j & kf & Hj & Hkf & ->).
    destruct (Hb kf Hkf) as (t & Htk & Hbt).
    assert (is_keyframe kf = true) as Hkk
      by (by apply (proj1 (Forall_forall _ _) Hkfs)).
    exists (t + (0 + Z.of_nat j) * cd)%Z. split.
    + rewrite (time_of_shifted _ _ _ Htk Hkk).
      rewrite num_mul_Int by (apply Sj; lia).
      by rewrite num_add_Int by (apply St; lia).
    + unfold cd in *. nia.
  - intros c Hcc.
    assert (kfs !! (length kfs - 1) = Some kfn) as Hlast.
    { rewrite last_lookup in El.
      by replace (length kfs - 1) with (pred (length kfs)) by lia. }
    assert (kfs !! 0 = Some kf0) as Hfirst by (by rewrite <- head_lookup).
    exists (shifted (num_mul (Int (0 + Z.of_nat c)) (Int cd)) kfn),
      (shifted (num_mul (Int (0 + Z.of_nat (S c))) (Int cd)) kf0).
    split; [|split].
    + rewrite <- (lookup_unrolled (S n) 0 (Int cd) kfs c (length kfs - 1) kfn)
        by (done || lia).
      f_equal. simpl. lia.
    + rewrite <- (lookup_unrolled (S n) 0 (Int cd) kfs (S c) 0 kf0) by (done || lia).
      f_equal. lia.
    + rewrite (time_of_shifted _ _ _ Hn Hkn), (time_of_shifted _ _ _ H0 Hk0).
      rewrite !num_mul_Int by (apply Sj; lia).
      rewrite !num_add_Int by (apply St; lia).
      do 2 f_equal. unfold cd. lia.
Qed.

(** X5. Keyframes without [t] are not skipped: when the first or the last
    entry of [tm.k] is an object without [t] (the other one an object whose
    [t] is primitive or absent), the cycle duration is [NaN], the test
    [cycleDur <= 0] fails, no cycle is emitted, and the callback replaces
    [tm.k] by the empty array and deletes [tm.x]. *)
Theorem untimed_boundary_empties_keyframes layer tm s items props kf0 kfn :
  get layer "tm" = Ok tm ->
  get tm "x" = Ok (VStr s) -> str_includes "loopOut" s = true ->
  get tm "k" = Ok (VArr items props) -> 2 <= length items ->
  head items = Some kf0 -> last items = Some kfn ->
  keyframe_shaped kf0 = true -> keyframe_shaped kfn = true ->
  field kf0 "t" = VUndef \/ field kfn "t" = VUndef ->
  primitive (field layer "op") = true -> primitive (field layer "ip") = true ->
  exists tm',
    V8.walk_layer layer = (store_back layer "tm" tm', Normal) /\
    get (store_back layer "tm" tm') "tm" = Ok tm' /\
    get tm' "k" = Ok (VArr [] []) /\
    get tm' "x" = Ok VUndef.
Proof.
  intros Htm Hx Hm Hk Hlen Hh Hl Hs0 Hsn Hundef Hop Hip.
  assert (exists tm1, set tm "k" (VArr [] []) = Ok tm1) as [tm1 Hset].
  { destruct tm; try done; eexists; reflexivity. }
  exists (delete tm1 "x").
  assert (V8.cycle_plan layer = Ok (Some (tm, items, NaN, NaN))) as Hplan.
  { unfold V8.cycle_plan. rewrite Htm. simpl.
    assert (truthy tm = true) as -> by (by destruct tm).
    simpl. rewrite Hx. simpl.
    assert (s <> "") as Hne by (by apply (str_includes_nonempty "loopOut")).
    assert (String.eqb s "" = false) as -> by (by apply String.eqb_neq).
    simpl. rewrite Hm. simpl. rewrite Hk. simpl.
    assert ((length items <? 2)%nat = false) as -> by (apply Nat.ltb_ge; lia).
    rewrite !nth_lookup.
    replace (length items - 1) with (pred (length items)) by lia.
    rewrite <- last_lookup, <- head_lookup, Hh, Hl. simpl.
    assert (nullish kf0 = false) as Hn0 by (by destruct kf0).
    assert (nullish kfn = false) as Hnn by (by destruct kfn).
    rewrite (get_non_nullish _ "t" Hnn). simpl.
    rewrite (get_non_nullish _ "t" Hn0). simpl.
    assert (primitive (field kf0 "t") = true) as Hp0 by (by destruct kf0).
    assert (primitive (field kfn "t") = true) as Hpn by (by destruct kfn).
    destruct (ToNumber_primitive _ Hp0) as [x0 Hx0].
    destruct (ToNumber_primitive _ Hpn) as [xn Hxn].
    assert (js_sub (field kfn "t") (field kf0 "t") = Ok NaN) as ->.
    { unfold js_sub. rewrite Hxn. simpl. rewrite Hx0. simpl.
      f_equal. apply num_sub_NaN.
      destruct Hundef as [Hu|Hu]; rewrite Hu in *; simpl in *;
        [right|left]; congruence. }
    simpl. change (num_leb NaN (Int 0)) with false. cbv iota.
    assert (nullish layer = false) as Hnl by (by destruct layer).
    rewrite (get_non_nullish _ "op" Hnl), (get_non_nullish _ "ip" Hnl). simpl.
    destruct (js_sub_primitive (or_else (field layer "op") (VNum (Int 900)))
                (or_else (field layer "ip") (VNum (Int 0)))) as [dur ->].
    { unfold or_else. by destruct (truthy (field layer "op")). }
    { unfold or_else. by destruct (truthy (field layer "ip")). }
    simpl. by rewrite cycles_NaN. }
  assert (V8.expanded_tm layer = Ok (Some (delete tm1 "x"))) as Hrun.
  { unfold V8.expanded_tm. rewrite Hplan. simpl.
    change (V8.turns NaN) with 0. cbn [V8.cycle_loop].
    change (num_ltb (Int 0) NaN) with false. simpl. by rewrite Hset. }
  unfold V8.walk_layer. rewrite Hrun. split; [done|]. split.
  - eapply get_store_back; [done|]. by intros ->.
  - destruct tm as [| |?|?|?|ti tp|fields]; try done; injection Hset as <-; simpl;
      rewrite lookup_delete_prop_eq, lookup_delete_prop_ne by done;
      by rewrite lookup_assign_prop_eq.
Qed.

End ExpandCoverage.

(** ** [stripRemainingExpressions]: what is visited, what is left alone *)

Module StripReach.
Import Strip StripFacts.

Lemma frame_lookup_inv h h' l o' :
  frame h h' -> h' !! l = Some o' ->
  exists o, h !! l = Some o /\ (o' = o \/ o' = strip_x o).
Proof.
  intros Hf Hl. destruct (Hf l) as [E|E]; rewrite E in Hl.
  - exists o'. auto.
  - destruct (h !! l) as [o|]; [|done]. injection Hl as <-. exists o. auto.
Qed.

Lemma reachable_frame_inv h h' v l :
  frame h h' -> reachable h' v l -> reachable h v l.
Proof.
  intros Hf. induction 1 as [l o' Hl|l o' v l' Hl Hch Hr IH].
  - destruct (frame_lookup_inv _ _ _ _ Hf Hl) as (o & Ho & _). by eapply reach_root.
  - destruct (frame_lookup_inv _ _ _ _ Hf Hl) as (o & Ho & [->| ->]).
    + by eapply reach_child.
    + eapply reach_child; [done| |done]. by apply children_strip_x.
Qed.

Lemma frame_well_formed h h' : frame h h' -> well_formed h -> well_formed h'.
Proof.
  intros Hf Hwf l o' Hl.
  destruct (frame_lookup_inv _ _ _ _ Hf Hl) as (o & Ho & [->| ->]);
    pose proof (Hwf l o Ho) as Hk; [done|].
  destruct o as [items|fields]; simpl in *; [done|].
  unfold delete_x. destruct (lookup_field "x" fields) as [[| |?|?|?|?]|]; try done.
  unfold delete_field. clear Ho Hl.
  induction fields as [|[k w] rest IH]; simpl; [constructor|].
  apply NoDup_cons in Hk as [Hk Hrest]. rewrite filter_cons. simpl.
  destruct (negb (String.eqb k "x")); [|by apply IH].
  simpl. apply NoDup_cons. split; [|by apply IH].
  intros Hin. apply Hk.
  apply list_elem_of_fmap in Hin as (kv & -> & Hkv%list_elem_of_filter).
  apply list_elem_of_fmap. exists kv. split; [done|apply Hkv].
Qed.

Lemma untouched_refl st : untouched st st.
Proof. split; [apply extends_refl|done]. Qed.

Lemma untouched_trans st1 st2 st3 :
  untouched st1 st2 -> untouched st2 st3 -> untouched st1 st3.
Proof.
  intros [E12 U12] [E23 U23]. split; [by eapply extends_trans|].
  intros l Hl. rewrite (U23 l Hl). apply U12. intros Hin. apply Hl. by apply E23.
Qed.

Lemma forEach_untouched (f : value -> state -> option state) xs st st' :
  (forall v s s', f v s = Some s' -> untouched s s') ->
  forEach f xs st = Some st' -> untouched st st'.
Proof.
  intros Hf. revert st. induction xs as [|v rest IH]; intros st; simpl.
  - intros [= <-]. apply untouched_refl.
  - destruct (f v st) as [st1|] eqn:E; [|done]. intros Hrun.
    eapply untouched_trans; [by eapply Hf|by apply IH].
Qed.

Lemma untouched_enter l o st :
  heap st !! l = Some o ->
  untouched st (write l (strip_x o) (add_seen l st)).
Proof.
  intros Hl. split.
  - split; [by apply frame_write|]. simpl. apply union_subseteq_r.
  - intros l' Hl'. simpl in *. apply lookup_insert_ne. intros ->.
    apply Hl'. apply elem_of_union. left. by apply elem_of_singleton.
Qed.

Lemma strip_enter_array l items st :
  heap st !! l = Some (Arr items) ->
  add_seen l st = write l (strip_x (Arr items)) (add_seen l st).
Proof.
  intros Hl. unfold write, add_seen. simpl. f_equal. by rewrite insert_id.
Qed.

Lemma strip_untouched n v st st' :
  stripRemainingExpressions n v st = Some st' -> untouched st st'.
Proof.
  revert v st st'. induction n as [|n IH]; intros v st st' Hrun; [done|].
  simpl in Hrun. destruct v as [| |?|?|?|l]; try (injection Hrun as <-; apply untouched_refl).
  destruct (heap st !! l) as [o|] eqn:Hl; [|injection Hrun as <-; apply untouched_refl].
  destruct (decide (l ∈ seen st)) as [Hs|Hs].
  - injection Hrun as <-. split.
    + split; [by apply frame_write|done].
    + intros l' Hl'. simpl in *. apply lookup_insert_ne. by intros ->.
  - eapply untouched_trans; [by apply (untouched_enter l o)|].
    destruct o as [items|fields].
    + rewrite <- (strip_enter_array _ _ _ Hl). by eapply forEach_untouched.
    + by eapply forEach_untouched.
Qed.

(** Whatever enters [seen] is reachable from the argument. *)
Lemma forEach_seen_reachable n xs st st' :
  (forall v s s', stripRemainingExpressions n v s = Some s' ->
     forall l, l ∈ seen s' -> l ∈ seen s \/ reachable (heap s) v l) ->
  forEach (stripRemainingExpressions n) xs st = Some st' ->
  forall l, l ∈ seen st' ->
    l ∈ seen st \/ exists x, x ∈ xs /\ reachable (heap st) x l.
Proof.
  intros Hcall. revert st. induction xs as [|v rest IH]; intros st; simpl.
  - intros [= <-] l Hl. by left.
  - destruct (stripRemainingExpressions n v st) as [st1|] eqn:E; [|done].
    intros Hrun l Hl.
    destruct (IH st1 Hrun l Hl) as [H1|(x & Hx & Hr)].
    + destruct (Hcall _ _ _ E l H1) as [H0|H0]; [by left|].
      right. exists v. split; [by left|done].
    + right. exists x. split; [by right|].
      eapply reachable_frame_inv; [|done].
      apply (strip_untouched _ _ _ _ E).
Qed.

Lemma strip_seen_reachable n v st st' :
  stripRemainingExpressions n v st = Some st' ->
  forall l, l ∈ seen st' -> l ∈ seen st \/ reachable (heap st) v l.
Proof.
  revert v st st'. induction n as [|n IH]; intros v st st' Hrun; [done|].
  simpl in Hrun. destruct v as [| |?|?|?|l0]; try (injection Hrun as <-; by left).
  destruct (heap st !! l0) as [o|] eqn:Hl; [|injection Hrun as <-; by left].
  destruct (decide (l0 ∈ seen st)) as [Hs|Hs]; [injection Hrun as <-; by left|].
  assert (forEach (stripRemainingExpressions n) (children (strip_x o))
            (write l0 (strip_x o) (add_seen l0 st)) = Some st') as Hrun'.
  { destruct o as [items|fields]; [|done].
    by rewrite <- (strip_enter_array _ _ _ Hl). }
  intros l Hin.
  destruct (forEach_seen_reachable n _ _ _ IH Hrun' l Hin) as [H1|(x & Hx & Hr)].
  - simpl in H1. apply elem_of_union in H1 as [->%elem_of_singleton|H1]; [|by left].
    right. by eapply reach_root.
  - right. eapply reachable_frame_inv; [by apply (frame_write _ l0 o)|].
    eapply reach_child; [|done|done]. simpl. apply lookup_insert_eq.
Qed.

Lemma strip_reaches h obj fuel st' l :
  well_formed h ->
  stripRemainingExpressions fuel obj (initial h) = Some st' ->
  reachable h obj l -> l ∈ seen st'.
Proof.
  intros Hwf Hrun Hr.
  destruct (strip_returns_visited _ _ _ _ Hrun) as ([Hf _] & Hinv & Hroot).
  destruct (Hinv ∅) as [Hst Hcl].
  { intros l0 o0 Hin. by apply not_elem_of_empty in Hin. }
  { intros l0 o0 l1 Hin. by apply not_elem_of_empty in Hin. }
  apply (reachable_seen st' obj); [done|by apply (reachable_frame h)|].
  intros l0 ->. apply Hroot; [by apply list_elem_of_singleton|].
  inversion Hr; by eexists.
Qed.

(** X6. [stripRemainingExpressions] never touches what it cannot reach: an
    object that is neither in [seen] nor reachable from the argument is not
    added to [seen] and is left exactly as it was. *)
Theorem strip_leaves_unreachable fuel obj st st' l :
  stripRemainingExpressions fuel obj st = Some st' ->
  l ∉ seen st -> ~ reachable (heap st) obj l ->
  (l ∉ seen st') /\ heap st' !! l = heap st !! l.
Proof.
  intros Hrun Hs Hr.
  assert (l ∉ seen st') as Hs'.
  { intros Hin. by destruct (strip_seen_reachable _ _ _ _ Hrun l Hin). }
  split; [done|]. by apply (strip_untouched _ _ _ _ Hrun).
Qed.

Lemma strip_characterised h obj fuel st' :
  well_formed h ->
  stripRemainingExpressions fuel obj (initial h) = Some st' ->
  (forall l, l ∈ seen st' <-> reachable h obj l) /\
  (forall l, reachable h obj l -> heap st' !! l = strip_x <$> h !! l) /\
  (forall l, ~ reachable h obj l -> heap st' !! l = h !! l).
Proof.
  intros Hwf Hrun.
  assert (forall l, l ∈ seen st' <-> reachable h obj l) as Hiff.
  { intros l. split; [|by eapply strip_reaches].
    intros Hin. destruct (strip_seen_reachable _ _ _ _ Hrun l Hin) as [H0|H0]; [|done].
    by apply not_elem_of_empty in H0. }
  split; [done|]. split.
  - intros l Hr. apply Hiff in Hr.
    destruct (strip_returns_visited _ _ _ _ Hrun) as ([Hf _] & Hinv & _).
    destruct (Hinv ∅) as [Hst _].
    { intros l0 o0 Hin. by apply not_elem_of_empty in Hin. }
    { intros l0 o0 l1 Hin. by apply not_elem_of_empty in Hin. }
    destruct (Hf l) as [E|E]; [|done]. simpl in E.
    destruct (heap st' !! l) as [o|] eqn:Ho; rewrite <- E; [|done].
    simpl. f_equal. symmetry. by apply (Hst l).
  - intros l Hr. apply (strip_untouched _ _ _ _ Hrun). by rewrite Hiff.
Qed.

(** X7. The result of the initial call, for objects with distinct property
    names: [seen] ends as exactly the set of objects reachable from the
    argument; each of them has gone through the deletion of its string-valued
    [x] and nothing else; every other object of the store is as it was; and
    the same objects are reachable afterwards. *)
Theorem strip_result h obj fuel st' :
  well_formed h ->
  stripRemainingExpressions fuel obj (initial h) = Some st' ->
  (forall l, l ∈ seen st' <-> reachable h obj l) /\
  (forall l, reachable h obj l -> heap st' !! l = strip_x <$> h !! l) /\
  (forall l, ~ reachable h obj l -> heap st' !! l = h !! l) /\
  (forall l, reachable (heap st') obj l <-> reachable h obj l).
Proof.
  intros Hwf Hrun.
  destruct (strip_characterised _ _ _ _ Hwf Hrun) as (Hseen & Hreach & Hrest).
  do 3 (split; [done|]).
  destruct (strip_returns_visited _ _ _ _ Hrun) as ([Hf _] & _).
  intros l. split; [by apply reachable_frame_inv|by apply reachable_frame].
Qed.

(** X8. A second call on the result changes nothing: run again from the
    same argument with a new empty [seen], the function returns the store
    and the [seen] set of the first call. *)
Theorem strip_twice h obj fuel st' :
  well_formed h ->
  stripRemainingExpressions fuel obj (initial h) = Some st' ->
  forall fuel', size h < fuel' ->
    stripRemainingExpressions fuel' obj (initial (heap st')) = Some st'.
Proof.
  intros Hwf Hrun fuel' Hfuel.
  destruct (strip_characterised _ _ _ _ Hwf Hrun) as (Hseen & Hreach & Hrest).
  destruct (strip_returns_visited _ _ _ _ Hrun) as ([Hf _] & _).
  simpl in Hf.
  assert (well_formed (heap st')) as Hwf' by (by eapply frame_well_formed).
  assert (unseen (initial (heap st')) < fuel') as Hlt.
  { unfold unseen. simpl. rewrite difference_empty_L, (frame_dom _ _ Hf), size_dom. done. }
  destruct (strip_visited fuel' obj (initial (heap st')) Hlt) as (st2 & Hrun2 & _).
  rewrite Hrun2. f_equal.
  destruct (strip_characterised _ _ _ _ Hwf' Hrun2) as (Hseen2 & Hreach2 & Hrest2).
  assert (forall l, reachable (heap st') obj l <-> reachable h obj l) as Hsame.
  { intros l. split; [by apply reachable_frame_inv|by apply reachable_frame]. }
  destruct st' as [h' s'], st2 as [h2 s2]. simpl in *. f_equal.
  - apply map_eq. intros l.
    destruct (decide (l ∈ s')) as [Hin|Hnin].
    + apply Hseen in Hin. rewrite (Hreach2 l) by (by apply Hsame).
      rewrite (Hreach l Hin). destruct (h !! l); simpl; [|done].
      by rewrite strip_x_idem.
    + apply Hrest2. rewrite Hsame, <- Hseen. done.
  - apply set_eq. intros l. by rewrite Hseen2, Hsame, Hseen.
Qed.

End StripReach.

(** ** Loading a container at most once *)

Module LoaderFacts.
Import Loader.

Lemma load_cases c :
  has_source c = true ->
  (lottieLoaded c = Some "true" /\ loadLottieIntoContainer c = c) \/
  (lottieLoaded c <> Some "true" /\
   loadLottieIntoContainer c
   = Container (jsonsrc c) (Some "true") (Some "loading") (S (started c))).
Proof.
  intros Hs. unfold loadLottieIntoContainer. rewrite Hs. simpl.
  destruct (bool_decide (lottieLoaded c = Some "true")) eqn:E.
  - left. by apply bool_decide_eq_true in E.
  - right. by apply bool_decide_eq_false in E.
Qed.

Lemma run_watching c w :
  has_source c = true -> watching c w ->
  watching c (run w) /\ lottieLoaded (target (run w)) = Some "true".
Proof.
  intros Hs Hw. unfold run. destruct (loaded w) eqn:Hl.
  - split; [done|]. destruct Hw as [[Ht Hc]|[_ Ht]]; rewrite Ht; [by apply Hc|done].
  - simpl. destruct Hw as [[-> _]|[Hn Ht]].
    + destruct (load_cases c Hs) as [[Hc ->]|[Hc ->]].
      * split; [by left|done].
      * split; [by right|done].
    + rewrite Ht. unfold loadLottieIntoContainer, has_source. simpl.
      unfold has_source in Hs. rewrite Hs. simpl. split; [by right|done].
Qed.

Lemma on_intersection_watching c entries w :
  has_source c = true -> watching c w ->
  watching c (on_intersection entries w) /\
  (lottieLoaded (target w) = Some "true" \/ existsb id entries = true ->
   lottieLoaded (target (on_intersection entries w)) = Some "true").
Proof.
  intros Hs. unfold on_intersection. revert w.
  induction entries as [|b rest IH]; intros w Hw; simpl.
  - split; [done|]. by intros [H|H].
  - destruct b; simpl.
    + destruct (run_watching c w Hs Hw) as [Hw' Hl'].
      destruct (IH _ Hw') as [Hw'' Hl'']. split; [done|]. intros _. by apply Hl''; left.
    + apply IH. done.
Qed.

Lemma on_event_watching c e w :
  has_source c = true -> watching c w ->
  watching c (on_event w e) /\
  (lottieLoaded (target w) = Some "true" \/ triggers e = true ->
   lottieLoaded (target (on_event w e)) = Some "true").
Proof.
  intros Hs Hw. destruct e as [entries|]; simpl.
  - by apply on_intersection_watching.
  - unfold on_timeout.
    destruct (bool_decide (lottieLoaded (target w) = Some "true")) eqn:E.
    + split; [done|]. intros _. by apply bool_decide_eq_true in E.
    + destruct (run_watching c w Hs Hw) as [Hw' Hl']. by split.
Qed.

Lemma events_watching c events w :
  has_source c = true -> watching c w ->
  watching c (fold_left on_event events w) /\
  (lottieLoaded (target w) = Some "true" \/ existsb triggers events = true ->
   lottieLoaded (target (fold_left on_event events w)) = Some "true").
Proof.
  intros Hs. revert w. induction events as [|e rest IH]; intros w Hw; simpl.
  - split; [done|]. by intros [H|H].
  - destruct (on_event_watching c e w Hs Hw) as [Hw' Hl'].
    destruct (IH _ Hw') as [Hw'' Hl'']. split; [done|].
    intros [H|H%orb_prop]; apply Hl''.
    + left. apply Hl'. by left.
    + destruct H as [H|H]; [left; apply Hl'; by right|by right].
Qed.

(** X9. A container is loaded at most once, and once by the first trigger:
    whatever callbacks of [initLottieWhenVisible] run and in whatever order,
    the load sequence of a container not yet marked as loaded is started at
    most once, [data-jsonsrc] is never changed, and as soon as the timer has
    fired or an intersecting entry was observed it has been started exactly
    once and the container is marked as loaded. *)
Theorem container_loaded_once c w0 events :
  initLottieWhenVisible c = Some w0 ->
  lottieLoaded c <> Some "true" ->
  jsonsrc (target (fold_left on_event events w0)) = jsonsrc c /\
  started (target (fold_left on_event events w0)) <= S (started c) /\
  (existsb triggers events = true ->
   started (target (fold_left on_event events w0)) = S (started c) /\
   lottieLoaded (target (fold_left on_event events w0)) = Some "true") /\
  (existsb triggers events = false ->
   target (fold_left on_event events w0) = c).
Proof.
  unfold initLottieWhenVisible. intros Hinit Hfresh.
  destruct (has_source c) eqn:Hs; [|done]. simpl in Hinit. injection Hinit as <-.
  assert (watching c (Watcher false c)) as Hw0 by (by left).
  destruct (events_watching c events _ Hs Hw0) as [Hw Hl].
  set (w := fold_left on_event events (Watcher false c)) in *.
  split; [|split; [|split]].
  - destruct Hw as [[-> _]|[_ ->]]; done.
  - destruct Hw as [[-> _]|[_ ->]]; simpl; lia.
  - intros Ht. assert (lottieLoaded (target w) = Some "true") as Hdone
      by (apply Hl; by right).
    destruct Hw as [[Heq _]|[_ Heq]]; rewrite Heq in *; [done|]. done.
  - intros Ht. subst w. clear Hw Hl Hw0.
    assert (forall w, fold_left on_event events w = w) as Hid; [|by rewrite Hid].
    induction events as [|e rest IH]; intros w; [done|].
    simpl in *. apply orb_false_elim in Ht as [He Hr].
    assert (on_event w e = w) as ->; [|by apply IH].
    destruct e as [entries|]; [|done]. simpl in *. unfold on_intersection.
    clear IH Hr. revert w. induction entries as [|b more IHe]; intros w; [done|].
    simpl in *. apply orb_false_elim in He as [Hb Hm]. unfold id in Hb. subst b.
    by apply IHe.
Qed.

(** X10. Calling [loadLottieIntoContainer] again on a container does
    nothing: after the first call on a container with a [data-jsonsrc] the
    container is marked as loaded, and every later call, direct or through a
    watcher, returns it unchanged. *)
Theorem load_is_idempotent c :
  loadLottieIntoContainer (loadLottieIntoContainer c) = loadLottieIntoContainer c /\
  (has_source c = true ->
   lottieLoaded (loadLottieIntoContainer c) = Some "true") /\
  (has_source c = false -> loadLottieIntoContainer c = c) /\
  started (loadLottieIntoContainer c) <= S (started c).
Proof.
  destruct (has_source c) eqn:Hs.
  - destruct (load_cases c Hs) as [[Hc Heq]|[Hc Heq]]; rewrite !Heq.
    + repeat split; try done. lia.
    + assert (loadLottieIntoContainer
                (Container (jsonsrc c) (Some "true") (Some "loading") (S (started c)))
              = Container (jsonsrc c) (Some "true") (Some "loading") (S (started c)))
        as Hagain.
      { unfold loadLottieIntoContainer, has_source. simpl.
        unfold has_source in Hs. by rewrite Hs. }
      rewrite Hagain. repeat split; try done.
  - assert (loadLottieIntoContainer c = c) as Heq.
    { unfold loadLottieIntoContainer. by rewrite Hs. }
    rewrite !Heq. repeat split; try done. lia.
Qed.

End LoaderFacts.

(** ** [toAbsoluteJsonUrl] *)

Module UrlFacts.
Import Url.

Lemma starts_with_slash_collapse s :
  starts_with_slash (collapse_slashes s) = starts_with_slash s.
Proof.
  induction s as [|a rest IH]; [done|]. simpl.
  destruct (is_slash a) eqn:Ea; simpl; [|by rewrite Ea].
  destruct (starts_with_slash rest) eqn:Er; simpl; [by rewrite IH|by rewrite Ea].
Qed.

Lemma collapse_no_double_slash s : has_double_slash (collapse_slashes s) = false.
Proof.
  induction s as [|a rest IH]; [done|]. simpl.
  destruct (is_slash a && starts_with_slash rest) eqn:E; [done|].
  simpl. rewrite IH, starts_with_slash_collapse, E. done.
Qed.

Lemma collapse_fixed s : has_double_slash s = false -> collapse_slashes s = s.
Proof.
  induction s as [|a rest IH]; [done|]. simpl.
  intros [E Hr]%orb_false_elim. rewrite E. by rewrite IH.
Qed.

Section UrlFacts.
Context `{UrlBuiltins}.

(** X11. [toAbsoluteJsonUrl] returns a value that is not a non-empty string
    as it is; it returns an [http://] or [https://] URL (in any letter case)
    trimmed, whatever the page and without building a [URL]; and the path it
    otherwise hands to [new URL] always starts with a slash and, when built
    from a name that does not start with one, holds no two slashes in a
    row, so that collapsing the slashes again changes nothing. *)
Theorem absolute_url_paths :
  (forall w url, (forall s, url = VStr s -> s = "") -> toAbsoluteJsonUrl w url = url) /\
  (forall w w' s,
     s <> "" -> is_absolute (trim s) = true ->
     toAbsoluteJsonUrl w (VStr s) = VStr (trim s) /\
     toAbsoluteJsonUrl w' (VStr s) = toAbsoluteJsonUrl w (VStr s)) /\
  (forall w trimmed,
     starts_with_slash (path_of w trimmed) = true /\
     (starts_with_slash trimmed = false ->
      has_double_slash (path_of w trimmed) = false /\
      collapse_slashes (path_of w trimmed) = path_of w trimmed)).
Proof.
  split; [|split].
  - intros w url Hs. destruct url as [| |?|?|s|? ?|?]; try done.
    simpl. by rewrite (Hs s eq_refl).
  - intros w w' s Hne Habs. unfold toAbsoluteJsonUrl.
    assert (String.eqb s "" = false) as -> by (by apply String.eqb_neq).
    by rewrite Habs.
  - intros w trimmed. unfold path_of.
    destruct (starts_with_slash trimmed) eqn:Es; [done|].
    split.
    + rewrite starts_with_slash_collapse.
      by destruct (String.eqb (base_of w) "").
    + intros _. split; [apply collapse_no_double_slash|].
      apply collapse_fixed, collapse_no_double_slash.
Qed.

End UrlFacts.
End UrlFacts.

(** ** [waitForLottie] *)

Module WaitFacts.
Import Wait.

Lemma check_settles_within deadline n :
  forall polls t,
    spaced t polls ->
    (deadline < t + 50 * Z.of_nat n)%Z ->
    n < length polls ->
    exists r, check deadline (take (S n) polls) = Some r /\
              check deadline polls = Some r.
Proof.
  induction n as [|n IH]; intros polls t Hsp Hlate Hlen;
    destruct polls as [|p rest]; simpl in Hlen; try lia;
    destruct Hsp as [Ht Hrest].
  - simpl. destruct (ready p); [by eexists|].
    assert ((deadline <? now p)%Z = true) as -> by (apply Z.ltb_lt; lia).
    by eexists.
  - change (take (S (S n)) (p :: rest)) with (p :: take (S n) rest).
    simpl check. destruct (ready p); [by eexists|].
    destruct (deadline <? now p)%Z; [by eexists|].
    apply (IH rest (now p + 50)%Z); [done|lia|lia].
Qed.

Lemma check_waiting deadline before polls :
  waiting deadline before ->
  check deadline (before ++ polls) = check deadline polls.
Proof.
  induction 1 as [|p before [Hr Ht] _ IH]; [done|].
  simpl. rewrite Hr.
  assert ((deadline <? now p)%Z = false) as -> by (apply Z.ltb_ge; lia).
  done.
Qed.

Lemma check_outcome deadline polls r :
  check deadline polls = Some r ->
  exists before p after,
    polls = before ++ p :: after /\
    waiting deadline before /\
    match r with
    | Resolved => ready p = true
    | Rejected => ready p = false /\ (deadline < now p)%Z
    end.
Proof.
  induction polls as [|p rest IH]; [done|].
  simpl. destruct (ready p) eqn:Hr.
  - intros [= <-]. exists [], p, rest. repeat split; [constructor|done].
  - destruct (deadline <? now p)%Z eqn:Ht.
    + intros [= <-]. exists [], p, rest. apply Z.ltb_lt in Ht.
      repeat split; [constructor|done|done].
    + intros Hrun. destruct (IH Hrun) as (before & q & after & -> & Hw & Hq).
      exists (p :: before), q, after. apply Z.ltb_ge in Ht.
      repeat split; [constructor; [split; [done|lia]|done]|done].
Qed.

(** X12. [waitForLottie] does not wait for ever: when the first run of
    [check] is not before the call and the timer keeps its 50 ms, the promise
    is settled by one of the first [maxMs / 50 + 2] runs of [check], whatever
    the later ones would have seen. *)
Theorem wait_settles maxMs ready0 now0 polls :
  (0 <= maxMs)%Z ->
  spaced now0 polls ->
  Z.to_nat (maxMs / 50) + 2 <= length polls ->
  exists r,
    waitForLottie maxMs ready0 now0 (take (Z.to_nat (maxMs / 50) + 2) polls) = Some r /\
    waitForLottie maxMs ready0 now0 polls = Some r.
Proof.
  intros Hmax Hsp Hlen. unfold waitForLottie.
  destruct ready0; [by eexists|].
  replace (Z.to_nat (maxMs / 50) + 2) with (S (Z.to_nat (maxMs / 50) + 1)) by lia.
  apply (check_settles_within _ _ polls now0); [done| |lia].
  pose proof (Z.mod_pos_bound maxMs 50 ltac:(lia)) as Hmod.
  pose proof (Z.div_mod maxMs 50 ltac:(lia)) as Hdiv.
  assert (0 <= maxMs / 50)%Z by (apply Z.div_pos; lia).
  lia.
Qed.

(** X13. How [waitForLottie] settles. It resolves when the library is ready
    at the call or at a run of [check] before which every run found it
    absent and the deadline not passed, and then also when that run itself
    is past the deadline; it rejects only at a run that is past the deadline
    [now0 + maxMs] and finds the library absent, never earlier. Runs after
    the settling one have no effect. *)
Theorem wait_outcome maxMs ready0 now0 polls r :
  waitForLottie maxMs ready0 now0 polls = Some r ->
  match r with
  | Resolved =>
      ready0 = true \/
      exists before p after,
        polls = before ++ p :: after /\
        waiting (now0 + maxMs) before /\ ready p = true
  | Rejected =>
      ready0 = false /\
      exists before p after,
        polls = before ++ p :: after /\
        waiting (now0 + maxMs) before /\
        ready p = false /\ (now0 + maxMs < now p)%Z
  end /\
  (forall before p after,
     polls = before ++ p :: after ->
     waiting (now0 + maxMs) before ->
     ready p = true ->
     r = Resolved) /\
  (forall more, waitForLottie maxMs ready0 now0 (polls ++ more) = Some r).
Proof.
  unfold waitForLottie. intros Hrun. split; [|split].
  - destruct ready0.
    + injection Hrun as <-. by left.
    + destruct (check_outcome _ _ _ Hrun) as (before & p & after & Hp & Hw & Hr).
      destruct r; [right|split; [done|]]; by exists before, p, after.
  - intros before p after -> Hw Hr. destruct ready0; [congruence|].
    rewrite check_waiting in Hrun by done. simpl in Hrun. rewrite Hr in Hrun.
    congruence.
  - intros more. destruct ready0; [done|].
    destruct (check_outcome _ _ _ Hrun) as (before & p & after & -> & Hw & Hr).
    rewrite check_waiting in Hrun by done.
    rewrite <- app_assoc, check_waiting by done.
    simpl in *. destruct r.
    + by rewrite Hr in *.
    + destruct Hr as [Hr Hlt%Z.ltb_lt]. by rewrite Hr, Hlt in *.
Qed.

End WaitFacts.

(** ** The properties on the sample documents and graphs *)

Import Samples.

#[local] Existing Instance sample_builtins.

Ltac solve_list :=
  repeat (apply Forall_cons_2; [first [eexists; reflexivity | vm_compute; reflexivity]|]);
  apply Forall_nil_2.

Ltac solve_eligible t0 tn op ip :=
  split;
  [ reflexivity
  | eexists; split; reflexivity
  | eexists; reflexivity
  | simpl; lia
  | solve_list
  | exists t0, tn; repeat split; vm_compute; reflexivity
  | exists op, ip; repeat split; vm_compute; reflexivity ].

Ltac solve_integral op ip :=
  split;
  [ solve_list
  | reflexivity
  | reflexivity
  | exists op, ip; repeat split; vm_compute; reflexivity
  | unfold safe; vm_compute; repeat split; reflexivity
  | vm_compute; discriminate ].

Ltac solve_ascending :=
  unfold ascending;
  repeat first [apply Sorted_nil | apply Sorted_cons | apply HdRel_nil | apply HdRel_cons];
  vm_compute; reflexivity.

Lemma expansion_of_eligible_layer_witness :
  eligible (layer_with 0 100) cycle_tm [keyframe 0 0; keyframe 25 1]
    (Int (25 - 0)) (Int 100) /\
  integral (layer_with 0 100) [keyframe 0 0; keyframe 25 1] 0 25 100 /\
  ascending [keyframe 0 0; keyframe 25 1] /\
  (- (25 - 0) < 100)%Z /\
  snd (V8.walk_layer (layer_with 0 100)) = Normal /\
  expanded_layer (fst (V8.walk_layer (layer_with 0 100)))
    [keyframe 0 0; keyframe 25 1] (25 - 0) (ceil_div 100 (25 - 0) + 1).
Proof.
  assert (eligible (layer_with 0 100) cycle_tm [keyframe 0 0; keyframe 25 1]
            (Int (25 - 0)) (Int 100))
    as He by solve_eligible (Int 0) (Int 25) (Int 100) (Int 0).
  assert (integral (layer_with 0 100) [keyframe 0 0; keyframe 25 1] 0 25 100)
    as Hi by solve_integral 100%Z 0%Z.
  assert (ascending [keyframe 0 0; keyframe 25 1]) as Ha by solve_ascending.
  assert (- (25 - 0) < 100)%Z as Hd by lia.
  split; [exact He|]. split; [exact Hi|]. split; [exact Ha|]. split; [exact Hd|].
  pose proof (expansion_of_eligible_layer (layer_with 0 100) cycle_tm
                [keyframe 0 0; keyframe 25 1] 0 25 100 He Hi Ha Hd) as (Hn & Hexp & _).
  split; [exact Hn|exact Hexp].
Defined.

(** C1 as stated fails twice.  On an eligible layer with [ip = 100],
    [op = 50]: [cycles = ceil(-50 / 25) + 1 = -1], the loop does not run,
    [tm.k] is left empty and has no first keyframe.  And on an eligible layer
    with ascending keyframes at [t = 0.2] and [t = 0.9] and [op = 2]: the
    cycle duration is the double [0.7], the second keyframe of the first
    copy is at [0.9] and the first keyframe of the second copy at
    [0.2 + 0.7 = 0.8999999999999999], so [tm.k] is not non-decreasing
    in [t]. *)
Lemma expansion_of_late_layer_counterexample :
  (eligible late_layer cycle_tm [keyframe 0 0; keyframe 25 1] (Int 25) (Int (-50)) /\
   ascending [keyframe 0 0; keyframe 25 1] /\
   V8.walk_layer late_layer
   = (VObj [("ip", VNum (Int 100)); ("op", VNum (Int 50));
            ("tm", VObj [("k", VArr [] [])])], Normal) /\
   ~ expanded_layer (fst (V8.walk_layer late_layer))
       [keyframe 0 0; keyframe 25 1] 25 (ceil_div (-50) 25 + 1)) /\
  (eligible fractional_layer fractional_tm fractional_keyframes
     (dyadic 6305039478318694 (-53)) (Int 2) /\
   ascending fractional_keyframes /\
   V8.walk_layer fractional_layer
   = (VObj [("op", VNum (Int 2)); ("tm", VObj [("k", VArr fractional_expanded [])])],
      Normal) /\
   fractional_expanded !! 1 = Some (VObj [("t", VNum (dyadic 8106479329266893 (-53)))]) /\
   fractional_expanded !! 2 = Some (VObj [("t", VNum (dyadic 8106479329266892 (-53)))]) /\
   num_ltb (dyadic 8106479329266892 (-53)) (dyadic 8106479329266893 (-53)) = true /\
   ~ ascending fractional_expanded).
Proof.
  split.
  - split; [solve_eligible (Int 0) (Int 25) (Int 50) (Int 100)|].
    split; [solve_ascending|].
    split; [vm_compute; reflexivity|].
    intros (tm' & out & Htm & _ & Hk & _ & _ & (kf0 & kf0' & _ & Hhead & _) & _).
    vm_compute in Htm. injection Htm as <-.
    vm_compute in Hk. injection Hk as <-. done.
  - split; [solve_eligible (dyadic 3602879701896397 (-54))
              (dyadic 8106479329266893 (-53)) (Int 2) (Int 0)|].
    split; [solve_ascending|].
    split; [vm_compute; reflexivity|].
    split; [reflexivity|]. split; [reflexivity|].
    split; [vm_compute; reflexivity|].
    intros Hs. unfold ascending, fractional_expanded in Hs.
    apply Sorted_inv in Hs as [Hs _].
    apply Sorted_inv in Hs as [_ Hs].
    apply HdRel_inv in Hs. vm_compute in Hs. discriminate.
Qed.

Lemma emitted_cycle_count_witness :
  eligible default_layer cycle_tm [keyframe 0 0; keyframe 25 1] (Int 25) (Int 900) /\
  snd (V8.walk_layer default_layer) = Normal /\
  emits_copies (fst (V8.walk_layer default_layer))
    [keyframe 0 0; keyframe 25 1] (Int 25) 37 /\
  num_add (num_ceil (num_div (Int 900) (Int 25))) (Int 1) = Int (ceil_div 900 25 + 1) /\
  (ceil_div 900 25 + 1 = 37)%Z.
Proof.
  assert (eligible default_layer cycle_tm [keyframe 0 0; keyframe 25 1]
            (Int 25) (Int 900))
    as He by solve_eligible (Int 0) (Int 25) (Int 900) (Int 0).
  split; [exact He|].
  destruct (emitted_cycle_count default_layer cycle_tm
              [keyframe 0 0; keyframe 25 1] (Int 25) (Int 900) He)
    as (Hfit & _ & Hint).
  destruct Hfit as [Hn Hemit]; [vm_compute; discriminate|].
  destruct (Hint 900%Z 25%Z eq_refl eq_refl) as (_ & Hc & _);
    [unfold safe; vm_compute; repeat split; reflexivity..|].
  split; [exact Hn|]. split; [|split; [exact Hc|reflexivity]].
  assert (V8.turns (num_add (num_ceil (num_div (Int 900) (Int 25))) (Int 1)) = 37)
    as Ht by (vm_compute; reflexivity).
  rewrite Ht in Hemit. exact Hemit.
Defined.

(** C3 as stated fails twice.  On an eligible layer with [ip = 100],
    [op = 10]: [ceil(-90 / 25) + 1 = -2], and no copy is emitted.  And on an
    eligible layer with [op = 2^40]: the formula gives 43980465113 copies of
    two keyframes, more than an array holds, and the callback ends with a
    [RangeError], the layer being as before. *)
Lemma emitted_cycle_count_counterexample :
  (eligible later_layer cycle_tm [keyframe 0 0; keyframe 25 1] (Int 25) (Int (-90)) /\
   (ceil_div (-90) 25 + 1 = -2)%Z /\
   V8.walk_layer later_layer
   = (VObj [("ip", VNum (Int 100)); ("op", VNum (Int 10));
            ("tm", VObj [("k", VArr [] [])])], Normal) /\
   ~ (exists n,
        emits_copies (fst (V8.walk_layer later_layer))
          [keyframe 0 0; keyframe 25 1] (Int 25) n /\
        Z.of_nat n = (ceil_div (-90) 25 + 1)%Z)) /\
  (eligible endless_layer cycle_tm [keyframe 0 0; keyframe 25 1]
     (Int 25) (Int 1099511627776) /\
   (ceil_div 1099511627776 25 + 1 = 43980465113)%Z /\
   V8.walk_layer endless_layer = (endless_layer, Thrown RangeError)).
Proof.
  split.
  - split; [solve_eligible (Int 0) (Int 25) (Int 10) (Int 100)|].
    split; [reflexivity|].
    split; [vm_compute; reflexivity|].
    intros (n & _ & Hn). change (ceil_div (-90) 25 + 1)%Z with (-2)%Z in Hn. lia.
  - assert (eligible endless_layer cycle_tm [keyframe 0 0; keyframe 25 1]
              (Int 25) (Int 1099511627776))
      as He by solve_eligible (Int 0) (Int 25) (Int 1099511627776) (Int 0).
    split; [exact He|]. split; [reflexivity|].
    pose proof (walk_layer_eligible _ _ _ _ _ He) as Hw.
    match type of Hw with
    | if ?c then _ else _ =>
        assert (c = false) as Hc by (vm_compute; reflexivity); rewrite Hc in Hw
    end.
    exact Hw.
Qed.

Lemma completes_on_shaped_documents_witness :
  document_shaped sparse_document = true /\
  document_fits sparse_document = true /\
  snd (V8.expandTmCycles sparse_document) = Normal /\
  (is_array (field sparse_document "layers") = false ->
   is_array (field sparse_document "assets") = false ->
   fst (V8.expandTmCycles sparse_document) = sparse_document /\
   snd (V8.expandTmCycles sparse_document) = Normal).
Proof.
  assert (document_shaped sparse_document = true) as Hs by reflexivity.
  assert (document_fits sparse_document = true) as Hf by (vm_compute; reflexivity).
  split; [exact Hs|]. split; [exact Hf|].
  destruct (completes_on_shaped_documents sparse_document Hs) as [Hc Hnoop].
  rewrite Hf in Hc. split; [exact Hc|exact Hnoop].
Defined.

(** C4 as stated fails: the call throws a [TypeError] on a [null]
    document, on a [null] entry of [layers] or of [assets], on a [tm.x] that
    is a number, and on a [null] keyframe of a layer with the marker; and a
    [RangeError] on a document of the expected shape whose layer asks for
    more keyframes than an array holds.  On keyframes without [t] it
    completes, but not as a no-op: the cycle duration is [NaN], which passes
    [cycleDur <= 0], and [tm.k] is emptied. *)
Lemma completes_on_every_input_counterexample :
  V8.expandTmCycles VNull = (VNull, Thrown TypeError) /\
  V8.expandTmCycles null_layer_document = (null_layer_document, Thrown TypeError) /\
  V8.expandTmCycles null_asset_document = (null_asset_document, Thrown TypeError) /\
  V8.expandTmCycles numeric_expression_document
  = (numeric_expression_document, Thrown TypeError) /\
  V8.expandTmCycles null_keyframe_document
  = (null_keyframe_document, Thrown TypeError) /\
  V8.expandTmCycles untimed_document
  = (VObj [("layers", VArr [VObj [("tm", VObj [("k", VArr [] [])])]] [])], Normal) /\
  document_shaped endless_document = true /\
  snd (V8.expandTmCycles endless_document) = Thrown RangeError.
Proof.
  do 6 (split; [vm_compute; reflexivity|]).
  split; [reflexivity|].
  assert (eligible endless_layer cycle_tm [keyframe 0 0; keyframe 25 1]
            (Int 25) (Int 1099511627776))
    as He by solve_eligible (Int 0) (Int 25) (Int 1099511627776) (Int 0).
  pose proof (walk_layer_eligible _ _ _ _ _ He) as Hw.
  match type of Hw with
  | if ?c then _ else _ =>
      assert (c = false) as Hc by (vm_compute; reflexivity); rewrite Hc in Hw
  end.
  unfold V8.expandTmCycles, endless_document.
  change (get (VObj [("layers", VArr [endless_layer] [])]) "layers")
    with (Ok (VArr [endless_layer] []) : result value).
  cbn [V8.walk forEach]. by rewrite Hw.
Qed.

Lemma guarded_layer_unchanged_witness :
  guard_hit flat_layer /\
  fst (V8.walk_layer flat_layer) = flat_layer.
Proof.
  assert (guard_hit flat_layer) as Hg.
  { do 4 right. exists [keyframe 5 0; keyframe 5 1], [], (Int 5), (Int 5).
    repeat split; vm_compute; reflexivity. }
  split; [exact Hg|].
  exact (proj1 (guarded_layer_unchanged flat_layer Hg)).
Defined.

Lemma asset_layers_expanded_witness :
  snd (V8.expandTmCycles asset_document) = Normal /\
  exists assets' a' layers',
    get (fst (V8.expandTmCycles asset_document)) "assets" = Ok (VArr assets' []) /\
    assets' !! 0 = Some a' /\
    get a' "layers" = Ok (VArr layers' []) /\
    layers' !! 0 = Some (fst (V8.walk_layer (layer_with 0 100))) /\
    fst (V8.expandTmCycles (VObj [("layers", VArr [layer_with 0 100] [])]))
    = VObj [("layers", VArr layers' [])] /\
    exists layer',
      layers' !! 0 = Some layer' /\
      expanded_layer layer' [keyframe 0 0; keyframe 25 1] (25 - 0)
        (ceil_div 100 (25 - 0) + 1).
Proof.
  assert (snd (V8.expandTmCycles asset_document) = Normal) as Hn
    by (vm_compute; reflexivity).
  split; [exact Hn|].
  destruct (asset_layers_expanded asset_document
              [VObj [("id", VStr "comp_0"); ("layers", VArr [layer_with 0 100] [])]] []
              0 (VObj [("id", VStr "comp_0"); ("layers", VArr [layer_with 0 100] [])])
              [layer_with 0 100] [] 0 (layer_with 0 100)
              Hn eq_refl eq_refl eq_refl eq_refl)
    as (assets' & a' & layers' & H1 & H2 & H3 & H4 & H5 & H6).
  exists assets', a', layers'. do 5 (split; [assumption|]).
  apply (H6 cycle_tm [keyframe 0 0; keyframe 25 1] 0%Z 25%Z 100%Z).
  - solve_eligible (Int 0) (Int 25) (Int 100) (Int 0).
  - solve_integral 100%Z 0%Z.
  - solve_ascending.
  - lia.
Defined.

(** C6 as stated fails: the assets are visited only after the top-level
    layers, and only when no callback there has thrown.  Behind a [null]
    entry of [layers] the call ends with a [TypeError]; the eligible layer
    under [assets[0].layers] keeps its expression and its two keyframes. *)
Lemma asset_layers_not_reached_counterexample :
  V8.expandTmCycles blocked_asset_document
  = (blocked_asset_document, Thrown TypeError) /\
  get blocked_asset_document "assets"
  = Ok (VArr [VObj [("id", VStr "comp_0"); ("layers", VArr [layer_with 0 100] [])]] []) /\
  eligible (layer_with 0 100) cycle_tm [keyframe 0 0; keyframe 25 1]
    (Int 25) (Int 100) /\
  get cycle_tm "x" = Ok (VStr "loopOut('cycle')") /\
  ~ expanded_layer (layer_with 0 100) [keyframe 0 0; keyframe 25 1] 25
      (ceil_div 100 25 + 1).
Proof.
  split; [vm_compute; reflexivity|]. split; [reflexivity|].
  split; [solve_eligible (Int 0) (Int 25) (Int 100) (Int 0)|].
  split; [reflexivity|].
  intros (tm' & out & Htm & Hx & _).
  change (get (layer_with 0 100) "tm") with (Ok cycle_tm : result value) in Htm.
  injection Htm as <-. discriminate Hx.
Qed.

Lemma second_pass_is_identity_witness :
  exists tm',
    V8.expanded_tm (layer_with 0 100) = Ok (Some tm') /\
    get (fst (V8.walk_layer (layer_with 0 100))) "tm" = Ok tm' /\
    get tm' "x" = Ok VUndef /\
    V8.expanded_tm (fst (V8.walk_layer (layer_with 0 100))) = Ok None /\
    V8.walk_layer (fst (V8.walk_layer (layer_with 0 100)))
    = (fst (V8.walk_layer (layer_with 0 100)), Normal).
Proof.
  destruct (V8.expanded_tm (layer_with 0 100)) as [[tm'|]|] eqn:Hrun;
    [|by vm_compute in Hrun..].
  exists tm'. split; [reflexivity|].
  exact (proj1 second_pass_is_identity (layer_with 0 100) tm' Hrun).
Defined.

(** ** The further properties on sample inputs *)

Lemma expansion_stops_at_exception_witness :
  snd (V8.expandTmCycles Cases.interrupted_document) = Thrown TypeError /\
  get (fst (V8.expandTmCycles Cases.interrupted_document)) "assets"
  = get Cases.interrupted_document "assets" /\
  exists layers',
    get (fst (V8.expandTmCycles Cases.interrupted_document)) "layers"
    = Ok (VArr layers' []) /\
    (forall j x, j < 1 -> [layer_with 0 100; VNull; layer_with 0 100] !! j = Some x ->
                 layers' !! j = Some (fst (V8.walk_layer x))) /\
    (forall j, 1 <= j -> layers' !! j = [layer_with 0 100; VNull; layer_with 0 100] !! j).
Proof.
  apply (expansion_stops_at_exception Cases.interrupted_document
           [layer_with 0 100; VNull; layer_with 0 100] [] 1 VNull TypeError).
  - reflexivity.
  - reflexivity.
  - reflexivity.
  - intros j x Hj Hx. destruct j as [|j]; [|lia].
    simpl in Hx. injection Hx as <-. vm_compute. reflexivity.
Defined.

Lemma unmarked_document_unchanged_witness :
  unmarked_document Cases.static_document = true /\
  V8.expandTmCycles Cases.static_document = (Cases.static_document, Normal).
Proof.
  assert (unmarked_document Cases.static_document = true) as Hu by reflexivity.
  split; [exact Hu|].
  exact (unmarked_document_unchanged Cases.static_document Hu).
Defined.

Lemma expansion_covers_duration_witness :
  exists tm' out kfl,
    get (fst (V8.walk_layer (layer_with 0 100))) "tm" = Ok tm' /\
    get tm' "k" = Ok (VArr out []) /\
    last out = Some kfl /\
    time_of kfl = Some (Int (0 + (ceil_div 100 (25 - 0) + 1) * (25 - 0))) /\
    (0 + 100 + (25 - 0) <= 0 + (ceil_div 100 (25 - 0) + 1) * (25 - 0)
     < 0 + 100 + 2 * (25 - 0))%Z /\
    Forall (fun kf => exists t,
              time_of kf = Some (Int t) /\
              (0 <= t <= 0 + (ceil_div 100 (25 - 0) + 1) * (25 - 0))%Z) out /\
    (forall c,
       S c < Z.to_nat (ceil_div 100 (25 - 0) + 1) ->
       exists a b,
         out !! (S c * length [keyframe 0 0; keyframe 25 1] - 1) = Some a /\
         out !! (S c * length [keyframe 0 0; keyframe 25 1]) = Some b /\
         time_of a = time_of b).
Proof.
  apply (expansion_covers_duration (layer_with 0 100) cycle_tm
           [keyframe 0 0; keyframe 25 1] 0 25 100).
  - solve_eligible (Int 0) (Int 25) (Int 100) (Int 0).
  - solve_integral 100%Z 0%Z.
  - solve_ascending.
  - lia.
Defined.

Lemma untimed_boundary_empties_keyframes_witness :
  exists tm',
    V8.walk_layer Cases.untimed_layer
    = (store_back Cases.untimed_layer "tm" tm', Normal) /\
    get (store_back Cases.untimed_layer "tm" tm') "tm" = Ok tm' /\
    get tm' "k" = Ok (VArr [] []) /\
    get tm' "x" = Ok VUndef.
Proof.
  apply (untimed_boundary_empties_keyframes Cases.untimed_layer
           (VObj [("x", VStr "loopOut('cycle')");
                  ("k", VArr [keyframe 0 0; VObj [("v", VNum (Int 1))]] [])])
           "loopOut('cycle')" [keyframe 0 0; VObj [("v", VNum (Int 1))]] []
           (keyframe 0 0) (VObj [("v", VNum (Int 1))]));
    try reflexivity; try (simpl; lia).
  right. reflexivity.
Defined.

Lemma cyclic_graph_well_formed : Strip.well_formed Strip.cyclic_graph.
Proof.
  unfold Strip.well_formed, Strip.cyclic_graph.
  repeat (apply map_Forall_insert_2; [compute_done|]).
  apply map_Forall_empty.
Qed.

Lemma strip_leaves_unreachable_witness :
  exists st',
    Strip.stripRemainingExpressions 5 (Strip.Ref 3%positive)
      (Strip.initial Strip.easing_graph) = Some st' /\
    (1%positive ∉ Strip.seen st') /\
    Strip.heap st' !! 1%positive = Strip.easing_graph !! 1%positive.
Proof.
  destruct (Strip.stripRemainingExpressions 5 (Strip.Ref 3%positive)
              (Strip.initial Strip.easing_graph)) as [st'|] eqn:Hrun;
    [|by vm_compute in Hrun].
  exists st'. split; [reflexivity|].
  apply (StripReach.strip_leaves_unreachable 5 (Strip.Ref 3%positive)
           (Strip.initial Strip.easing_graph) st' 1%positive Hrun).
  - apply not_elem_of_empty.
  - intros Hr. inversion Hr as [|l o v l' Hl Hch Hr']; subst.
    vm_compute in Hl. injection Hl as <-. simpl in Hch.
    apply list_elem_of_singleton in Hch. subst v. inversion Hr'.
Defined.

Lemma strip_result_witness :
  exists st',
    Strip.stripRemainingExpressions 4 (Strip.Ref 1%positive)
      (Strip.initial Strip.cyclic_graph) = Some st' /\
    (forall l, l ∈ Strip.seen st'
               <-> Strip.reachable Strip.cyclic_graph (Strip.Ref 1%positive) l) /\
    (forall l, Strip.reachable Strip.cyclic_graph (Strip.Ref 1%positive) l ->
               Strip.heap st' !! l = Strip.strip_x <$> Strip.cyclic_graph !! l) /\
    (forall l, ~ Strip.reachable Strip.cyclic_graph (Strip.Ref 1%positive) l ->
               Strip.heap st' !! l = Strip.cyclic_graph !! l) /\
    (forall l, Strip.reachable (Strip.heap st') (Strip.Ref 1%positive) l
               <-> Strip.reachable Strip.cyclic_graph (Strip.Ref 1%positive) l).
Proof.
  destruct (Strip.stripRemainingExpressions 4 (Strip.Ref 1%positive)
              (Strip.initial Strip.cyclic_graph)) as [st'|] eqn:Hrun;
    [|by vm_compute in Hrun].
  exists st'. split; [reflexivity|].
  exact (StripReach.strip_result Strip.cyclic_graph (Strip.Ref 1%positive) 4 st'
           cyclic_graph_well_formed Hrun).
Defined.

Lemma strip_twice_witness :
  exists st',
    Strip.stripRemainingExpressions 4 (Strip.Ref 1%positive)
      (Strip.initial Strip.cyclic_graph) = Some st' /\
    Strip.stripRemainingExpressions 4 (Strip.Ref 1%positive)
      (Strip.initial (Strip.heap st')) = Some st'.
Proof.
  destruct (Strip.stripRemainingExpressions 4 (Strip.Ref 1%positive)
              (Strip.initial Strip.cyclic_graph)) as [st'|] eqn:Hrun;
    [|by vm_compute in Hrun].
  exists st'. split; [reflexivity|].
  apply (StripReach.strip_twice Strip.cyclic_graph (Strip.Ref 1%positive) 4 st'
           cyclic_graph_well_formed Hrun 4).
  vm_compute. lia.
Defined.

Lemma container_loaded_once_witness :
  Loader.jsonsrc (Loader.target
    (fold_left Loader.on_event
       [Loader.Intersection [false]; Loader.Timeout; Loader.Intersection [true; true]]
       (Loader.Watcher false (Loader.fresh_container "/blocks/a.json"))))
  = Some "/blocks/a.json" /\
  Loader.started (Loader.target
    (fold_left Loader.on_event
       [Loader.Intersection [false]; Loader.Timeout; Loader.Intersection [true; true]]
       (Loader.Watcher false (Loader.fresh_container "/blocks/a.json")))) <= 1.
Proof.
  pose proof (LoaderFacts.container_loaded_once
                (Loader.fresh_container "/blocks/a.json")
                (Loader.Watcher false (Loader.fresh_container "/blocks/a.json"))
                [Loader.Intersection [false]; Loader.Timeout;
                 Loader.Intersection [true; true]]
                eq_refl) as Hthm.
  destruct Hthm as (Hsrc & Hle & _).
  - simpl. discriminate.
  - split; [exact Hsrc|exact Hle].
Defined.

Lemma wait_settles_witness :
  exists r,
    Wait.waitForLottie 100 false 0
      (take (Z.to_nat (100 / 50) + 2)
         [Wait.Poll false 0; Wait.Poll false 50; Wait.Poll false 100;
          Wait.Poll false 151; Wait.Poll true 201]) = Some r /\
    Wait.waitForLottie 100 false 0
      [Wait.Poll false 0; Wait.Poll false 50; Wait.Poll false 100;
       Wait.Poll false 151; Wait.Poll true 201] = Some r.
Proof.
  apply (WaitFacts.wait_settles 100 false 0
           [Wait.Poll false 0; Wait.Poll false 50; Wait.Poll false 100;
            Wait.Poll false 151; Wait.Poll true 201]).
  - lia.
  - simpl. lia.
  - vm_compute. lia.
Defined.

Lemma wait_outcome_witness :
  Wait.waitForLottie 100 false 0
    [Wait.Poll false 0; Wait.Poll false 60; Wait.Poll true 130] = Some Wait.Resolved /\
  forall more,
    Wait.waitForLottie 100 false 0
      ([Wait.Poll false 0; Wait.Poll false 60; Wait.Poll true 130] ++ more)
    = Some Wait.Resolved.
Proof.
  assert (Wait.waitForLottie 100 false 0
            [Wait.Poll false 0; Wait.Poll false 60; Wait.Poll true 130]
          = Some Wait.Resolved) as Hrun by reflexivity.
  split; [exact Hrun|].
  destruct (WaitFacts.wait_outcome 100 false 0
              [Wait.Poll false 0; Wait.Poll false 60; Wait.Poll true 130]
              Wait.Resolved Hrun) as (_ & _ & Hmore).
  exact Hmore.
Defined.
